(** * Shanghai Discovery: the media dubbing and text-overlay pipeline

    A shallow embedding of the pipeline scripts of the repository
    (scripts/video-processing/*.mjs, scripts/image-processing/*.mjs and
    scripts/process-xhs-posts.mjs) together with the properties the
    specification states about them.

    Conventions of the embedding.
    - A JavaScript number is an IEEE-754 binary64 value: Rocq's primitive
      [float], whose operations are the same correctly rounded operations.
    - A JavaScript string that the code inspects character by character is a
      list of UTF-16 code units ([jsstring]); file paths and messages that are
      only compared or passed around are Rocq strings.
    - [async] functions are run to completion: a promise that rejects is a
      [Throw], a [try]/[catch] is a match on the result.
    - External services (ffmpeg, the speech, translation, vision and image
      models, the file system) are oracles carried in an environment record;
      nothing is assumed about what they answer. *)

From Stdlib Require Import ZArith QArith Qround Qabs List String Ascii Bool Lia.
From Stdlib Require Import Floats Uint63 DecimalString.
From Stdlib Require Import DecimalNat.
Import ListNotations.

Set Warnings "-inexact-float,-register-all".

(* ================================================================== *)
(** * Part I: the model                                                *)
(* ================================================================== *)

(** ** JavaScript values *)

Module JS.

Local Open Scope float_scope.

Definition number := float.

(** The rational a finite binary64 value denotes (0 for NaN and the
    infinities, which denote none). *)
Definition val (x : number) : Q :=
  match Prim2SF x with
  | S754_finite s m e =>
      let mag := match e with
                 | Zpos p => Qmake (Zpos m * Zpos (Pos.pow 2 p)) 1
                 | Z0 => Qmake (Zpos m) 1
                 | Zneg p => Qmake (Zpos m) (Pos.pow 2 p)
                 end in
      if s then Qopp mag else mag
  | _ => 0%Q
  end.

(** An integer as a number (exact below 2^53). *)
Definition ofZ (z : Z) : number :=
  match z with
  | Z0 => 0
  | Zpos _ => of_uint63 (Uint63.of_Z z)
  | Zneg p => - of_uint63 (Uint63.of_Z (Zpos p))
  end.

Definition ofNat (n : nat) : number := ofZ (Z.of_nat n).

(** [x > y], [x >= y] as JavaScript writes them. *)
Definition gtb (x y : number) : bool := y <? x.
Definition geb (x y : number) : bool := y <=? x.

(** [Number.prototype.toFixed(3)]: the decimal with three fractional digits
    nearest to the number, ties away from zero, kept as a count of
    thousandths. *)
Inductive fixed : Type :=
| FixedNaN
| FixedInfinity (negative : bool)
| Fixed (thousandths : Z).

Definition toFixed3 (x : number) : fixed :=
  match Prim2SF x with
  | S754_nan => FixedNaN
  | S754_infinity s => FixedInfinity s
  | S754_zero _ => Fixed 0
  | S754_finite s _ _ =>
      let n := Qfloor (Qabs (val x) * 1000 + (1 # 2))%Q in
      Fixed (if s then (- n)%Z else n)
  end.

(** The length in seconds a decimal printed by [toFixed3] asks for. *)
Definition fixedSeconds (f : fixed) : Q :=
  match f with
  | Fixed n => Qmake n 1000
  | _ => 0%Q
  end.

(** [x || 0] on a number: 0 replaces [undefined], NaN and the zeros. *)
Definition orZero (o : option number) : number :=
  match o with
  | Some x => if PrimFloat.is_nan x || PrimFloat.is_zero x then 0 else x
  | None => 0
  end.

(** Strings as sequences of UTF-16 code units. *)
Definition jschar := N.
Definition jsstring := list jschar.

Definition ofAscii (s : string) : jsstring :=
  List.map (fun a => N_of_ascii a) (list_ascii_of_string s).

(** A literal whose double quotes are written as backquotes. *)
Definition quoted (s : string) : jsstring :=
  List.map (fun c => if N.eqb c 96 then 34%N else c) (ofAscii s).

Definition streq (a b : jsstring) : bool :=
  if list_eq_dec N.eq_dec a b then true else false.

(** The characters [\s] matches and [trim] strips: WhiteSpace and
    LineTerminator. *)
Definition isWhitespace (c : jschar) : bool :=
  existsb (N.eqb c)
    [9; 10; 11; 12; 13; 32; 160; 5760; 8192; 8193; 8194; 8195; 8196; 8197;
     8198; 8199; 8200; 8201; 8202; 8232; 8233; 8239; 8287; 12288; 65279]%N.

Fixpoint trimStart (s : jsstring) : jsstring :=
  match s with
  | c :: r => if isWhitespace c then trimStart r else s
  | [] => []
  end.

(** [String.prototype.trim]. *)
Definition trim (s : jsstring) : jsstring :=
  rev (trimStart (rev (trimStart s))).

(** The truthiness of a string: only the empty string is falsy. *)
Definition truthyString (s : string) : bool :=
  match s with EmptyString => false | _ => true end.

(** A thrown [Error]: the HTTP status a service error carries, if any, and
    its message. *)
Record Error : Type := mkError { status : option Z; message : string }.

Definition newError (msg : string) : Error := mkError None msg.

(** The outcome of a call: a value, or a thrown error (a rejected promise). *)
Inductive result (A : Type) : Type :=
| Ok (a : A)
| Throw (e : Error).
Arguments Ok {A} a.
Arguments Throw {A} e.

Definition bind {A B : Type} (r : result A) (k : A -> result B) : result B :=
  match r with
  | Ok a => k a
  | Throw e => Throw e
  end.

(** [try { body } catch (error) { handler }]. *)
Definition tryCatch {A : Type} (body : result A) (handler : Error -> result A) : result A :=
  match body with
  | Ok a => Ok a
  | Throw e => handler e
  end.

End JS.

Notation "x <- c1 ;; c2" := (JS.bind c1 (fun x => c2))
  (at level 61, c1 at next level, right associativity).

(** ** The file system, as far as the scripts look at it *)

Module Fs.

Definition path := string.

(** [path.join(dir, name)]. *)
Definition join (dir name : path) : path := (dir ++ "/" ++ name)%string.
Arguments join (dir name)%_string.

Definition natToString (n : nat) : string := NilZero.string_of_uint (Nat.to_uint n).

(** The paths that exist. *)
Definition FS := list path.

Definition existsSync (fs : FS) (p : path) : bool := existsb (String.eqb p) fs.

Definition write (p : path) (fs : FS) : FS := p :: fs.

(** [fs.unlinkSync(p)] for a path that exists. *)
Definition unlink (p : path) (fs : FS) : FS :=
  List.filter (fun q => negb (String.eqb p q)) fs.

(** [p] lies in the directory [dir], however deep. *)
Definition inDirectory (dir p : path) : bool := String.prefix (dir ++ "/") p.
Arguments inDirectory (dir p)%_string.

End Fs.

(** ** Speech segments (the SpeechSegment record of the data model)

    One record type carries a segment through the dubbing stages.  A field a
    stage has not added yet is [None], as a property that is absent from the
    JavaScript object; [{...segment, k: v}] is [set_k v segment]. *)

Module Segment.

Import JS Fs.

(** The warning text of sync-audio.mjs, which says that the audio overruns
    its slot even at 1.5x, kept with the ratio it prints. *)
Inductive Warning : Type :=
| OverrunsAtCap (ratio : number).

Record t : Type := mk {
  chinese : jsstring;
  english : jsstring;
  start : number;
  end_ : number;
  duration : number;
  (* added by generateAllSegments; [audioPath: null] is [None] too *)
  audioPath : option path;
  audioDuration : option number;
  error : option string;
  (* added by syncAudioTiming *)
  adjustedAudioPath : option path;
  speedAdjustment : option number;
  adjusted : option bool;
  warning : option Warning;
  silencePadding : option number
}.

Definition set_audioPath (v : option path) (s : t) : t :=
  mk (chinese s) (english s) (start s) (end_ s) (duration s)
     v (audioDuration s) (error s)
     (adjustedAudioPath s) (speedAdjustment s) (adjusted s) (warning s) (silencePadding s).

Definition set_audioDuration (v : number) (s : t) : t :=
  mk (chinese s) (english s) (start s) (end_ s) (duration s)
     (audioPath s) (Some v) (error s)
     (adjustedAudioPath s) (speedAdjustment s) (adjusted s) (warning s) (silencePadding s).

Definition set_error (v : string) (s : t) : t :=
  mk (chinese s) (english s) (start s) (end_ s) (duration s)
     (audioPath s) (audioDuration s) (Some v)
     (adjustedAudioPath s) (speedAdjustment s) (adjusted s) (warning s) (silencePadding s).

Definition set_adjustedAudioPath (v : option path) (s : t) : t :=
  mk (chinese s) (english s) (start s) (end_ s) (duration s)
     (audioPath s) (audioDuration s) (error s)
     v (speedAdjustment s) (adjusted s) (warning s) (silencePadding s).

Definition set_speedAdjustment (v : number) (s : t) : t :=
  mk (chinese s) (english s) (start s) (end_ s) (duration s)
     (audioPath s) (audioDuration s) (error s)
     (adjustedAudioPath s) (Some v) (adjusted s) (warning s) (silencePadding s).

Definition set_adjusted (v : bool) (s : t) : t :=
  mk (chinese s) (english s) (start s) (end_ s) (duration s)
     (audioPath s) (audioDuration s) (error s)
     (adjustedAudioPath s) (speedAdjustment s) (Some v) (warning s) (silencePadding s).

Definition set_warning (v : Warning) (s : t) : t :=
  mk (chinese s) (english s) (start s) (end_ s) (duration s)
     (audioPath s) (audioDuration s) (error s)
     (adjustedAudioPath s) (speedAdjustment s) (adjusted s) (Some v) (silencePadding s).

Definition set_silencePadding (v : number) (s : t) : t :=
  mk (chinese s) (english s) (start s) (end_ s) (duration s)
     (audioPath s) (audioDuration s) (error s)
     (adjustedAudioPath s) (speedAdjustment s) (adjusted s) (warning s) (Some v).

(** Reading a numeric property that may be absent: [undefined] is NaN in
    arithmetic. *)
Definition num (o : option number) : number :=
  match o with
  | Some x => x
  | None => nan
  end.

(** [!!p] for a path-valued property: absent, [null] and the empty string are
    falsy. *)
Definition truthyPath (o : option path) : bool :=
  match o with
  | Some p => truthyString p
  | None => false
  end.

End Segment.

(** ** transcribe.mjs: speech to text with bounded retries *)

Module Transcribe.

Import JS Fs.
Local Open Scope float_scope.

(** A segment as the transcription returns it: { text, start, end }. *)
Record Segment : Type := mkSegment {
  text : jsstring;
  start : number;
  end_ : number
}.

(** The verbose_json response, with the fields the code reads, typed as
    the service documents them: reading them does not throw. *)
Record Response : Type := mkResponse {
  language : option string;
  responseDuration : option number;
  responseSegments : option (list Segment)
}.

Record Transcription : Type := mkTranscription {
  segments : list Segment;
  detectedLanguage : string;
  duration : number;
  cost : number
}.

(** What the process and the service answer: the API key of the process
    environment, the size in bytes of the audio file, and the outcome of the
    request of each attempt (numbered from 1). *)
Record Env : Type := mkEnv {
  OPENAI_API_KEY : option string;
  fileSize : path -> Z;
  create : nat -> result Response
}.

(** What the function does besides returning: the pauses and the requests,
    in order. *)
Inductive Event : Type :=
| Sleep (ms : Z)
| Request (attempt : nat).

Definition MAX_RETRIES : nat := 3.

(** STEP 4 and STEP 5: the result built from a response. *)
Definition parseResponse (response : Response) : Transcription :=
  let detected := match language response with
                  | Some l => if truthyString l then l else "unknown"%string
                  | None => "unknown"%string
                  end in
  let d := orZero (responseDuration response) in
  let segs := match responseSegments response with
              | Some l => List.map (fun seg => mkSegment (trim (text seg)) (start seg) (end_ seg)) l
              | None => []
              end in
  mkTranscription segs detected d (d / 60 * 0.006).

(** The retry loop, [for (attempt = 1; attempt <= MAX_RETRIES; attempt++)]:
    [remaining] iterations are left when [attempt] is about to run. *)
Fixpoint attempts (env : Env) (remaining attempt : nat) (lastError : option Error)
    (trace : list Event) : result Transcription * list Event :=
  match remaining with
  | O =>
      let msg := match lastError with Some e => message e | None => ""%string end in
      (Throw (newError ("Whisper transcription failed after 3 attempts: " ++ msg)), trace)
  | S remaining' =>
      let trace :=
        if Nat.ltb 1 attempt
        then trace ++ [Sleep (2000 * 2 ^ (Z.of_nat attempt - 1))]
        else trace in
      let trace := trace ++ [Request attempt] in
      match create env attempt with
      | Ok response => (Ok (parseResponse response), trace)
      | Throw error =>
          match status error with
          | Some 400%Z =>
              (Throw (newError ("Whisper API rejected the audio: " ++ message error)), trace)
          | _ => attempts env remaining' (S attempt) (Some error) trace
          end
      end
  end.

(** STEP 1, the three checks, then the loop.  The messages of the checks
    are cut to their first line, and the one on the size of the file does
    not carry the size. *)
Definition transcribeAudio (env : Env) (fs : FS) (audioPath : path)
    : result Transcription * list Event :=
  if negb (match OPENAI_API_KEY env with Some k => truthyString k | None => false end)
  then (Throw (newError "OPENAI_API_KEY not found in .env file."), [])
  else if negb (existsSync fs audioPath)
  then (Throw (newError ("Audio file not found: " ++ audioPath)), [])
  else if (25 * 1024 * 1024 <? fileSize env audioPath)%Z
  then (Throw (newError "Audio file is over the Whisper API limit of 25MB."), [])
  else attempts env MAX_RETRIES 1 None [].

End Transcribe.

(** ** translate-segments.mjs: one translation per segment *)

Module TranslateSegments.

Import JS Fs.
Local Open Scope float_scope.

(** The process environment and the chat-completion service: the reply to
    the [i]-th request, made for a source text and a slot duration (the
    prompt is built from these two), or the error the request or the reading
    of its reply throws. *)
Record Env : Type := mkEnv {
  OPENAI_API_KEY : option string;
  chat : nat -> jsstring -> number -> result jsstring
}.

Definition isQuote (c : jschar) : bool := N.eqb c 34 || N.eqb c 39.

(** The [replace] of translateSegment, whose pattern is a quote (double or
    single) at the very start or at the very end: one quote off the front,
    then one off the end of what follows it. *)
Definition stripQuotes (s : jsstring) : jsstring :=
  let rest := match s with
              | c :: r => if isQuote c then r else s
              | [] => []
              end in
  match rev rest with
  | c :: r => if isQuote c then rev r else rest
  | [] => rest
  end.

Definition translateSegment (env : Env) (i : nat) (chineseText : jsstring)
    (duration : number) : result jsstring :=
  content <- chat env i chineseText duration ;;
  Ok (stripQuotes (trim content)).

(** The body of the loop: what is pushed for [segments[i]]. *)
Definition translateOne (env : Env) (i : nat) (segment : Transcribe.Segment) : Segment.t :=
  let duration := Transcribe.end_ segment - Transcribe.start segment in
  let pushed english :=
    Segment.mk (Transcribe.text segment) english
      (Transcribe.start segment) (Transcribe.end_ segment) duration
      None None None None None None None None in
  match translateSegment env i (Transcribe.text segment) duration with
  | Ok english => pushed english
  | Throw _ => pushed (Transcribe.text segment)
  end.

Fixpoint translateLoop (env : Env) (i : nat) (segments : list Transcribe.Segment)
    : list Segment.t :=
  match segments with
  | [] => []
  | segment :: rest => translateOne env i segment :: translateLoop env (S i) rest
  end.

Definition translateSegments (env : Env) (segments : list Transcribe.Segment)
    : result (list Segment.t) :=
  if negb (match OPENAI_API_KEY env with Some k => truthyString k | None => false end)
  then Throw (newError "OPENAI_API_KEY not found in .env file")
  else match segments with
       | [] => Ok []
       | _ => Ok (translateLoop env 0 segments)
       end.

End TranslateSegments.

(** ** text-to-speech.mjs: one audio clip per segment *)

Module TextToSpeech.

Import JS Fs.

(** The text-to-speech service and the probe of the clip it wrote: [speak i
    text voice] is the outcome of generating and saving the [i]-th clip,
    [probe p] the measured duration of the file at [p]. *)
Record Env : Type := mkEnv {
  ELEVENLABS_API_KEY : option string;
  speak : nat -> jsstring -> string -> result unit;
  probe : path -> result number
}.

(** The body of the loop: the record pushed for [segments[i]] and the file
    system after it. *)
Definition generateOne (env : Env) (outputDir : path) (voiceId : string) (fs : FS)
    (i : nat) (segment : Segment.t) : Segment.t * FS :=
  let outputPath := join outputDir ("segment_" ++ natToString i ++ ".mp3")%string in
  let fallback (e : Error) :=
    Segment.set_error (message e)
      (Segment.set_audioDuration (Segment.duration segment)
         (Segment.set_audioPath None segment)) in
  match speak env i (Segment.english segment) voiceId with
  | Throw e => (fallback e, fs)
  | Ok _ =>
      let fs := write outputPath fs in
      match probe env outputPath with
      | Throw e => (fallback e, fs)
      | Ok audioDuration =>
          (Segment.set_audioDuration audioDuration
             (Segment.set_audioPath (Some outputPath) segment), fs)
      end
  end.

Fixpoint generateLoop (env : Env) (outputDir : path) (voiceId : string) (fs : FS)
    (i : nat) (segments : list Segment.t) : list Segment.t * FS :=
  match segments with
  | [] => ([], fs)
  | segment :: rest =>
      let (r, fs) := generateOne env outputDir voiceId fs i segment in
      let (rs, fs) := generateLoop env outputDir voiceId fs (S i) rest in
      (r :: rs, fs)
  end.

(** The message of the check of the API key is cut to its first line. *)
Definition generateAllSegments (env : Env) (fs : FS) (segments : list Segment.t)
    (outputDir : path) (voiceId : string) : result (list Segment.t) * FS :=
  if negb (match ELEVENLABS_API_KEY env with Some k => truthyString k | None => false end)
  then (Throw (newError "ELEVENLABS_API_KEY not found in .env file."), fs)
  else match segments with
       | [] => (Ok [], fs)
       | _ =>
           let (results, fs) := generateLoop env outputDir voiceId fs 0 segments in
           (Ok results, fs)
       end.

End TextToSpeech.

(** ** sync-audio.mjs: fitting each clip to its slot *)

Module SyncAudio.

Import JS Fs.
Local Open Scope float_scope.

(** The audio filters handed to ffmpeg, with their argument as [toFixed(3)]
    prints it. *)
Inductive Filter : Type :=
| atempo (factor : fixed)
| apad (pad_dur : fixed).

Record Job : Type := mkJob {
  input : path;
  filters : list Filter;
  output : path
}.

(** ffmpeg: [None] when the job ends, the error message when it fails. *)
Record Env : Type := mkEnv {
  ffmpeg : Job -> option string
}.

(** The loop of speedUpAudio, [while (remaining > 2.0)]: it halves
    [remaining] and so ends for every finite factor within 1100 rounds; it
    never ends for +Infinity, which is [None] here. *)
Fixpoint atempoChain (fuel : nat) (remaining : number) : option (list Filter) :=
  match fuel with
  | O => None
  | S fuel' =>
      if gtb remaining 2.0
      then option_map (cons (atempo (Fixed 2000))) (atempoChain fuel' (remaining / 2.0))
      else Some [atempo (toFixed3 remaining)]
  end.

Definition speedUpAudio (env : Env) (fs : FS) (inputPath outputPath : path)
    (speedFactor : number) : option (result unit * FS) :=
  match atempoChain 1100 speedFactor with
  | None => None
  | Some chain =>
      match ffmpeg env (mkJob inputPath chain outputPath) with
      | None => Some (Ok tt, write outputPath fs)
      | Some msg => Some (Throw (newError ("Speed adjustment failed: " ++ msg)), fs)
      end
  end.

Definition addSilence (env : Env) (fs : FS) (inputPath outputPath : path)
    (silenceDuration : number) : result unit * FS :=
  match ffmpeg env (mkJob inputPath [apad (toFixed3 silenceDuration)] outputPath) with
  | None => (Ok tt, write outputPath fs)
  | Some msg => (Throw (newError ("Silence padding failed: " ++ msg)), fs)
  end.

(** [segment.audioPath && fs.existsSync(segment.audioPath)]. *)
Definition hasAudio (fs : FS) (segment : Segment.t) : bool :=
  match Segment.audioPath segment with
  | Some p => truthyString p && existsSync fs p
  | None => false
  end.

Definition ratioOf (segment : Segment.t) : number :=
  Segment.num (Segment.audioDuration segment) / Segment.duration segment.

(** The body of the loop: the record pushed for [segments[i]]; [None] when
    the iteration never ends. *)
Definition syncSegment (env : Env) (outputDir : path) (fs : FS) (i : nat)
    (segment : Segment.t) : option (result Segment.t * FS) :=
  match Segment.audioPath segment with
  | None => Some (Ok segment, fs)
  | Some audioPath =>
      if negb (truthyString audioPath && existsSync fs audioPath)
      then Some (Ok segment, fs)
      else
        let originalDuration := Segment.duration segment in
        let audioDuration := Segment.num (Segment.audioDuration segment) in
        let ratio := audioDuration / originalDuration in
        let outputPath := join outputDir ("adjusted_" ++ natToString i ++ ".mp3")%string in
        if geb ratio 0.95 && (ratio <=? 1.05)
        then
          Some (Ok (Segment.set_adjusted false
                      (Segment.set_speedAdjustment 1.0
                         (Segment.set_adjustedAudioPath (Some audioPath) segment))), fs)
        else if gtb ratio 1.05 && (ratio <=? 1.5)
        then
          let speedFactor := ratio in
          match speedUpAudio env fs audioPath outputPath speedFactor with
          | None => None
          | Some (Throw e, fs) => Some (Throw e, fs)
          | Some (Ok _, fs) =>
              Some (Ok (Segment.set_adjusted true
                          (Segment.set_speedAdjustment speedFactor
                             (Segment.set_adjustedAudioPath (Some outputPath) segment))), fs)
          end
        else if gtb ratio 1.5
        then
          let speedFactor := 1.5 in
          match speedUpAudio env fs audioPath outputPath speedFactor with
          | None => None
          | Some (Throw e, fs) => Some (Throw e, fs)
          | Some (Ok _, fs) =>
              Some (Ok (Segment.set_warning (Segment.OverrunsAtCap ratio)
                          (Segment.set_adjusted true
                             (Segment.set_speedAdjustment speedFactor
                                (Segment.set_adjustedAudioPath (Some outputPath) segment)))), fs)
          end
        else
          let silenceDuration := originalDuration - audioDuration in
          match addSilence env fs audioPath outputPath silenceDuration with
          | (Throw e, fs) => Some (Throw e, fs)
          | (Ok _, fs) =>
              Some (Ok (Segment.set_silencePadding silenceDuration
                          (Segment.set_adjusted true
                             (Segment.set_speedAdjustment 1.0
                                (Segment.set_adjustedAudioPath (Some outputPath) segment)))), fs)
          end
  end.

Fixpoint syncLoop (env : Env) (outputDir : path) (fs : FS) (i : nat)
    (segments : list Segment.t) : option (result (list Segment.t) * FS) :=
  match segments with
  | [] => Some (Ok [], fs)
  | segment :: rest =>
      match syncSegment env outputDir fs i segment with
      | None => None
      | Some (Throw e, fs) => Some (Throw e, fs)
      | Some (Ok r, fs) =>
          match syncLoop env outputDir fs (S i) rest with
          | None => None
          | Some (Throw e, fs) => Some (Throw e, fs)
          | Some (Ok rs, fs) => Some (Ok (r :: rs), fs)
          end
      end
  end.

Definition syncAudioTiming (env : Env) (fs : FS) (segments : list Segment.t)
    (outputDir : path) : option (result (list Segment.t) * FS) :=
  syncLoop env outputDir fs 0 segments.

End SyncAudio.

(** ** assemble-audio.mjs: one track from the clips *)

Module AssembleAudio.

Import JS Fs.
Local Open Scope float_scope.

(** An entry of the concat list: a silence file the function generated, with
    the length it asked ffmpeg for, or the adjusted clip of a segment. *)
Inductive Clip : Type :=
| SilenceClip (p : path) (duration : fixed)
| SegmentClip (p : path).

(** ffmpeg, and the length in seconds of each audio file on disk. *)
Record Env : Type := mkEnv {
  anullsrc : path -> fixed -> option string;
  concat : list path -> path -> option string;
  clipSeconds : path -> Q
}.

(** What the function returns, [outputPath], with what the concat demuxer
    wrote there: the clips of the list one after the other. *)
Record Track : Type := mkTrack {
  trackPath : path;
  trackClips : list Clip
}.

Definition clipPath (c : Clip) : path :=
  match c with
  | SilenceClip p _ => p
  | SegmentClip p => p
  end.

Definition generateSilence (env : Env) (fs : FS) (outputPath : path) (duration : number)
    : result unit * FS :=
  match anullsrc env outputPath (toFixed3 duration) with
  | None => (Ok tt, write outputPath fs)
  | Some msg => (Throw (newError ("Silence generation failed: " ++ msg)), fs)
  end.

Definition hasAdjustedAudio (fs : FS) (segment : Segment.t) : bool :=
  match Segment.adjustedAudioPath segment with
  | Some p => truthyString p && existsSync fs p
  | None => false
  end.

(** STEP 1, the loop over the segments: the concat list it builds and the
    value of [currentTime] when it ends. *)
Fixpoint concatLoop (env : Env) (tempDir : path) (fs : FS) (i : nat)
    (currentTime : number) (segments : list Segment.t)
    : result (list Clip * number) * FS :=
  match segments with
  | [] => (Ok ([], currentTime), fs)
  | segment :: rest =>
      match Segment.adjustedAudioPath segment with
      | None => concatLoop env tempDir fs (S i) currentTime rest
      | Some p =>
          if negb (truthyString p && existsSync fs p)
          then concatLoop env tempDir fs (S i) currentTime rest
          else
            let silenceBefore := Segment.start segment - currentTime in
            if gtb silenceBefore 0.01
            then
              let silencePath :=
                join tempDir ("silence_" ++ natToString i ++ ".mp3")%string in
              match generateSilence env fs silencePath silenceBefore with
              | (Throw e, fs) => (Throw e, fs)
              | (Ok _, fs) =>
                  match concatLoop env tempDir fs (S i) (Segment.end_ segment) rest with
                  | (Throw e, fs) => (Throw e, fs)
                  | (Ok (l, t), fs) =>
                      (Ok (SilenceClip silencePath (toFixed3 silenceBefore)
                             :: SegmentClip p :: l, t), fs)
                  end
              end
            else
              match concatLoop env tempDir fs (S i) (Segment.end_ segment) rest with
              | (Throw e, fs) => (Throw e, fs)
              | (Ok (l, t), fs) => (Ok (SegmentClip p :: l, t), fs)
              end
      end
  end.

(** STEP 1 as a whole: the loop, then the final silence up to the duration of
    the video. *)
Definition concatList (env : Env) (tempDir : path) (fs : FS)
    (segments : list Segment.t) (videoDuration : number) : result (list Clip) * FS :=
  match concatLoop env tempDir fs 0 0 segments with
  | (Throw e, fs) => (Throw e, fs)
  | (Ok (l, currentTime), fs) =>
      let finalSilence := videoDuration - currentTime in
      if gtb finalSilence 0.01
      then
        let silencePath := join tempDir "silence_final.mp3" in
        match generateSilence env fs silencePath finalSilence with
        | (Throw e, fs) => (Throw e, fs)
        | (Ok _, fs) => (Ok (l ++ [SilenceClip silencePath (toFixed3 finalSilence)]), fs)
        end
      else (Ok l, fs)
  end.

(** [path.dirname] for a path with a directory part (a dot otherwise). *)
Fixpoint dirname_aux (s : string) : option string :=
  match s with
  | EmptyString => None
  | String c r =>
      match dirname_aux r with
      | Some d => Some (String c d)
      | None => if Ascii.eqb c "/" then Some EmptyString else None
      end
  end.

Definition dirname (p : path) : path :=
  match dirname_aux p with
  | Some d => d
  | None => "."%string
  end.

(** STEP 4, [concatList.forEach(file => { if (fs.existsSync(file))
    fs.unlinkSync(file) })]: the silence files go, and so do the clips. *)
Definition removeFiles (files : list path) (fs : FS) : FS :=
  fold_left (fun fs file => if existsSync fs file then unlink file fs else fs) files fs.

(** STEP 2 writes the list file, STEP 3 has ffmpeg write the track, STEP 4
    removes the files of the list, the list file and the directory, which
    [rmdirSync] refuses to remove while a file is left in it; the [statSync]
    that follows needs the track to be there still. *)
Definition assembleAudioTrack (env : Env) (fs : FS) (segments : list Segment.t)
    (outputPath : path) (videoDuration : number) : result Track * FS :=
  let tempDir := join (dirname outputPath) "temp" in
  match concatList env tempDir fs segments videoDuration with
  | (Throw e, fs) => (Throw e, fs)
  | (Ok clips, fs) =>
      let concatListPath := join tempDir "concat_list.txt" in
      let fs := write concatListPath fs in
      match concat env (List.map clipPath clips) outputPath with
      | Some msg => (Throw (newError ("Concatenation failed: " ++ msg)), fs)
      | None =>
          let fs := write outputPath fs in
          let fs := removeFiles (List.map clipPath clips) fs in
          let fs := if existsSync fs concatListPath then unlink concatListPath fs else fs in
          if existsb (inDirectory tempDir) fs
          then (Throw (newError "ENOTEMPTY: directory not empty, rmdir"), fs)
          else if existsSync fs outputPath
          then (Ok (mkTrack outputPath clips), fs)
          else (Throw (newError "ENOENT: no such file or directory, stat"), fs)
      end
  end.

(** The length of a track: the lengths of its clips added up. *)
Definition clipLength (env : Env) (c : Clip) : Q :=
  match c with
  | SilenceClip _ d => fixedSeconds d
  | SegmentClip p => clipSeconds env p
  end.

Definition trackDuration (env : Env) (clips : list Clip) : Q :=
  fold_right (fun c acc => (clipLength env c + acc)%Q) 0%Q clips.

End AssembleAudio.

(** ** JSON values, as [JSON.parse] returns them *)

Module Json.

Import JS.
Local Open Scope float_scope.

Inductive t : Type :=
| JNull
| JBool (b : bool)
| JNum (n : number)
| JStr (s : jsstring)
| JArr (items : list t)
| JObj (fields : list (jsstring * t)).

(** A JavaScript value read from parsed JSON: [None] is [undefined]. *)
Definition value := option t.

(** The value of a key of an object; of a key written twice, the last. *)
Fixpoint lookup (k : jsstring) (fields : list (jsstring * t)) : value :=
  match fields with
  | [] => None
  | (k', v) :: rest =>
      match lookup k rest with
      | Some v' => Some v'
      | None => if streq k k' then Some v else None
      end
  end.

Definition TypeError (msg : string) : Error := newError ("TypeError: " ++ msg).

(** [v.k] for a key that no string, number, boolean or array has of its own:
    a TypeError on [undefined] and [null], [undefined] on what is no object. *)
Definition getProp (v : value) (k : string) : result value :=
  match v with
  | None => Throw (TypeError "cannot read properties of undefined")
  | Some JNull => Throw (TypeError "cannot read properties of null")
  | Some (JObj fields) => Ok (lookup (ofAscii k) fields)
  | Some _ => Ok None
  end.

Definition truthy (v : value) : bool :=
  match v with
  | None => false
  | Some JNull => false
  | Some (JBool b) => b
  | Some (JNum n) => negb (PrimFloat.is_nan n || PrimFloat.is_zero n)
  | Some (JStr s) => match s with [] => false | _ => true end
  | Some (JArr _) => true
  | Some (JObj _) => true
  end.

(** [a || b]. *)
Definition orElse (a b : value) : value := if truthy a then a else b.

(** ToNumber.  What a string or an array or object converts to is the
    runtime's business and is taken as given. *)
Definition toNumber (convert : t -> number) (v : value) : number :=
  match v with
  | None => nan
  | Some JNull => 0
  | Some (JBool b) => if b then 1 else 0
  | Some (JNum n) => n
  | Some other => convert other
  end.

(** [JSON.parse], a function of the runtime: [None] when it throws its
    SyntaxError. *)
Definition parser := jsstring -> option t.

Definition JSON_parse (parse : parser) (text : jsstring) : result t :=
  match parse text with
  | Some v => Ok v
  | None => Throw (newError "SyntaxError: not valid JSON")
  end.

End Json.

(** ** The cleanup and truncation-recovery passes over a model's JSON reply

    analyze-with-google-vision.mjs and analyze-with-claude.mjs apply the same
    chain of [String.prototype.replace] calls; each regular expression is
    written out as the scan it performs. *)

Module Repair.

Import JS.

Definition COMMA : jschar := 44%N.
Definition COLON : jschar := 58%N.
Definition QUOTE : jschar := 39%N.
Definition DQUOTE : jschar := 34%N.
Definition LBRACE : jschar := 123%N.
Definition RBRACE : jschar := 125%N.
Definition LBRACKET : jschar := 91%N.
Definition RBRACKET : jschar := 93%N.
Definition SPACE : jschar := 32%N.

(** What is left of [s] after [\s*]. *)
Definition skipWs (s : jsstring) : jsstring := trimStart s.

(** [s] matches [\s*[}\]]] at its start. *)
Definition closesAfterWs (s : jsstring) : bool :=
  match skipWs s with
  | c :: _ => N.eqb c RBRACE || N.eqb c RBRACKET
  | [] => false
  end.

(** [s.replace(/,(\s*[}\]])/g, '$1')]. *)
Fixpoint removeTrailingCommas (s : jsstring) : jsstring :=
  match s with
  | [] => []
  | c :: r =>
      if N.eqb c COMMA && closesAfterWs r
      then removeTrailingCommas r
      else c :: removeTrailingCommas r
  end.

(** [s.replace(/a\s*b/g, repl)] for two characters [a] and [b], neither of
    them white space: [pending] holds the white space read after an [a] that
    may still turn out to start a match. *)
Fixpoint replaceSpan (a b : jschar) (repl : jsstring) (pending : option jsstring)
    (s : jsstring) : jsstring :=
  match s with
  | [] =>
      match pending with
      | Some ws => a :: ws
      | None => []
      end
  | c :: r =>
      match pending with
      | None =>
          if N.eqb c a
          then replaceSpan a b repl (Some []) r
          else c :: replaceSpan a b repl None r
      | Some ws =>
          if N.eqb c b then repl ++ replaceSpan a b repl None r
          else if isWhitespace c then replaceSpan a b repl (Some (ws ++ [c])) r
          else if N.eqb c a then a :: ws ++ replaceSpan a b repl (Some []) r
          else a :: ws ++ c :: replaceSpan a b repl None r
      end
  end.

(** The cleanup pass, four replacements in a row: a comma before a closing
    brace or bracket goes; a single quote that opens a value after a colon,
    and one that closes a value before a comma or a brace, becomes a double
    quote. *)
Definition cleanJson (s : jsstring) : jsstring :=
  let s := removeTrailingCommas s in
  let s := replaceSpan COLON QUOTE [COLON; SPACE; DQUOTE] None s in
  let s := replaceSpan QUOTE COMMA [DQUOTE; COMMA] None s in
  replaceSpan QUOTE RBRACE [DQUOTE; RBRACE] None s.

(** [s] matches [\s*\{[^}]*$] at its start. *)
Definition opensUnclosed (s : jsstring) : bool :=
  match skipWs s with
  | c :: r => N.eqb c LBRACE && negb (existsb (N.eqb RBRACE) r)
  | [] => false
  end.

(** [s.replace(/,\s*\{[^}]*$/, '')]: the text up to the first comma after
    which an object opens and never closes. *)
Fixpoint dropIncompleteObject (s : jsstring) : jsstring :=
  match s with
  | [] => []
  | c :: r =>
      if N.eqb c COMMA && opensUnclosed r
      then []
      else c :: dropIncompleteObject r
  end.

(** [(s.match(/c/g) || []).length]. *)
Definition count (c : jschar) (s : jsstring) : nat :=
  List.length (List.filter (N.eqb c) s).

(** [c.repeat(Math.max(0, opened - closed))]. *)
Definition closers (c : jschar) (opened closed : nat) : jsstring :=
  List.repeat c (opened - closed).

(** The truncation-recovery pass: the incomplete last object dropped, then
    every bracket and brace still open closed. *)
Definition closeTruncated (cleanedJson : jsstring) : jsstring :=
  let truncated := dropIncompleteObject cleanedJson in
  let openBrackets := closers RBRACKET (count LBRACKET truncated) (count RBRACKET truncated) in
  let openBraces := closers RBRACE (count LBRACE truncated) (count RBRACE truncated) in
  truncated ++ openBrackets ++ openBraces.

(** The three attempts, each made only when the one before threw:
    [try { return JSON.parse(text) } catch { ... try { ... } catch { ... } }];
    [None] when the third throws too. *)
Definition parseLeniently (parse : Json.parser) (text : jsstring) : result (option Json.t) :=
  tryCatch
    (v <- Json.JSON_parse parse text ;; Ok (Some v))
    (fun parseError =>
       let cleanedJson := cleanJson text in
       tryCatch
         (v <- Json.JSON_parse parse cleanedJson ;; Ok (Some v))
         (fun secondError =>
            tryCatch
              (recovered <- Json.JSON_parse parse (closeTruncated cleanedJson) ;;
               Ok (Some recovered))
              (fun thirdError => Ok None))).

End Repair.

(** ** Text overlays (the TextOverlay record of the data model) *)

Module Overlay.

Import JS.

Record Position : Type := mkPosition { x_percent : number; y_percent : number }.
Record Size : Type := mkSize { width_percent : number; height_percent : number }.

(** [chinese] and [english] are whatever the classifier's JSON held under
    those keys, strings as a rule. *)
Record t : Type := mk {
  chinese : Json.value;
  english : Json.value;
  isAuthorOverlay : bool;
  position : option Position;
  size : option Size
}.

End Overlay.

(** ** Reading an image file *)

Module Image.

Import JS.

Definition bytes := list N.

(** The MIME type read off the first bytes of the file. *)
Definition detectMimeType (imageBuffer : bytes) : string :=
  let byte i := nth_error imageBuffer i in
  match byte 0%nat, byte 1%nat with
  | Some 137%N, Some 80%N => "image/png"
  | _, _ =>
      match byte 0%nat, byte 1%nat, byte 2%nat, byte 3%nat with
      | Some 82%N, Some 73%N, Some 70%N, Some 70%N => "image/webp"
      | _, _, _, _ => "image/jpeg"
      end
  end.

End Image.

(** ** analyze-with-google-vision.mjs: text detection, then the classifier *)

Module GoogleVision.

Import JS Fs.
Local Open Scope float_scope.

Definition MIN_WIDTH_PERCENT : number := 2.
Definition MIN_HEIGHT_PERCENT : number := 1.5.
Definition BATCH_SIZE : nat := 15.

(** The annotation of the text-detection service: pages of blocks of
    paragraphs; a paragraph has its words, each the texts of its symbols,
    and the vertices of its bounding box, whose coordinates may be absent. *)
Record Vertex : Type := mkVertex { x : option number; y : option number }.

Record Paragraph : Type := mkParagraph {
  words : list (list jsstring);
  vertices : list Vertex
}.

Definition Block := list Paragraph.
Definition Page := list Block.

Record TextBlock : Type := mkTextBlock {
  index : nat;
  text : jsstring;
  left : number;
  top : number;
  width : number;
  height : number;
  x_percent : number;
  y_percent : number;
  width_percent : number;
  height_percent : number
}.

(** The services: [documentTextDetection p] is the pages of
    [result.fullTextAnnotation] ([None] when the annotation or its pages are
    absent), [metadata p] the width and height sharp reads, [messagesCreate
    n] the text of the classifier's reply to the [n]-th request of the run
    (it need not answer the same request the same way twice). *)
Record Env : Type := mkEnv {
  documentTextDetection : path -> result (option (list Page));
  metadata : path -> result (number * number);
  readFileSync : path -> result Image.bytes;
  messagesCreate : nat -> list TextBlock -> Image.bytes -> string -> result jsstring;
  parse : Json.parser
}.

(** [callHaikuForOverlays], as the [call]-th request of the run: the parsed
    reply, or [None] for its [null]. *)
Definition callHaikuForOverlays (env : Env) (call : nat) (textBlocks : list TextBlock)
    (base64Image : Image.bytes) (mimeType : string) : result (option Json.t) :=
  responseText <- messagesCreate env call textBlocks base64Image mimeType ;;
  let fullJson := quoted "{`overlays`: [" ++ responseText in
  Repair.parseLeniently (parse env) fullJson.

Definition vertexAt (p : Paragraph) (i : nat) : result Vertex :=
  match nth_error (vertices p) i with
  | Some v => Ok v
  | None => Throw (Json.TypeError "cannot read properties of undefined")
  end.

(** The size filter: both dimensions below their minimum. *)
Definition tooSmall (width_percent height_percent : number) : bool :=
  (width_percent <? MIN_WIDTH_PERCENT) && (height_percent <? MIN_HEIGHT_PERCENT).

(** The body of the innermost loop of STEP 1: the block pushed for a
    paragraph, [None] when the paragraph is skipped. *)
Definition blockOf (imgWidth imgHeight : number) (index : nat) (paragraph : Paragraph)
    : result (option TextBlock) :=
  let text := List.concat (List.map (@List.concat jschar) (words paragraph)) in
  v0 <- vertexAt paragraph 0 ;;
  v2 <- vertexAt paragraph 2 ;;
  let x0 := orZero (x v0) in
  let y0 := orZero (y v0) in
  let x2 := orZero (x v2) in
  let y2 := orZero (y v2) in
  let width := x2 - x0 in
  let height := y2 - y0 in
  let width_percent := (width / imgWidth) * 100 in
  let height_percent := (height / imgHeight) * 100 in
  if tooSmall width_percent height_percent
  then Ok None
  else Ok (Some (mkTextBlock index text x0 y0 width height
                   ((x0 / imgWidth) * 100) ((y0 / imgHeight) * 100)
                   width_percent height_percent)).

Fixpoint extractTextBlocks (imgWidth imgHeight : number) (paragraphs : list Paragraph)
    (textBlocks : list TextBlock) : result (list TextBlock) :=
  match paragraphs with
  | [] => Ok textBlocks
  | paragraph :: rest =>
      b <- blockOf imgWidth imgHeight (List.length textBlocks) paragraph ;;
      match b with
      | None => extractTextBlocks imgWidth imgHeight rest textBlocks
      | Some block => extractTextBlocks imgWidth imgHeight rest (textBlocks ++ [block])
      end
  end.

(** The paragraphs in the order the three nested loops visit them. *)
Definition paragraphsOf (pages : list Page) : list Paragraph :=
  List.concat (List.concat pages).

(** [for (start = 0; start < textBlocks.length; start += BATCH_SIZE)]: the
    slices, as many as [fuel] allows. *)
Fixpoint batches (fuel : nat) (textBlocks : list TextBlock) : list (list TextBlock) :=
  match fuel with
  | O => []
  | S fuel' =>
      match textBlocks with
      | [] => []
      | _ => firstn BATCH_SIZE textBlocks :: batches fuel' (skipn BATCH_SIZE textBlocks)
      end
  end.

(** The values [...v] spreads: the items of an array, the characters of a
    string; anything else is not iterable. *)
Definition spread (v : Json.value) : result (list Json.t) :=
  match v with
  | Some (Json.JArr items) => Ok items
  | Some (Json.JStr s) => Ok (List.map (fun c => Json.JStr [c]) s)
  | _ => Throw (Json.TypeError "not iterable")
  end.

Fixpoint batchedOverlays (env : Env) (call : nat) (base64Image : Image.bytes)
    (mimeType : string) (bs : list (list TextBlock)) (allOverlays : list Json.t)
    : result (list Json.t) :=
  match bs with
  | [] => Ok allOverlays
  | batch :: rest =>
      batchResult <- callHaikuForOverlays env call batch base64Image mimeType ;;
      if Json.truthy batchResult
      then
        overlays <- Json.getProp batchResult "overlays" ;;
        items <- spread overlays ;;
        batchedOverlays env (S call) base64Image mimeType rest (allOverlays ++ items)
      else batchedOverlays env (S call) base64Image mimeType rest allOverlays
  end.

(** The receiver of [map] or [filter], which has to be an array. *)
Definition arrayOf (v : Json.value) : result (list Json.t) :=
  match v with
  | Some (Json.JArr items) => Ok items
  | _ => Throw (Json.TypeError "not a function")
  end.

(** [textBlocks[key]] for a key read from JSON: a number or a string that
    names an index.  A key that names an inherited property of arrays, or
    that is itself an array, is not modelled and reads [undefined]. *)
Fixpoint nthByNumber {A : Type} (l : list A) (i : nat) (n : number) : option A :=
  match l with
  | [] => None
  | a :: r => if ofNat i =? n then Some a else nthByNumber r (S i) n
  end.

Fixpoint nthByString {A : Type} (l : list A) (i : nat) (s : jsstring) : option A :=
  match l with
  | [] => None
  | a :: r => if streq (ofAscii (natToString i)) s then Some a else nthByString r (S i) s
  end.

Definition elementAt {A : Type} (l : list A) (key : Json.value) : option A :=
  match key with
  | Some (Json.JNum n) => nthByNumber l 0 n
  | Some (Json.JStr s) => nthByString l 0 s
  | _ => None
  end.

(** The callback of STEP 3: the overlay built for an item of the reply,
    [None] for its [null]. *)
Definition toOverlay (textBlocks : list TextBlock) (overlay : Json.t)
    : result (option Overlay.t) :=
  let o := Some overlay in
  idx <- Json.getProp o "index" ;;
  match elementAt textBlocks idx with
  | None => Ok None
  | Some textBlock =>
      c1 <- Json.getProp o "chinese" ;;
      c2 <- Json.getProp o "text" ;;
      c3 <- Json.getProp o "original" ;;
      e1 <- Json.getProp o "english" ;;
      e2 <- Json.getProp o "translation" ;;
      e3 <- Json.getProp o "translated" ;;
      let chinese :=
        Json.orElse c1 (Json.orElse c2 (Json.orElse c3 (Some (Json.JStr (text textBlock))))) in
      let english := Json.orElse e1 (Json.orElse e2 (Json.orElse e3 chinese)) in
      Ok (Some (Overlay.mk chinese english true
                  (Some (Overlay.mkPosition (x_percent textBlock) (y_percent textBlock)))
                  (Some (Overlay.mkSize (width_percent textBlock) (height_percent textBlock)))))
  end.

(** [items.map(toOverlay).filter(Boolean)]. *)
Fixpoint mapOverlays (textBlocks : list TextBlock) (items : list Json.t)
    : result (list Overlay.t) :=
  match items with
  | [] => Ok []
  | item :: rest =>
      o <- toOverlay textBlocks item ;;
      os <- mapOverlays textBlocks rest ;;
      Ok (match o with Some ov => ov :: os | None => os end)
  end.

(** The body of the [try] of analyzeImageWithGoogle. *)
Definition analyze (env : Env) (imagePath : path) : result (list Overlay.t) :=
  annotation <- documentTextDetection env imagePath ;;
  match annotation with
  | None => Ok []
  | Some [] => Ok []
  | Some pages =>
      dims <- metadata env imagePath ;;
      let (imgWidth, imgHeight) := dims in
      textBlocks <- extractTextBlocks imgWidth imgHeight (paragraphsOf pages) [] ;;
      match textBlocks with
      | [] => Ok []
      | _ =>
          imageBuffer <- readFileSync env imagePath ;;
          let mimeType := Image.detectMimeType imageBuffer in
          filteredOverlays <- callHaikuForOverlays env 0 textBlocks imageBuffer mimeType ;;
          items <-
            (if negb (Json.truthy filteredOverlays)
             then batchedOverlays env 1 imageBuffer mimeType
                    (batches (List.length textBlocks) textBlocks) []
             else (overlays <- Json.getProp filteredOverlays "overlays" ;;
                   arrayOf overlays)) ;;
          mapOverlays textBlocks items
      end
  end.

(** [analyzeImageWithGoogle]: the [try] with its [catch], which returns an
    empty list of overlays. *)
Definition analyzeImageWithGoogle (env : Env) (imagePath : path) : result (list Overlay.t) :=
  tryCatch (analyze env imagePath) (fun error => Ok []).

End GoogleVision.

(** ** analyze-with-claude.mjs: the classifier on its own *)

Module ClaudeVision.

Import JS Fs.

Record Env : Type := mkEnv {
  readFileSync : path -> result Image.bytes;
  messagesCreate : Image.bytes -> string -> result jsstring;
  parse : Json.parser
}.

Definition BACKQUOTE : jschar := 96%N.
Definition NEWLINE : jschar := 10%N.

Fixpoint startsWith (prefix s : jsstring) : bool :=
  match prefix, s with
  | [], _ => true
  | p :: prefix', c :: s' => N.eqb p c && startsWith prefix' s'
  | _ :: _, [] => false
  end.

Definition fence : jsstring := [BACKQUOTE; BACKQUOTE; BACKQUOTE].

(** The first [replace] of the fence stripping, anchored at the start: the
    three backquotes, an optional [json], and the white space after them. *)
Definition stripOpeningFence (s : jsstring) : jsstring :=
  if startsWith fence s
  then
    let s := skipn 3 s in
    let s := if startsWith (ofAscii "json") s then skipn 4 s else s in
    trimStart s
  else s.

(** [s] is three backquotes followed by white space only. *)
Definition isFenceTail (s : jsstring) : bool :=
  startsWith fence s && forallb isWhitespace (skipn 3 s).

(** The second [replace], anchored at the end: the text before the first
    place where an optional newline, the three backquotes and white space
    reach the end. *)
Fixpoint stripClosingFence (s : jsstring) : jsstring :=
  match s with
  | [] => []
  | c :: r =>
      if isFenceTail s || (N.eqb c NEWLINE && isFenceTail r)
      then []
      else c :: stripClosingFence r
  end.

Definition stripCodeFences (responseText : jsstring) : jsstring :=
  if startsWith fence responseText
  then stripClosingFence (stripOpeningFence responseText)
  else responseText.

Fixpoint contains (needle s : jsstring) : bool :=
  match s with
  | [] => match needle with [] => true | _ => false end
  | _ :: r => startsWith needle s || contains needle r
  end.

Fixpoint fromFirst (c : jschar) (s : jsstring) : option jsstring :=
  match s with
  | [] => None
  | d :: r => if N.eqb d c then Some s else fromFirst c r
  end.

(** [s.match(...)] for the pattern that is an opening brace, any text, the
    quoted [key], any text, a closing brace: the text from the first
    opening brace through the last closing brace, when the quoted key stands
    between the two. *)
Definition matchBraced (key : string) (s : jsstring) : option jsstring :=
  match fromFirst Repair.LBRACE s with
  | None => None
  | Some fromBrace =>
      match fromFirst Repair.RBRACE (rev (skipn 1 fromBrace)) with
      | None => None
      | Some revBody =>
          let inner := rev (skipn 1 revBody) in
          if contains (quoted ("`" ++ key ++ "`")) inner
          then Some (Repair.LBRACE :: rev revBody)
          else None
      end
  end.

(** [analysis.overlays.filter(o => o.isAuthorOverlay)]. *)
Fixpoint authorOverlays (items : list Json.t) : result (list Json.t) :=
  match items with
  | [] => Ok []
  | o :: rest =>
      flag <- Json.getProp (Some o) "isAuthorOverlay" ;;
      os <- authorOverlays rest ;;
      Ok (if Json.truthy flag then o :: os else os)
  end.

(** The body of the [try] of analyzeImageText. *)
Definition analyze (env : Env) (imagePath : path) : result (list Json.t) :=
  imageBuffer <- readFileSync env imagePath ;;
  let mimeType := Image.detectMimeType imageBuffer in
  reply <- messagesCreate env imageBuffer mimeType ;;
  let responseText := stripCodeFences (trim reply) in
  match matchBraced "overlays" responseText with
  | None => Ok []
  | Some jsonMatch =>
      parsed <- Repair.parseLeniently (parse env) jsonMatch ;;
      match parsed with
      | None => Ok []
      | Some analysis =>
          overlays <- Json.getProp (Some analysis) "overlays" ;;
          items <- GoogleVision.arrayOf overlays ;;
          authorOverlays items
      end
  end.

Definition analyzeImageText (env : Env) (imagePath : path) : result (list Json.t) :=
  tryCatch (analyze env imagePath) (fun error => Ok []).

End ClaudeVision.

(** ** validate-with-claude.mjs: checking an edited image *)

Module Validate.

Import JS Fs.
Local Open Scope float_scope.

(** The [reason] of a result: one of the three fixed texts, or what the
    model's reply holds under that key. *)
Inductive Reason : Type :=
| NoOverlaysToValidate
| ValidationInconclusive
| ValidationErrorAssumingSuccess
| Reported (reason : Json.value).

(** The object returned; [success] is kept by its truthiness, which is all
    its caller reads. *)
Record Validation : Type := mkValidation {
  success : bool;
  reason : Reason;
  quality_score : Json.value;
  untranslated : Json.value;
  missing : Json.value;
  gibberish : Json.value
}.

Definition assumed (r : Reason) : Validation :=
  mkValidation true r None None None None.

(** The services: the file read, the reply of the model to the request made
    for the image at a path, and the runtime's [JSON.parse] and number
    conversion. *)
Record Env : Type := mkEnv {
  readFileSync : path -> result Image.bytes;
  messagesCreate : path -> Image.bytes -> string -> list Overlay.t -> result jsstring;
  parse : Json.parser;
  convert : Json.t -> number
}.

(** [v.quality_score >= 80]. *)
Definition atLeast80 (env : Env) (v : Json.value) : bool :=
  geb (Json.toNumber (convert env) v) 80.

(** The verdict: [all_translated && quality_score >= 80 && !gibberish_detected]
    by its truthiness. *)
Definition verdict (env : Env) (all_translated quality gibberish_detected : Json.value) : bool :=
  Json.truthy all_translated && atLeast80 env quality && negb (Json.truthy gibberish_detected).

(** [list && list.length > 0] followed by [list.join(', ')], as the branch
    that logs a failed validation evaluates it: a non-empty string, or an
    object with a positive length, has no [join] to call. *)
Definition logged (env : Env) (list : Json.value) : result unit :=
  match list with
  | Some (Json.JStr (_ :: _)) => Throw (Json.TypeError "join is not a function")
  | Some (Json.JObj fields) =>
      if gtb (Json.toNumber (convert env) (Json.lookup (ofAscii "length") fields)) 0
      then Throw (Json.TypeError "join is not a function")
      else Ok tt
  | _ => Ok tt
  end.

(** [list || []]. *)
Definition orEmpty (list : Json.value) : Json.value :=
  Json.orElse list (Some (Json.JArr [])).

(** The body of the [try] of validateImageTranslation. *)
Definition validate (env : Env) (editedImagePath : path) (expectedOverlays : list Overlay.t)
    : result Validation :=
  imageBuffer <- readFileSync env editedImagePath ;;
  let mimeType := Image.detectMimeType imageBuffer in
  responseText <- messagesCreate env editedImagePath imageBuffer mimeType expectedOverlays ;;
  match ClaudeVision.matchBraced "all_translated" responseText with
  | None => Ok (assumed ValidationInconclusive)
  | Some jsonMatch =>
      parsed <- Json.JSON_parse (parse env) jsonMatch ;;
      let validation := Some parsed in
      all_translated <- Json.getProp validation "all_translated" ;;
      quality <- Json.getProp validation "quality_score" ;;
      gibberish_detected <- Json.getProp validation "gibberish_detected" ;;
      said <- Json.getProp validation "reason" ;;
      untranslated_chinese <- Json.getProp validation "untranslated_chinese" ;;
      missing_english <- Json.getProp validation "missing_english" ;;
      let success := verdict env all_translated quality gibberish_detected in
      _ <- (if success then Ok tt
            else (_ <- logged env untranslated_chinese ;; logged env missing_english)) ;;
      Ok (mkValidation success (Reported said) quality
            (orEmpty untranslated_chinese) (orEmpty missing_english) gibberish_detected)
  end.

Definition validateImageTranslation (env : Env) (editedImagePath : path)
    (expectedOverlays : list Overlay.t) : result Validation :=
  match expectedOverlays with
  | [] => Ok (assumed NoOverlaysToValidate)
  | _ =>
      tryCatch (validate env editedImagePath expectedOverlays)
        (fun error => Ok (assumed ValidationErrorAssumingSuccess))
  end.

End Validate.

(** ** edit-with-qwen.mjs: the generative edit *)

Module QwenEdit.

Import JS Fs.

(** The reply of the edit service: [choices] is [result.choices] ([None]
    when the output or its choices are absent), each choice given by the
    image URL its content holds, if any. *)
Record Reply : Type := mkReply { choices : option (list (option string)) }.

(** The services; the request whose image is to be saved at [outputPath] is
    told apart by that path. *)
Record Env : Type := mkEnv {
  QWEN_API_KEY : option string;
  readFileSync : path -> result Image.bytes;
  post : path -> Image.bytes -> list Overlay.t -> result Reply;
  get : string -> result Image.bytes;
  writeFileSync : path -> Image.bytes -> result unit
}.

Definition keyMissing (env : Env) : bool :=
  match QWEN_API_KEY env with
  | None => true
  | Some k => negb (truthyString k) || String.prefix "your-" k
  end.

(** The body of the [try] of editImageWithQwen. *)
Definition edit (env : Env) (fs : FS) (imagePath : path) (overlays : list Overlay.t)
    (outputPath : path) : result path * FS :=
  match readFileSync env imagePath with
  | Throw e => (Throw e, fs)
  | Ok imageBuffer =>
      match post env outputPath imageBuffer overlays with
      | Throw e => (Throw e, fs)
      | Ok reply =>
          match choices reply with
          | None => (Ok imagePath, fs)
          | Some [] => (Ok imagePath, fs)
          | Some (first :: _) =>
              match first with
              | None => (Ok imagePath, fs)
              | Some imageUrl =>
                  if negb (truthyString imageUrl) then (Ok imagePath, fs)
                  else
                    match get env imageUrl with
                    | Throw e => (Throw e, fs)
                    | Ok imageData =>
                        match writeFileSync env outputPath imageData with
                        | Throw e => (Throw e, fs)
                        | Ok _ => (Ok outputPath, write outputPath fs)
                        end
                    end
              end
          end
      end
  end.

Definition editImageWithQwen (env : Env) (fs : FS) (imagePath : path)
    (overlays : list Overlay.t) (outputPath : path) : path * FS :=
  if keyMissing env then (imagePath, fs)
  else match overlays with
       | [] => (imagePath, fs)
       | _ =>
           match edit env fs imagePath overlays outputPath with
           | (Ok p, fs) => (p, fs)
           | (Throw _, fs) => (imagePath, fs)
           end
       end.

End QwenEdit.

(** ** simple-text-overlay.mjs: the deterministic compositor *)

Module TextOverlay.

Import JS Fs.
Local Open Scope float_scope.

Definition MIN_FONT : number := 10.
Definition padding : number := 8.

(** sharp and the canvas: the image's width and height, the creation of a
    canvas, the width of a text set in bold Arial at a size, and the write of
    the composite. *)
Record Env : Type := mkEnv {
  metadata : path -> result (number * number);
  createCanvas : number -> number -> result unit;
  measureText : number -> jsstring -> number;
  toFile : path -> path -> result unit
}.

(** What is drawn on the overlay layer. *)
Inductive DrawOp : Type :=
| FillRect (x y w h : number)
| FillText (line : jsstring) (x y maxWidth fontSize : number).

(** The integer part of [Math.floor] for a finite number with a fraction. *)
Definition floorZ (x : number) : Z :=
  match Prim2SF x with
  | S754_finite s m (Zneg p) =>
      let d := Zpos (Pos.pow 2 p) in
      if s then (- ((Zpos m + d - 1) / d))%Z else (Zpos m / d)%Z
  | S754_finite s m (Zpos p) =>
      let v := (Zpos m * Zpos (Pos.pow 2 p))%Z in if s then (- v)%Z else v
  | S754_finite s m Z0 => if s then Zneg m else Zpos m
  | _ => 0%Z
  end.

(** [Math.floor]. *)
Definition floor (x : number) : number :=
  match Prim2SF x with
  | S754_finite _ _ (Zneg _) => ofZ (floorZ x)
  | _ => x
  end.

(** [Math.max] of two numbers. *)
Definition max (a b : number) : number :=
  if PrimFloat.is_nan a || PrimFloat.is_nan b then nan
  else if a <? b then b else a.

(** [text.split(' ')]. *)
Fixpoint splitOn (sep : jschar) (cur : jsstring) (s : jsstring) : list jsstring :=
  match s with
  | [] => [cur]
  | c :: r => if N.eqb c sep then cur :: splitOn sep [] r else splitOn sep (cur ++ [c]) r
  end.

Definition split (sep : jschar) (s : jsstring) : list jsstring := splitOn sep [] s.

Definition truthyText (s : jsstring) : bool :=
  match s with [] => false | _ => true end.

(** The [forEach] of wordWrap and the push that follows it. *)
Fixpoint wrapWords (measure : jsstring -> number) (maxWidth : number)
    (words : list jsstring) (cur : jsstring) (wrapped : list jsstring) : list jsstring :=
  match words with
  | [] => if truthyText cur then wrapped ++ [cur] else wrapped
  | w :: rest =>
      let test := if truthyText cur then cur ++ [Repair.SPACE] ++ w else w in
      if gtb (measure test) maxWidth && truthyText cur
      then wrapWords measure maxWidth rest w (wrapped ++ [cur])
      else wrapWords measure maxWidth rest test wrapped
  end.

Definition wordWrap (env : Env) (text : jsstring) (maxWidth : number) (size : number)
    : list jsstring :=
  wrapWords (measureText env size) maxWidth (split Repair.SPACE text) [] [].

Definition lineHeightOf (fontSize : number) : number := fontSize * 1.2.

(** The condition of the shrinking loop. *)
Definition overflows (boxHeight : number) (st : number * list jsstring) : bool :=
  let (fontSize, lines) := st in
  gtb (ofNat (List.length lines) * lineHeightOf fontSize) boxHeight && gtb fontSize MIN_FONT.

(** One turn of the loop, when its condition holds. *)
Definition shrink (env : Env) (text : jsstring) (maxWidth boxHeight : number)
    (st : number * list jsstring) : number * list jsstring :=
  if overflows boxHeight st
  then let fontSize := fst st - 1 in (fontSize, wordWrap env text maxWidth fontSize)
  else st.

(** The font auto-shrink: the size and the lines the loop ends with.  A font
    size below 2^53 reaches MIN_FONT within [fontSize - MIN_FONT] turns; the
    loop never ends ([None]) when taking 1 off the size leaves it unchanged
    and the text keeps overflowing. *)
Definition fitText (env : Env) (text : jsstring) (boxWidth boxHeight : number)
    : option (number * list jsstring) :=
  let maxWidth := boxWidth - (padding * 2) in
  let fontSize := max MIN_FONT (floor (boxHeight * 0.5)) in
  let st := N.iter (Z.to_N (floorZ fontSize - 10))
              (shrink env text maxWidth boxHeight)
              (fontSize, wordWrap env text maxWidth fontSize) in
  if overflows boxHeight st then None else Some st.

Fixpoint fillLines (lines : list jsstring) (lineIndex : nat)
    (x startY lineHeight maxWidth fontSize : number) : list DrawOp :=
  match lines with
  | [] => []
  | line :: rest =>
      FillText line (x + padding) (startY + ofNat lineIndex * lineHeight) maxWidth fontSize
        :: fillLines rest (S lineIndex) x startY lineHeight maxWidth fontSize
  end.

(** The callback of [overlays.forEach]: what it draws for [overlays[index]];
    [None] when it never ends. *)
Definition drawOverlay (env : Env) (width height : number) (index : nat)
    (overlay : Overlay.t) : option (result (list DrawOp)) :=
  let position := match Overlay.position overlay with
                  | Some p => p
                  | None => Overlay.mkPosition 10 (10 + ofNat index * 15)
                  end in
  let size := match Overlay.size overlay with
              | Some s => s
              | None => Overlay.mkSize 80 10
              end in
  let x := floor ((Overlay.x_percent position / 100) * width) in
  let y := floor ((Overlay.y_percent position / 100) * height) in
  let boxWidth := floor ((Overlay.width_percent size / 100) * width) in
  let boxHeight := floor ((Overlay.height_percent size / 100) * height) in
  if (boxWidth <=? 0) || (boxHeight <=? 0) then Some (Ok [])
  else
    match Overlay.english overlay with
    | Some (Json.JStr text) =>
        match fitText env text boxWidth boxHeight with
        | None => None
        | Some (fontSize, lines) =>
            let maxWidth := boxWidth - (padding * 2) in
            let lineHeight := lineHeightOf fontSize in
            let totalTextHeight := ofNat (List.length lines) * lineHeight in
            let startY := y + (boxHeight - totalTextHeight) / 2 in
            Some (Ok (FillRect x y boxWidth boxHeight
                        :: fillLines lines 0 x startY lineHeight maxWidth fontSize))
        end
    | _ => Some (Throw (Json.TypeError "text.split is not a function"))
    end.

Fixpoint drawOverlays (env : Env) (width height : number) (index : nat)
    (overlays : list Overlay.t) : option (result (list DrawOp)) :=
  match overlays with
  | [] => Some (Ok [])
  | overlay :: rest =>
      match drawOverlay env width height index overlay with
      | None => None
      | Some (Throw e) => Some (Throw e)
      | Some (Ok ops) =>
          match drawOverlays env width height (S index) rest with
          | None => None
          | Some (Throw e) => Some (Throw e)
          | Some (Ok more) => Some (Ok (ops ++ more))
          end
      end
  end.

(** The body of the [try] of overlayTranslatedText. *)
Definition composite (env : Env) (fs : FS) (imagePath : path) (overlays : list Overlay.t)
    (outputPath : path) : option (result path * FS) :=
  if negb (truthyString imagePath) then Some (Throw (newError "imagePath is required"), fs)
  else if negb (truthyString outputPath) then Some (Throw (newError "outputPath is required"), fs)
  else
    match overlays with
    | [] => Some (Throw (newError "overlays array is required and must not be empty"), fs)
    | _ =>
        match metadata env imagePath with
        | Throw e => Some (Throw e, fs)
        | Ok (width, height) =>
            match createCanvas env width height with
            | Throw e => Some (Throw e, fs)
            | Ok _ =>
                match drawOverlays env width height 0 overlays with
                | None => None
                | Some (Throw e) => Some (Throw e, fs)
                | Some (Ok _) =>
                    match toFile env imagePath outputPath with
                    | Throw e => Some (Throw e, fs)
                    | Ok _ => Some (Ok outputPath, write outputPath fs)
                    end
                end
            end
        end
    end.

(** [overlayTranslatedText]: the path of the composite, or, from its
    [catch], the path of the original image. *)
Definition overlayTranslatedText (env : Env) (fs : FS) (imagePath : path)
    (overlays : list Overlay.t) (outputPath : path) : option (path * FS) :=
  match composite env fs imagePath overlays outputPath with
  | None => None
  | Some (Ok p, fs) => Some (p, fs)
  | Some (Throw _, fs) => Some (imagePath, fs)
  end.

End TextOverlay.

(** ** process-xhs-posts.mjs: choosing the final image of an item *)

Module ProcessPosts.

Import JS Fs.

Definition OVERLAY_THRESHOLD : nat := 5.

Record Env : Type := mkEnv {
  vision : GoogleVision.Env;
  qwen : QwenEdit.Env;
  validator : Validate.Env;
  compositor : TextOverlay.Env
}.

(** [await overlayTranslatedText(localImagePath, overlays, overlayPath)]. *)
Definition overlayFallback (env : Env) (fs : FS) (localImagePath : path)
    (overlays : list Overlay.t) (overlayPath : path) : option (result path * FS) :=
  match TextOverlay.overlayTranslatedText (compositor env) fs localImagePath overlays overlayPath with
  | None => None
  | Some (p, fs) => Some (Ok p, fs)
  end.

(** [translatedPath !== localImagePath && fs.existsSync(translatedPath)]. *)
Definition producedNewFile (fs : FS) (translatedPath localImagePath : path) : bool :=
  negb (String.eqb translatedPath localImagePath) && existsSync fs translatedPath.

(** STEP A and STEP B of the loop of uploadAllImagesToSupabase: the value of
    [finalImagePath] for one image file; [None] when the step never ends. *)
Definition finalImagePath (env : Env) (fs : FS) (imageFolderPath : path)
    (imageFile : string) : option (result path * FS) :=
  let localImagePath := join imageFolderPath imageFile in
  let overlayPath := join imageFolderPath ("overlay-" ++ imageFile) in
  match GoogleVision.analyzeImageWithGoogle (vision env) localImagePath with
  | Throw e => Some (Throw e, fs)
  | Ok overlays =>
      let overlayCount := List.length overlays in
      if Nat.ltb OVERLAY_THRESHOLD overlayCount
      then overlayFallback env fs localImagePath overlays overlayPath
      else if Nat.ltb 0 overlayCount
      then
        let editedPath := join imageFolderPath ("edited-" ++ imageFile) in
        let (translatedPath, fs) :=
          QwenEdit.editImageWithQwen (qwen env) fs localImagePath overlays editedPath in
        if producedNewFile fs translatedPath localImagePath
        then
          match Validate.validateImageTranslation (validator env) translatedPath overlays with
          | Throw e => Some (Throw e, fs)
          | Ok validation =>
              if negb (Validate.success validation)
              then
                let retryPath := join imageFolderPath ("retry-" ++ imageFile) in
                let (translatedPath, fs) :=
                  QwenEdit.editImageWithQwen (qwen env) fs localImagePath overlays retryPath in
                if producedNewFile fs translatedPath localImagePath
                then
                  match Validate.validateImageTranslation (validator env) translatedPath overlays with
                  | Throw e => Some (Throw e, fs)
                  | Ok retryValidation =>
                      if negb (Validate.success retryValidation)
                      then overlayFallback env fs localImagePath overlays overlayPath
                      else Some (Ok translatedPath, fs)
                  end
                else overlayFallback env fs localImagePath overlays overlayPath
              else Some (Ok translatedPath, fs)
          end
        else overlayFallback env fs localImagePath overlays overlayPath
      else Some (Ok localImagePath, fs)
  end.

End ProcessPosts.

(** ** extract-audio.mjs: the audio of a video *)

Module ExtractAudio.

Import JS Fs.
Local Open Scope float_scope.

(** What ffprobe reports of a file, as far as the code reads it. *)
Record Stream : Type := mkStream { codec_type : string; codec_name : option string }.

Record Metadata : Type := mkMetadata {
  formatDuration : option number;
  streams : list Stream
}.

Record VideoInfo : Type := mkVideoInfo { duration : number; audioCodec : option string }.

(** An ffmpeg job that takes the audio of [input], without the video. *)
Record Job : Type := mkJob {
  input : path;
  codec : string;
  bitrate : option string;
  channels : nat;
  frequency : N;
  output : path
}.

(** How an ffmpeg job goes: it ends, its output written, or it fails with a
    message, and may have left a part of its output behind. *)
Inductive Outcome : Type :=
| Ended
| Failed (msg : string) (partialOutput : bool).

Record Env : Type := mkEnv {
  ffprobe : path -> result Metadata;
  ffmpeg : Job -> Outcome
}.

Definition getVideoInfo (env : Env) (videoPath : path) : result VideoInfo :=
  match ffprobe env videoPath with
  | Throw err => Throw (newError ("Could not read video info: " ++ message err))
  | Ok metadata =>
      let duration := orZero (formatDuration metadata) in
      match List.find (fun s => String.eqb (codec_type s) "audio") (streams metadata) with
      | None => Throw (newError "No audio stream found in video — is this a silent video?")
      | Some audioStream => Ok (mkVideoInfo duration (codec_name audioStream))
      end
  end.

(** The files on disk after a job that was to write [outputPath]. *)
Definition after (outcome : Outcome) (outputPath : path) (fs : FS) : FS :=
  match outcome with
  | Ended => write outputPath fs
  | Failed _ true => write outputPath fs
  | Failed _ false => fs
  end.

(** [extractAudio]: 16 kHz mono MP3 for the transcription; it returns the
    path of the audio and the duration of the video.  On an ffmpeg error the
    output is removed if it is there. *)
Definition extractAudio (env : Env) (fs : FS) (videoPath outputPath : path)
    : result (path * number) * FS :=
  if negb (existsSync fs videoPath)
  then (Throw (newError ("Video file not found: " ++ videoPath)), fs)
  else
    match getVideoInfo env videoPath with
    | Throw e => (Throw e, fs)
    | Ok videoInfo =>
        let outcome := ffmpeg env (mkJob videoPath "libmp3lame" (Some "128k"%string) 1 16000%N outputPath) in
        let fs := after outcome outputPath fs in
        match outcome with
        | Ended => (Ok (outputPath, duration videoInfo), fs)
        | Failed msg _ =>
            let fs := if existsSync fs outputPath then unlink outputPath fs else fs in
            (Throw (newError ("Audio extraction failed: " ++ msg)), fs)
        end
    end.

(** [extractHighQualityAudio]: 44.1 kHz stereo WAV for the separation; no
    probe, and nothing is removed on an error. *)
Definition extractHighQualityAudio (env : Env) (fs : FS) (videoPath outputPath : path)
    : result path * FS :=
  if negb (existsSync fs videoPath)
  then (Throw (newError ("Video file not found: " ++ videoPath)), fs)
  else
    let outcome := ffmpeg env (mkJob videoPath "pcm_s16le" None 2 44100%N outputPath) in
    let fs := after outcome outputPath fs in
    match outcome with
    | Ended => (Ok outputPath, fs)
    | Failed msg _ =>
        (Throw (newError ("High-quality audio extraction failed: " ++ msg)), fs)
    end.

End ExtractAudio.

(** ** separate-audio.mjs: the background track, by Demucs *)

Module SeparateAudio.

Import JS Fs.

(** The error [exec] hands to its callback: its [code], when that is a
    number, and its message. *)
Record ExecError : Type := mkExecError { code : option Z; execMessage : string }.

(** The run of the Demucs command for an audio file and an output
    directory: the error and the text of stderr, and the files it wrote.
    [stem p] is [path.basename(p, path.extname(p))]. *)
Record Env : Type := mkEnv {
  exec : path -> path -> option ExecError * string * list path;
  stem : path -> string
}.

(** [runCommand]: it rejects on an error whose code is not 0.  The message
    is cut to its last line. *)
Definition runCommand (error : option ExecError) (stderr : string) : result unit :=
  match error with
  | None => Ok tt
  | Some err =>
      match code err with
      | Some 0%Z => Ok tt
      | _ =>
          Throw (newError ("Error: " ++ (if truthyString stderr then stderr else execMessage err)))
      end
  end.

Definition separateAudio (env : Env) (fs : FS) (audioPath outputDir : path)
    : result path * FS :=
  let '(error, stderr, written) := exec env outputDir audioPath in
  let fs := (written ++ fs)%list in
  match runCommand error stderr with
  | Throw e => (Throw e, fs)
  | Ok _ =>
      let baseName := stem env audioPath in
      let accompanimentPath := join (join (join outputDir "htdemucs") baseName) "no_vocals.mp3" in
      if negb (existsSync fs accompanimentPath)
      then (Throw (newError ("Demucs ran but no_vocals.mp3 not found at: " ++ accompanimentPath)), fs)
      else (Ok accompanimentPath, fs)
  end.

End SeparateAudio.

(** ** replace-audio.mjs: the dubbed track into the video *)

Module ReplaceAudio.

Import JS Fs.

(** The two ffmpeg commands: the dubbed track alone, with [-shortest]; or
    the dubbed track mixed over the accompaniment at half volume, with
    [amix=inputs=2:duration=longest]. *)
Inductive Mux : Type :=
| Replace (video audio output : path)
| MixWithBackground (video accompaniment audio output : path).

Record Env : Type := mkEnv {
  ffmpeg : Mux -> ExtractAudio.Outcome
}.

Definition replaceAudioTrack (env : Env) (fs : FS) (videoPath audioPath outputPath : path)
    (accompanimentPath : option path) : result path * FS :=
  if negb (existsSync fs videoPath)
  then (Throw (newError ("Video file not found: " ++ videoPath)), fs)
  else if negb (existsSync fs audioPath)
  then (Throw (newError ("Audio file not found: " ++ audioPath)), fs)
  else
    match accompanimentPath with
    | Some accompaniment =>
        if truthyString accompaniment && negb (existsSync fs accompaniment)
        then (Throw (newError ("Accompaniment file not found: " ++ accompaniment)), fs)
        else
          let job := if truthyString accompaniment
                     then MixWithBackground videoPath accompaniment audioPath outputPath
                     else Replace videoPath audioPath outputPath in
          let outcome := ffmpeg env job in
          let fs := ExtractAudio.after outcome outputPath fs in
          match outcome with
          | ExtractAudio.Ended => (Ok outputPath, fs)
          | ExtractAudio.Failed msg _ =>
              (Throw (newError ("Audio replacement failed: " ++ msg)), fs)
          end
    | None =>
        let outcome := ffmpeg env (Replace videoPath audioPath outputPath) in
        let fs := ExtractAudio.after outcome outputPath fs in
        match outcome with
        | ExtractAudio.Ended => (Ok outputPath, fs)
        | ExtractAudio.Failed msg _ =>
            (Throw (newError ("Audio replacement failed: " ++ msg)), fs)
        end
    end.

End ReplaceAudio.

(** ** dub-video.mjs: the stages in a row *)

Module DubVideo.

Import JS Fs.
Local Open Scope float_scope.

Definition VOICE : string := "21m00Tcm4TlvDq8ikWAM".

(** The services of all the stages.  The transcription and the translation
    read the same API key of the process. *)
Record Env : Type := mkEnv {
  OPENAI_API_KEY : option string;
  fileSize : path -> Z;
  create : nat -> result Transcribe.Response;
  chat : nat -> jsstring -> number -> result jsstring;
  extract : ExtractAudio.Env;
  isDemucsInstalled : bool;
  separate : SeparateAudio.Env;
  speech : TextToSpeech.Env;
  sync : SyncAudio.Env;
  assemble : AssembleAudio.Env;
  mux : ReplaceAudio.Env
}.

Definition transcriber (env : Env) : Transcribe.Env :=
  Transcribe.mkEnv (OPENAI_API_KEY env) (fileSize env) (create env).

Definition translator (env : Env) : TranslateSegments.Env :=
  TranslateSegments.mkEnv (OPENAI_API_KEY env) (chat env).

Record Dubbed : Type := mkDubbed {
  dubbedVideoPath : path;
  cost : number;
  duration : number;
  segments : nat;
  backgroundAudio : bool
}.

(** Part 1B: the accompaniment, when Demucs is there; [None] is the [null]
    the variable starts with. *)
Definition background (env : Env) (fs : FS) (videoPath outputDir : path)
    : result (option path) * FS :=
  if isDemucsInstalled env
  then
    let hqAudioPath := join outputDir "audio-hq.wav" in
    match ExtractAudio.extractHighQualityAudio (extract env) fs videoPath hqAudioPath with
    | (Throw e, fs) => (Throw e, fs)
    | (Ok _, fs) =>
        match SeparateAudio.separateAudio (separate env) fs hqAudioPath (join outputDir "demucs") with
        | (Throw e, fs) => (Throw e, fs)
        | (Ok accompanimentPath, fs) => (Ok (Some accompanimentPath), fs)
        end
    end
  else (Ok None, fs).

(** What Parts 2 to 5 hand on: the transcription, the translated segments
    and the synced ones. *)
Record Timeline : Type := mkTimeline {
  transcription : Transcribe.Transcription;
  translatedSegments : list Segment.t;
  syncedSegments : list Segment.t
}.

(** Parts 2 to 5: transcribe, translate, speak, sync. *)
Definition speechTimeline (env : Env) (fs : FS) (audioPath outputDir : path)
    : option (result Timeline * FS) :=
  match fst (Transcribe.transcribeAudio (transcriber env) fs audioPath) with
  | Throw e => Some (Throw e, fs)
  | Ok transcribed =>
      match Transcribe.segments transcribed with
      | [] =>
          Some (Throw (newError
            "No speech segments found in video — may be a silent or music-only video"), fs)
      | transcribedSegments =>
          match TranslateSegments.translateSegments (translator env) transcribedSegments with
          | Throw e => Some (Throw e, fs)
          | Ok translated =>
              match TextToSpeech.generateAllSegments (speech env) fs translated
                      (join outputDir "audio-segments") VOICE with
              | (Throw e, fs) => Some (Throw e, fs)
              | (Ok audioSegments, fs) =>
                  match SyncAudio.syncAudioTiming (sync env) fs audioSegments
                          (join outputDir "synced-audio") with
                  | None => None
                  | Some (Throw e, fs) => Some (Throw e, fs)
                  | Some (Ok synced, fs) =>
                      Some (Ok (mkTimeline transcribed translated synced), fs)
                  end
              end
          end
      end
  end.

(** [totalChars]: the lengths of the translations, added up. *)
Definition totalChars (translated : list Segment.t) : nat :=
  fold_left (fun sum seg => (sum + List.length (Segment.english seg))%nat) translated 0%nat.

(** The value of [totalCost] at the end. *)
Definition totalCost (timeline : Timeline) : number :=
  0 + Transcribe.cost (transcription timeline)
  + ofNat (totalChars (translatedSegments timeline)) * 0.0001.

(** [dubVideo]; [None] when it never ends. *)
Definition dubVideo (env : Env) (fs : FS) (videoPath outputDir : path)
    : option (result Dubbed * FS) :=
  if negb (existsSync fs videoPath)
  then Some (Throw (newError ("Video not found: " ++ videoPath)), fs)
  else
    match ExtractAudio.extractAudio (extract env) fs videoPath
            (join outputDir "audio-whisper.mp3") with
    | (Throw e, fs) => Some (Throw e, fs)
    | (Ok (audioPath, videoDuration), fs) =>
        match background env fs videoPath outputDir with
        | (Throw e, fs) => Some (Throw e, fs)
        | (Ok accompanimentPath, fs) =>
            match speechTimeline env fs audioPath outputDir with
            | None => None
            | Some (Throw e, fs) => Some (Throw e, fs)
            | Some (Ok timeline, fs) =>
                let assembledAudioPath := join outputDir "dubbed-audio.mp3" in
                match AssembleAudio.assembleAudioTrack (assemble env) fs
                        (syncedSegments timeline) assembledAudioPath videoDuration with
                | (Throw e, fs) => Some (Throw e, fs)
                | (Ok _, fs) =>
                    let dubbedVideoPath := join (join outputDir "final") "dubbed-video.mp4" in
                    match ReplaceAudio.replaceAudioTrack (mux env) fs videoPath
                            assembledAudioPath dubbedVideoPath accompanimentPath with
                    | (Throw e, fs) => Some (Throw e, fs)
                    | (Ok _, fs) =>
                        Some (Ok (mkDubbed dubbedVideoPath (totalCost timeline) videoDuration
                                    (List.length (Transcribe.segments (transcription timeline)))
                                    (Segment.truthyPath accompanimentPath)), fs)
                    end
                end
            end
        end
    end.

End DubVideo.

(** ** process-xhs-posts.mjs: the images of a post, from the folder to the bucket *)

Module UploadImages.

Import JS Fs.
Local Open Scope string_scope.

(** The services: the listing of a folder, the file read, the clock at the
    upload of the image of a given index, the upload to the bucket, which
    resolves to the [error] of its result when it has one, and the public
    URL of an uploaded name. *)
Record Env : Type := mkEnv {
  pipeline : ProcessPosts.Env;
  readdirSync : path -> result (list string);
  readFileSync : path -> result Image.bytes;
  now : nat -> nat;
  upload : string -> Image.bytes -> string -> result (option Error);
  getPublicUrl : string -> result string
}.

(** The lower-case letter of an upper-case ASCII letter. *)
Definition lowerCase (c : ascii) : ascii :=
  let n := nat_of_ascii c in
  if Nat.leb 65 n && Nat.leb n 90 then ascii_of_nat (n + 32) else c.

Fixpoint toLowerCase (s : string) : string :=
  match s with
  | EmptyString => EmptyString
  | String c r => String (lowerCase c) (toLowerCase r)
  end.

Definition endsWith (suffix s : string) : bool :=
  Nat.leb (String.length suffix) (String.length s)
  && String.eqb (substring (String.length s - String.length suffix) (String.length suffix) s)
       suffix.

(** The test of the first filter: a dot and one of the four extensions at
    the end of the name, in either case of the letters. *)
Definition hasImageExtension (file : string) : bool :=
  existsb (fun ext => endsWith ext (toLowerCase file)) [".jpg"; ".jpeg"; ".png"; ".webp"].

(** The test of the second filter. *)
Definition notDerived (file : string) : bool :=
  negb (String.prefix "edited-" file) && negb (String.prefix "retry-" file)
  && negb (String.prefix "overlay-" file).

(** [Array.prototype.sort] without a comparator, on names: by insertion,
    names compared character by character. *)
Fixpoint insert (name : string) (sorted : list string) : list string :=
  match sorted with
  | [] => [name]
  | other :: rest =>
      if String.leb name other then name :: sorted else other :: insert name rest
  end.

Definition sort (names : list string) : list string := fold_right insert [] names.

(** [imageFiles], of the entries of the folder. *)
Definition selectImageFiles (entries : list string) : list string :=
  sort (List.filter notDerived (List.filter hasImageExtension entries)).

Fixpoint fromLastDot (s : string) : option string :=
  match s with
  | EmptyString => None
  | String c r =>
      match fromLastDot r with
      | Some e => Some e
      | None => if Ascii.eqb c "." then Some s else None
      end
  end.

(** [path.extname] of the name of a directory entry, which holds no slash:
    the name from its last dot on, empty when the name has no dot but in
    first place, and for the name of two dots. *)
Definition extname (name : string) : string :=
  match name with
  | EmptyString => ""
  | String _ r =>
      if String.eqb name ".." then ""
      else match fromLastDot r with
           | Some e => e
           | None => ""
           end
  end.

(** [s.slice(1)]. *)
Definition slice1 (s : string) : string :=
  match s with
  | EmptyString => ""
  | String _ r => r
  end.

(** [path.extname(imageFile).slice(1) || 'jpg']. *)
Definition fileExtOf (imageFile : string) : string :=
  let ext := slice1 (extname imageFile) in
  if truthyString ext then ext else "jpg".

(** The name under which the image of index [i] is uploaded. *)
Definition fileNameOf (env : Env) (noteId : string) (i : nat) (imageFile : string) : string :=
  noteId ++ "-" ++ natToString i ++ "-" ++ natToString (now env i) ++ "." ++ fileExtOf imageFile.

(** The [for] loop over the image files, from index [i] on; [None] when the
    choice of a final image never ends. *)
Fixpoint uploadLoop (env : Env) (fs : FS) (noteId : string) (imageFolderPath : path)
    (i : nat) (imageFiles : list string) (uploadedUrls : list string)
    : option (result (list string) * FS) :=
  match imageFiles with
  | [] => Some (Ok uploadedUrls, fs)
  | imageFile :: rest =>
      match ProcessPosts.finalImagePath (pipeline env) fs imageFolderPath imageFile with
      | None => None
      | Some (Throw e, fs) => Some (Throw e, fs)
      | Some (Ok finalImagePath, fs) =>
          match readFileSync env finalImagePath with
          | Throw e => Some (Throw e, fs)
          | Ok buffer =>
              let fileExt := fileExtOf imageFile in
              let fileName := fileNameOf env noteId i imageFile in
              match upload env fileName buffer ("image/" ++ fileExt) with
              | Throw e => Some (Throw e, fs)
              | Ok (Some error) =>
                  uploadLoop env fs noteId imageFolderPath (S i) rest uploadedUrls
              | Ok None =>
                  match getPublicUrl env fileName with
                  | Throw e => Some (Throw e, fs)
                  | Ok publicUrl =>
                      uploadLoop env fs noteId imageFolderPath (S i) rest
                        (uploadedUrls ++ [publicUrl])
                  end
              end
          end
      end
  end.

(** The body of the [try] of uploadAllImagesToSupabase. *)
Definition uploadAll (env : Env) (fs : FS) (noteId : string) (scraperImagesDir : path)
    : option (result (list string) * FS) :=
  let imageFolderPath := join scraperImagesDir noteId in
  if negb (existsSync fs imageFolderPath)
  then Some (Throw (newError ("Image folder not found: " ++ imageFolderPath)), fs)
  else
    match readdirSync env imageFolderPath with
    | Throw e => Some (Throw e, fs)
    | Ok entries =>
        match selectImageFiles entries with
        | [] => Some (Throw (newError "No image files found in folder"), fs)
        | imageFiles =>
            match uploadLoop env fs noteId imageFolderPath 0 imageFiles [] with
            | None => None
            | Some (Throw e, fs) => Some (Throw e, fs)
            | Some (Ok [], fs) => Some (Throw (newError "All image uploads failed"), fs)
            | Some (Ok uploadedUrls, fs) => Some (Ok uploadedUrls, fs)
            end
        end
    end.

(** [uploadAllImagesToSupabase]: the URLs, or, from its [catch], none. *)
Definition uploadAllImagesToSupabase (env : Env) (fs : FS) (noteId : string)
    (scraperImagesDir : path) : option (list string * FS) :=
  match uploadAll env fs noteId scraperImagesDir with
  | None => None
  | Some (Ok uploadedUrls, fs) => Some (uploadedUrls, fs)
  | Some (Throw _, fs) => Some ([], fs)
  end.

End UploadImages.

(** ** process-xhs-posts.mjs: reading the JSON of a reply *)

Module ParseJson.

Import JS.

(** [parseJsonResponse]: the text trimmed, its code fence taken off when it
    starts with one, and parsed. *)
Definition parseJsonResponse (parse : Json.parser) (text : jsstring) : result Json.t :=
  let clean := trim text in
  let clean :=
    if ClaudeVision.startsWith ClaudeVision.fence clean
    then ClaudeVision.stripClosingFence (ClaudeVision.stripOpeningFence clean)
    else clean in
  Json.JSON_parse parse clean.

End ParseJson.

(** ** process-xhs-posts.mjs: from the scraped posts to the results *)

Module Main.

Import JS Fs.
Local Open Scope float_scope.

Definition COMMA : jschar := 44%N.

(** A post as the loops of main see it: the properties of the scraped
    object, as normalizePost left them, and the two the loader adds. *)
Record Post : Type := mkPost {
  fields : list (jsstring * Json.t);
  _platform : string;
  _scraperImagesDir : path
}.

(** [post.key] for a key of the scraped object. *)
Definition get (post : Post) (key : string) : Json.value :=
  Json.lookup (ofAscii key) (fields post).

Fixpoint indexedFrom (i : nat) (items : list Json.t) : list (jsstring * Json.t) :=
  match items with
  | [] => []
  | v :: rest => (ofAscii (natToString i), v) :: indexedFrom (S i) rest
  end.

(** The properties [...v] copies into an object literal. *)
Definition spread (v : Json.t) : list (jsstring * Json.t) :=
  match v with
  | Json.JObj fields => fields
  | Json.JArr items => indexedFrom 0 items
  | Json.JStr s => indexedFrom 0 (List.map (fun c => Json.JStr [c]) s)
  | _ => []
  end.

(** [(v || '').substring(0, 50)]. *)
Definition substring50 (v : Json.value) : result jsstring :=
  if Json.truthy v
  then match v with
       | Some (Json.JStr s) => Ok (firstn 50 s)
       | _ => Throw (Json.TypeError "substring is not a function")
       end
  else Ok [].

(** [v || s] for a string literal [s]. *)
Definition orString (v : Json.value) (s : string) : Json.t :=
  match v with
  | Some t => if Json.truthy v then t else Json.JStr (ofAscii s)
  | None => Json.JStr (ofAscii s)
  end.

(** [v || null]. *)
Definition orNull (v : Json.value) : Json.t :=
  match v with
  | Some t => if Json.truthy v then t else Json.JNull
  | None => Json.JNull
  end.

(** [normalizePost]: a Weibo post under the field names of an XHS post. *)
Definition normalizePost (convert : Json.t -> number) (post : Json.t) (platform : string)
    : result Json.t :=
  if negb (String.eqb platform "weibo") then Ok post
  else
    content <- Json.getProp (Some post) "content" ;;
    title <- substring50 content ;;
    create_time <- Json.getProp (Some post) "create_time" ;;
    comments_count <- Json.getProp (Some post) "comments_count" ;;
    shared_count <- Json.getProp (Some post) "shared_count" ;;
    Ok (Json.JObj
          (spread post ++
           [(ofAscii "title", Json.JStr title);
            (ofAscii "desc", orString content "");
            (ofAscii "type", Json.JStr (ofAscii "normal"));
            (ofAscii "time",
             Json.JNum (Json.toNumber convert (Json.orElse create_time (Some (Json.JNum 0)))
                        * 1000));
            (ofAscii "comment_count", orString comments_count "0");
            (ofAscii "share_count", orString shared_count "0");
            (ofAscii "image_list", Json.JStr []);
            (ofAscii "video_url", Json.JNull);
            (ofAscii "tag_list", Json.JStr [])])).

(** The [map] of the loader over the scraped objects. *)
Fixpoint loadAll (convert : Json.t -> number) (platform : string) (scraperImagesDir : path)
    (items : list Json.t) : result (list Post) :=
  match items with
  | [] => Ok []
  | p :: rest =>
      normalized <- normalizePost convert p platform ;;
      posts <- loadAll convert platform scraperImagesDir rest ;;
      Ok (mkPost (spread normalized) platform scraperImagesDir :: posts)
  end.

(** The posts of a source, of the JSON its file holds. *)
Definition loadPosts (convert : Json.t -> number) (raw : Json.t) (platform : string)
    (scraperImagesDir : path) : result (list Post) :=
  loadAll convert platform scraperImagesDir
    (match raw with
     | Json.JArr items => items
     | _ => [raw]
     end).

(** The record built for the database. *)
Record SupabaseRecord : Type := mkRecord {
  platform : string;
  author_avatar : Json.t;
  Title : Json.value;
  description_en : Json.value;
  description_cn : Json.value;
  image_url : option string;
  all_images : option (list string);
  video_url : option string;
  xiaohongshu_url : Json.value;
  location_name : Json.t;
  location_address : Json.t;
  district : Json.t;
  category : Json.value;
  type : string;
  practical_tips : Json.value;
  original_author : Json.value
}.

(** [post.type === 'video']. *)
Definition isVideo (post : Post) : bool :=
  match get post "type" with
  | Some (Json.JStr s) => streq s (ofAscii "video")
  | _ => false
  end.

(** [url || null] for a URL that is a string. *)
Definition orNoUrl (url : option string) : option string :=
  match url with
  | Some u => if truthyString u then Some u else None
  | None => None
  end.

Definition buildSupabaseRecord (post : Post) (filterResult translation : Json.t)
    (hostedImageUrls : list string) (dubbedVideoUrl : option string) : result SupabaseRecord :=
  title_en <- Json.getProp (Some translation) "title_en" ;;
  description_en <- Json.getProp (Some translation) "description_en" ;;
  extracted_address <- Json.getProp (Some filterResult) "extracted_address" ;;
  extracted_district <- Json.getProp (Some filterResult) "extracted_district" ;;
  category <- Json.getProp (Some filterResult) "category" ;;
  practical_tips <- Json.getProp (Some translation) "practical_tips" ;;
  Ok (mkRecord
        (if truthyString (_platform post) then _platform post else "xiaohongshu"%string)
        (orNull (get post "avatar"))
        title_en
        description_en
        (get post "desc")
        (orNoUrl (List.hd_error hostedImageUrls))
        (match hostedImageUrls with [] => None | _ => Some hostedImageUrls end)
        (orNoUrl dubbedVideoUrl)
        (get post "note_url")
        (orNull (Json.orElse extracted_address (get post "ip_location")))
        (orNull extracted_address)
        (orNull extracted_district)
        category
        (if isVideo post then "video"%string else "image"%string)
        practical_tips
        (get post "nickname")).

(** What [results] collects. *)
Record Accepted : Type := mkAccepted {
  record : SupabaseRecord;
  score : Json.value;
  filter : Json.t;
  original_note_id : Json.value;
  original_title : Json.value
}.

Inductive Rejected : Type :=
| Duplicate (note_id title : Json.value)
| Filtered (note_id title : Json.value) (filterResult : Json.t)
| VideoCapReached (note_id title score : Json.value)
| VideoTooLong (note_id title : Json.value) (videoDuration : number) (score : Json.value).

(** An entry of [results.errors]; the message of a TypeError of the runtime
    is abridged. *)
Record Failure : Type := mkFailure {
  failed_note_id : Json.value;
  failed_title : Json.value;
  error : string
}.

Record Results : Type := mkResults {
  accepted : list Accepted;
  rejected : list Rejected;
  errors : list Failure
}.

(** The rest of what the loops change: the cost so far, the videos dubbed so
    far and the files on disk. *)
Record Run : Type := mkRun {
  totalCost : number;
  videoCount : nat;
  disk : FS
}.

(** What an HTTP GET of the video comes to: a response with its status,
    whose body does or does not reach the end of the file stream, an error
    event of the request, or an exception of [get] itself. *)
Inductive Download : Type :=
| Response (statusCode : Z) (finishes : bool)
| RequestError (msg : string)
| Thrown (e : Error).

(** The services.  The requests made for post [i] of source [srcIdx] are
    told apart by the two indices; [text v] is the string a template literal
    makes of [v], [convert] the number ToNumber makes of a string, an array
    or an object. *)
Record Env : Type := mkEnv {
  CI : option string;
  tempDir : path;
  videoProcessingDir : path;
  text : Json.value -> string;
  convert : Json.t -> number;
  maybeSingle : nat -> nat -> Json.value -> result Json.value;
  filterPost : nat -> nat -> Post -> result Json.t;
  translatePost : nat -> nat -> Post -> Json.t -> result Json.t;
  httpGet : jsstring -> Download;
  ffprobe : path -> result ExtractAudio.Metadata;
  dub : DubVideo.Env;
  readFileSync : path -> result Image.bytes;
  now : nat -> nat -> nat;
  uploadVideo : string -> Image.bytes -> result (option Error);
  getPublicUrl : string -> result string;
  imageServices : UploadImages.Env
}.

(** [MAX_VIDEOS]: 7 on CI, [None] for Infinity. *)
Definition MAX_VIDEOS (env : Env) : option nat :=
  match CI env with
  | Some value => if truthyString value then Some 7%nat else None
  | None => None
  end.

(** [videoCount >= MAX_VIDEOS]. *)
Definition capReached (env : Env) (videoCount : nat) : bool :=
  match MAX_VIDEOS env with
  | Some cap => Nat.leb cap videoCount
  | None => false
  end.

Definition intToString (z : Z) : string := NilZero.string_of_int (Z.to_int z).

(** [downloadVideo]: the file is created at once; it is left behind, empty,
    when the status is not 200, the URL is no string or [get] throws, and
    removed on an error event of the request.  [None] when the body never reaches the end of the
    file stream, for then the promise is never settled. *)
Definition downloadVideo (env : Env) (fs : FS) (url : Json.value) (outputPath : path)
    : option (result unit * FS) :=
  let fs := write outputPath fs in
  match url with
  | Some (Json.JStr u) =>
      match httpGet env u with
      | Response statusCode finishes =>
          if negb (Z.eqb statusCode 200)
          then Some (Throw (newError ("Video download failed: HTTP " ++ intToString statusCode)), fs)
          else if finishes then Some (Ok tt, fs) else None
      | RequestError msg =>
          Some (Throw (newError ("Video download error: " ++ msg)), unlink outputPath fs)
      | Thrown e => Some (Throw e, fs)
      end
  | _ => Some (Throw (Json.TypeError "url.startsWith is not a function"), fs)
  end.

(** [getVideoDuration]. *)
Definition getVideoDuration (env : Env) (videoPath : path) : result number :=
  match ffprobe env videoPath with
  | Throw err => Throw (newError ("ffprobe failed: " ++ message err))
  | Ok metadata => Ok (orZero (ExtractAudio.formatDuration metadata))
  end.

(** [uploadVideoToSupabase], for post [i] of source [srcIdx]. *)
Definition uploadVideoToSupabase (env : Env) (srcIdx i : nat) (videoPath : path)
    (noteId : Json.value) : result string :=
  buffer <- readFileSync env videoPath ;;
  let fileName := (text env noteId ++ "-" ++ natToString (now env srcIdx i) ++ ".mp4")%string in
  error <- uploadVideo env fileName buffer ;;
  match error with
  | Some err => Throw (newError ("Video upload failed: " ++ message err))
  | None => getPublicUrl env fileName
  end.

(** [(post.title || '').slice(0, 40)]: strings and arrays have a [slice]. *)
Definition titleShown (title : Json.value) : result unit :=
  if Json.truthy title
  then match title with
       | Some (Json.JStr _) | Some (Json.JArr _) => Ok tt
       | _ => Throw (Json.TypeError "slice is not a function")
       end
  else Ok tt.

(** [post.image_list ? post.image_list.split(',').filter(Boolean) : []]. *)
Definition imagesOf (image_list : Json.value) : result (list jsstring) :=
  if Json.truthy image_list
  then match image_list with
       | Some (Json.JStr s) =>
           Ok (List.filter TextOverlay.truthyText (TextOverlay.split COMMA s))
       | _ => Throw (Json.TypeError "split is not a function")
       end
  else Ok [].

(** [!filterResult.relevant || filterResult.score < 40]. *)
Definition belowTheBar (env : Env) (relevant score : Json.value) : bool :=
  negb (Json.truthy relevant) || (Json.toNumber (convert env) score <? 40).

(** How the [try] of a post ends when nothing is thrown. *)
Inductive Outcome : Type :=
| Accept (item : Accepted)
| Reject (item : Rejected).

(** [fs.unlinkSync(p)]. *)
Definition unlinkSync (fs : FS) (p : path) : result unit * FS :=
  if existsSync fs p then (Ok tt, unlink p fs)
  else (Throw (newError ("ENOENT: no such file or directory, unlink '" ++ p ++ "'")), fs).

Definition accept (post : Post) (filterResult : Json.t) (score : Json.value)
    (built : result SupabaseRecord) : result Outcome :=
  match built with
  | Throw e => Throw e
  | Ok r => Ok (Accept (mkAccepted r score filterResult (get post "note_id") (get post "title")))
  end.

(** The branch of a video post that is not from Weibo: download, dub,
    upload. *)
Definition videoPost (env : Env) (srcIdx i : nat) (post : Post)
    (filterResult translation : Json.t) (score : Json.value) (run : Run)
    : option (result Outcome * Run) :=
  let note_id := get post "note_id" in
  if capReached env (videoCount run)
  then Some (Ok (Reject (VideoCapReached note_id (get post "title") score)), run)
  else if negb (Json.truthy (get post "video_url"))
  then Some (Throw (newError "Video post has no video_url"), run)
  else
    let rawVideoPath := join (tempDir env) (text env note_id ++ ".mp4")%string in
    match downloadVideo env (disk run) (get post "video_url") rawVideoPath with
    | None => None
    | Some (Throw e, fs) => Some (Throw e, mkRun (totalCost run) (videoCount run) fs)
    | Some (Ok _, fs) =>
        match getVideoDuration env rawVideoPath with
        | Throw e => Some (Throw e, mkRun (totalCost run) (videoCount run) fs)
        | Ok videoDuration =>
            if gtb videoDuration 60
            then
              match unlinkSync fs rawVideoPath with
              | (Throw e, fs) => Some (Throw e, mkRun (totalCost run) (videoCount run) fs)
              | (Ok _, fs) =>
                  Some (Ok (Reject (VideoTooLong note_id (get post "title") videoDuration score)),
                        mkRun (totalCost run) (videoCount run) fs)
              end
            else
              match note_id with
              | Some (Json.JStr _) =>
                  let videoOutputDir := join (videoProcessingDir env) (text env note_id) in
                  match DubVideo.dubVideo (dub env) fs rawVideoPath videoOutputDir with
                  | None => None
                  | Some (Throw e, fs) => Some (Throw e, mkRun (totalCost run) (videoCount run) fs)
                  | Some (Ok dubbed, fs) =>
                      let cost := totalCost run + DubVideo.cost dubbed in
                      match uploadVideoToSupabase env srcIdx i (DubVideo.dubbedVideoPath dubbed)
                              note_id with
                      | Throw e => Some (Throw e, mkRun cost (videoCount run) fs)
                      | Ok dubbedVideoUrl =>
                          match unlinkSync fs rawVideoPath with
                          | (Throw e, fs) => Some (Throw e, mkRun cost (videoCount run) fs)
                          | (Ok _, fs) =>
                              Some (accept post filterResult score
                                      (buildSupabaseRecord post filterResult translation []
                                         (Some dubbedVideoUrl)),
                                    mkRun cost (S (videoCount run)) fs)
                          end
                      end
                  end
              | _ =>
                  Some (Throw (Json.TypeError "The paths[4] argument must be of type string"),
                        mkRun (totalCost run) (videoCount run) fs)
              end
        end
    end.

(** The other branch: the images, unless the post is from Weibo or has
    none. *)
Definition imagePost (env : Env) (post : Post) (filterResult translation : Json.t)
    (score : Json.value) (run : Run) : option (result Outcome * Run) :=
  match imagesOf (get post "image_list") with
  | Throw e => Some (Throw e, run)
  | Ok images =>
      if Nat.ltb 0 (List.length images) && negb (String.eqb (_platform post) "weibo")
      then
        match get post "note_id" with
        | Some (Json.JStr _) =>
            match UploadImages.uploadAllImagesToSupabase (imageServices env) (disk run)
                    (text env (get post "note_id")) (_scraperImagesDir post) with
            | None => None
            | Some (hostedImageUrls, fs) =>
                Some (accept post filterResult score
                        (buildSupabaseRecord post filterResult translation hostedImageUrls None),
                      mkRun (totalCost run) (videoCount run) fs)
            end
        | _ =>
            Some (accept post filterResult score
                    (buildSupabaseRecord post filterResult translation [] None), run)
        end
      else
        Some (accept post filterResult score
                (buildSupabaseRecord post filterResult translation [] None), run)
  end.

(** The body of the [try] for post [i] of source [srcIdx]; [None] when it
    never ends.  [forceIds] is the empty set. *)
Definition processPost (env : Env) (srcIdx i : nat) (post : Post) (run : Run)
    : option (result Outcome * Run) :=
  let note_id := get post "note_id" in
  let title := get post "title" in
  match titleShown title with
  | Throw e => Some (Throw e, run)
  | Ok _ =>
      match maybeSingle env srcIdx i note_id with
      | Throw e => Some (Throw e, run)
      | Ok existingPost =>
          if Json.truthy existingPost
          then Some (Ok (Reject (Duplicate note_id title)), run)
          else
            match filterPost env srcIdx i post with
            | Throw e => Some (Throw e, run)
            | Ok filterResult =>
                match Json.getProp (Some filterResult) "score",
                      Json.getProp (Some filterResult) "relevant" with
                | Ok score, Ok relevant =>
                    if belowTheBar env relevant score
                    then Some (Ok (Reject (Filtered note_id title filterResult)), run)
                    else
                      match translatePost env srcIdx i post filterResult with
                      | Throw e => Some (Throw e, run)
                      | Ok translation =>
                          match Json.getProp (Some translation) "title_en" with
                          | Throw e => Some (Throw e, run)
                          | Ok _ =>
                              if isVideo post && negb (String.eqb (_platform post) "weibo")
                              then videoPost env srcIdx i post filterResult translation score run
                              else imagePost env post filterResult translation score run
                          end
                      end
                | Throw e, _ => Some (Throw e, run)
                | _, Throw e => Some (Throw e, run)
                end
            end
      end
  end.

(** A limit read by [parseInt]: an integer, or NaN. *)
Inductive Limit : Type :=
| NotANumber
| Int (n : Z).

(** [sourceLimit && sourceAccepted >= sourceLimit]; [None] is [null]. *)
Definition limitReached (sourceLimit : option Limit) (sourceAccepted : nat) : bool :=
  match sourceLimit with
  | Some (Int n) => negb (Z.eqb n 0) && Z.leb n (Z.of_nat sourceAccepted)
  | _ => false
  end.

(** The loop over the posts of a source, from post [i] on: what [results]
    and the rest come to, and the count of the posts accepted. *)
Fixpoint sourceLoop (env : Env) (srcIdx : nat) (sourceLimit : option Limit) (i : nat)
    (posts : list Post) (sourceAccepted : nat) (results : Results) (run : Run)
    : option (nat * Results * Run) :=
  match posts with
  | [] => Some (sourceAccepted, results, run)
  | post :: rest =>
      if limitReached sourceLimit sourceAccepted then Some (sourceAccepted, results, run)
      else
        match processPost env srcIdx i post run with
        | None => None
        | Some (Ok (Accept item), run) =>
            sourceLoop env srcIdx sourceLimit (S i) rest (S sourceAccepted)
              (mkResults (accepted results ++ [item]) (rejected results) (errors results)) run
        | Some (Ok (Reject item), run) =>
            sourceLoop env srcIdx sourceLimit (S i) rest sourceAccepted
              (mkResults (accepted results) (rejected results ++ [item]) (errors results)) run
        | Some (Throw err, run) =>
            sourceLoop env srcIdx sourceLimit (S i) rest sourceAccepted
              (mkResults (accepted results) (rejected results)
                 (errors results
                    ++ [mkFailure (get post "note_id") (get post "title") (message err)]))
              run
        end
  end.

(** [perSourceLimits[srcIdx] ?? globalLimit]. *)
Definition sourceLimitOf (perSourceLimits : list Limit) (globalLimit : option Limit)
    (srcIdx : nat) : option Limit :=
  match nth_error perSourceLimits srcIdx with
  | Some limit => Some limit
  | None => globalLimit
  end.

(** The loop over the sources, from source [srcIdx] on. *)
Fixpoint sourcesLoop (env : Env) (perSourceLimits : list Limit) (globalLimit : option Limit)
    (srcIdx : nat) (sources : list (list Post)) (results : Results) (run : Run)
    : option (Results * Run) :=
  match sources with
  | [] => Some (results, run)
  | posts :: rest =>
      match sourceLoop env srcIdx (sourceLimitOf perSourceLimits globalLimit srcIdx) 0 posts 0
              results run with
      | None => None
      | Some (_, results, run) =>
          sourcesLoop env perSourceLimits globalLimit (S srcIdx) rest results run
      end
  end.

End Main.

(** ** A reference [JSON.parse]

    The runtime's parser is a parameter of the model.  To run the model on
    sample replies, this is the JSON grammar (ECMA-404) written out.  Numbers
    are converted as the runtime converts them when they have at most 15
    significant digits and a decimal exponent within 18 of zero; this parser
    has no answer for longer numerals. *)

Module JsonRef.

Import JS.
Local Open Scope float_scope.

Definition isJsonWs (c : jschar) : bool :=
  N.eqb c 32 || N.eqb c 9 || N.eqb c 10 || N.eqb c 13.

Fixpoint skipWs (s : jsstring) : jsstring :=
  match s with
  | c :: r => if isJsonWs c then skipWs r else s
  | [] => []
  end.

Definition isDigit (c : jschar) : bool := N.leb 48 c && N.leb c 57.

Fixpoint digits (s : jsstring) : list N * jsstring :=
  match s with
  | c :: r => if isDigit c then let (ds, rest) := digits r in ((c - 48)%N :: ds, rest) else ([], s)
  | [] => ([], [])
  end.

Definition digitsValue (ds : list N) : Z :=
  fold_left (fun acc d => (acc * 10 + Z.of_N d)%Z) ds 0%Z.

Definition hexValue (c : jschar) : option N :=
  if isDigit c then Some (c - 48)%N
  else if N.leb 97 c && N.leb c 102 then Some (c - 87)%N
  else if N.leb 65 c && N.leb c 70 then Some (c - 55)%N
  else None.

(** The characters of a string literal up to its closing quote. *)
Fixpoint stringBody (s : jsstring) (acc : jsstring) : option (jsstring * jsstring) :=
  match s with
  | [] => None
  | 34%N :: r => Some (rev acc, r)
  | 92%N :: e :: r =>
      match e with
      | 34%N => stringBody r (34%N :: acc)
      | 92%N => stringBody r (92%N :: acc)
      | 47%N => stringBody r (47%N :: acc)
      | 98%N => stringBody r (8%N :: acc)
      | 102%N => stringBody r (12%N :: acc)
      | 110%N => stringBody r (10%N :: acc)
      | 114%N => stringBody r (13%N :: acc)
      | 116%N => stringBody r (9%N :: acc)
      | 117%N =>
          match r with
          | a :: b :: c :: d :: r' =>
              match hexValue a, hexValue b, hexValue c, hexValue d with
              | Some a, Some b, Some c, Some d =>
                  stringBody r' ((a * 4096 + b * 256 + c * 16 + d)%N :: acc)
              | _, _, _, _ => None
              end
          | _ => None
          end
      | _ => None
      end
  | c :: r => if N.ltb c 32 then None else stringBody r (c :: acc)
  end.

(** A number literal and what follows it. *)
Definition numberLiteral (s : jsstring) : option (number * jsstring) :=
  let (negative, s) := match s with
                       | 45%N :: r => (true, r)
                       | _ => (false, s)
                       end in
  let (intDigits, s1) := digits s in
  match intDigits with
  | [] => None
  | d :: more =>
      if N.eqb d 0 && negb (match more with [] => true | _ => false end) then None
      else
        let fracPart :=
          match s1 with
          | 46%N :: r =>
              let (fs, rest) := digits r in
              match fs with [] => None | _ => Some (fs, rest) end
          | _ => Some ([], s1)
          end in
        match fracPart with
        | None => None
        | Some (fracDigits, s2) =>
            let expPart :=
              match s2 with
              | c :: r =>
                  if N.eqb c 101 || N.eqb c 69
                  then
                    let (expNegative, r) := match r with
                                            | 45%N :: r' => (true, r')
                                            | 43%N :: r' => (false, r')
                                            | _ => (false, r)
                                            end in
                    let (es, rest) := digits r in
                    match es with
                    | [] => None
                    | _ => Some (if expNegative then (- digitsValue es)%Z else digitsValue es, rest)
                    end
                  else Some (0%Z, s2)
              | [] => Some (0%Z, s2)
              end in
            match expPart with
            | None => None
            | Some (e, s3) =>
                let mantissa := digitsValue (intDigits ++ fracDigits) in
                let exp10 := (e - Z.of_nat (List.length fracDigits))%Z in
                if (mantissa <? 10 ^ 15)%Z && (Z.abs exp10 <=? 18)%Z
                then
                  let magnitude :=
                    if (0 <=? exp10)%Z then ofZ mantissa * ofZ (10 ^ exp10)
                    else ofZ mantissa / ofZ (10 ^ (- exp10)) in
                  Some (if negative then - magnitude else magnitude, s3)
                else None
            end
        end
  end.

Definition literal (word : string) (v : Json.t) (s : jsstring) : option (Json.t * jsstring) :=
  if ClaudeVision.startsWith (ofAscii word) s
  then Some (v, skipn (String.length word) s)
  else None.

(** A value, the elements of an array after its opening bracket, and the
    members of an object after its opening brace. *)
Fixpoint parseValue (fuel : nat) (s : jsstring) : option (Json.t * jsstring) :=
  match fuel with
  | O => None
  | S fuel' =>
      match skipWs s with
      | 123%N :: r =>
          match skipWs r with
          | 125%N :: r' => Some (Json.JObj [], r')
          | r' =>
              match parseMembers fuel' r' with
              | Some (fields, rest) => Some (Json.JObj fields, rest)
              | None => None
              end
          end
      | 91%N :: r =>
          match skipWs r with
          | 93%N :: r' => Some (Json.JArr [], r')
          | r' =>
              match parseElements fuel' r' with
              | Some (items, rest) => Some (Json.JArr items, rest)
              | None => None
              end
          end
      | 34%N :: r =>
          match stringBody r [] with
          | Some (str, rest) => Some (Json.JStr str, rest)
          | None => None
          end
      | 116%N :: r => literal "true" (Json.JBool true) (116%N :: r)
      | 102%N :: r => literal "false" (Json.JBool false) (102%N :: r)
      | 110%N :: r => literal "null" Json.JNull (110%N :: r)
      | s' =>
          match numberLiteral s' with
          | Some (n, rest) => Some (Json.JNum n, rest)
          | None => None
          end
      end
  end
with parseElements (fuel : nat) (s : jsstring) : option (list Json.t * jsstring) :=
  match fuel with
  | O => None
  | S fuel' =>
      match parseValue fuel' s with
      | None => None
      | Some (v, rest) =>
          match skipWs rest with
          | 93%N :: r => Some ([v], r)
          | 44%N :: r =>
              match parseElements fuel' r with
              | Some (vs, rest') => Some (v :: vs, rest')
              | None => None
              end
          | _ => None
          end
      end
  end
with parseMembers (fuel : nat) (s : jsstring) : option (list (jsstring * Json.t) * jsstring) :=
  match fuel with
  | O => None
  | S fuel' =>
      match skipWs s with
      | 34%N :: r =>
          match stringBody r [] with
          | None => None
          | Some (key, rest) =>
              match skipWs rest with
              | 58%N :: r1 =>
                  match parseValue fuel' r1 with
                  | None => None
                  | Some (v, rest1) =>
                      match skipWs rest1 with
                      | 125%N :: r2 => Some ([(key, v)], r2)
                      | 44%N :: r2 =>
                          match parseMembers fuel' r2 with
                          | Some (fields, rest2) => Some ((key, v) :: fields, rest2)
                          | None => None
                          end
                      | _ => None
                      end
                  end
              | _ => None
              end
          end
      | _ => None
      end
  end.

(** The whole text has to be one value. *)
Definition parse : Json.parser :=
  fun text =>
    match parseValue (S (List.length text)) text with
    | Some (v, rest) => match skipWs rest with [] => Some v | _ => None end
    | None => None
    end.

End JsonRef.

(** ** Vocabulary of the properties *)

Module Spec.

Import JS Fs.

(** A stage's output record is anchored where its input was: same [start]
    and same [end]. *)
Definition sameAnchors (input output : Segment.t) : Prop :=
  Segment.start output = Segment.start input
  /\ Segment.end_ output = Segment.end_ input.

(** The record a translation makes of a transcribed segment is anchored
    where the segment was. *)
Definition anchoredAt (input : Transcribe.Segment) (output : Segment.t) : Prop :=
  Segment.start output = Transcribe.start input
  /\ Segment.end_ output = Transcribe.end_ input.

(** Text-to-speech only adds: texts, anchors and duration are the input's. *)
Definition keepsTranslation (input output : Segment.t) : Prop :=
  Segment.chinese output = Segment.chinese input
  /\ Segment.english output = Segment.english input
  /\ Segment.duration output = Segment.duration input.

(** Timing sync only adds: everything translation and text-to-speech wrote
    is the input's. *)
Definition keepsAudio (input output : Segment.t) : Prop :=
  keepsTranslation input output
  /\ Segment.audioPath output = Segment.audioPath input
  /\ Segment.audioDuration output = Segment.audioDuration input
  /\ Segment.error output = Segment.error input.

Definition hasKey (k : option string) : Prop :=
  exists key, k = Some key /\ truthyString key = true.

(** The transcription service fails on a request in a way worth retrying:
    it throws, and not with status 400. *)
Definition retryable (r : result Transcribe.Response) (e : Error) : Prop :=
  r = Throw e /\ status e <> Some 400%Z.

(** The service rejects the request itself: it throws with status 400. *)
Definition rejected (r : result Transcribe.Response) (e : Error) : Prop :=
  r = Throw e /\ status e = Some 400%Z.

(** The pause before attempt [attempt]: none before the first, then
    2000 * 2^(attempt - 1) milliseconds. *)
Definition backoff (attempt : nat) : list Transcribe.Event :=
  if Nat.ltb 1 attempt
  then [Transcribe.Sleep (2000 * 2 ^ (Z.of_nat attempt - 1))]
  else [].

(** What [n] attempts in a row, starting with attempt [attempt], do: pause,
    request, pause, request... *)
Fixpoint schedule (attempt n : nat) : list Transcribe.Event :=
  match n with
  | O => []
  | S n' => backoff attempt ++ Transcribe.Request attempt :: schedule (S attempt) n'
  end.

(** The checks transcribeAudio makes before its first request. *)
Definition requestAllowed (env : Transcribe.Env) (fs : FS) (audioPath : path) : Prop :=
  hasKey (Transcribe.OPENAI_API_KEY env)
  /\ existsSync fs audioPath = true
  /\ (Transcribe.fileSize env audioPath <= 25 * 1024 * 1024)%Z.

Definition errorOf (r : result Transcribe.Response) : option Error :=
  match r with
  | Throw e => Some e
  | Ok _ => None
  end.

(** [lastError] after [j] failed attempts starting with attempt [attempt]. *)
Definition lastErrorAfter (env : Transcribe.Env) (lastError : option Error)
    (attempt j : nat) : option Error :=
  match j with
  | O => lastError
  | S j' => errorOf (Transcribe.create env (attempt + j'))
  end.


(** The percentages the size filter looks at: the width and the height of
    the bounding box of a paragraph, relative to the image. *)
Definition boxPercent (imgWidth imgHeight : number) (p : GoogleVision.Paragraph)
    : option (number * number) :=
  match nth_error (GoogleVision.vertices p) 0, nth_error (GoogleVision.vertices p) 2 with
  | Some v0, Some v2 =>
      Some (((orZero (GoogleVision.x v2) - orZero (GoogleVision.x v0)) / imgWidth * 100)%float,
            ((orZero (GoogleVision.y v2) - orZero (GoogleVision.y v0)) / imgHeight * 100)%float)
  | _, _ => None
  end.

(** The paragraphs the size filter lets through, by their percentages. *)
Definition candidates (imgWidth imgHeight : number) (paragraphs : list GoogleVision.Paragraph)
    : list (number * number) :=
  flat_map (fun p => match boxPercent imgWidth imgHeight p with
                     | Some (wp, hp) =>
                         if ((wp <? 2) && (hp <? 1.5))%float then [] else [(wp, hp)]
                     | None => []
                     end) paragraphs.

(** The reply the validator reads: the edited image is read, then the model
    is asked. *)
Definition validatorReply (env : Validate.Env) (editedImagePath : path)
    (expectedOverlays : list Overlay.t) : result jsstring :=
  imageBuffer <- Validate.readFileSync env editedImagePath ;;
  Validate.messagesCreate env editedImagePath imageBuffer
    (Image.detectMimeType imageBuffer) expectedOverlays.




(** A number of seconds to the millisecond, as [toFixed(3)] prints it. *)
Definition seconds (x : number) : Q := fixedSeconds (toFixed3 x).

(** The gap the assembler computes between [currentTime] and a later time
    [x] is exact: when it is more than 10 ms, the silence asked for is the
    difference of the two times; when it is not, there is no difference
    (all to the millisecond). *)
Definition gapExact (currentTime x : number) : Prop :=
  if gtb (x - currentTime)%float 0.01%float
  then (seconds (x - currentTime)%float == seconds x - seconds currentTime)%Q
  else (seconds x == seconds currentTime)%Q.

(** Every gap of a timeline is exact: before each segment that has audio,
    and from the last such segment to the end of the video. *)
Fixpoint gapsExact (currentTime : number) (segments : list Segment.t)
    (videoDuration : number) : Prop :=
  match segments with
  | [] => gapExact currentTime videoDuration
  | s :: rest =>
      match Segment.adjustedAudioPath s with
      | None => gapsExact currentTime rest videoDuration
      | Some _ =>
          gapExact currentTime (Segment.start s)
          /\ gapsExact (Segment.end_ s) rest videoDuration
      end
  end.

(** Every adjusted clip is on disk and lasts from the start of its segment
    to its end. *)
Definition clipsFit (env : AssembleAudio.Env) (fs : FS) (segments : list Segment.t) : Prop :=
  forall s p,
    In s segments -> Segment.adjustedAudioPath s = Some p ->
    truthyString p && existsSync fs p = true
    /\ (AssembleAudio.clipSeconds env p == seconds (Segment.end_ s) - seconds (Segment.start s))%Q.

(** ffmpeg ends every job the assembler gives it. *)
Definition assemblerRuns (env : AssembleAudio.Env) : Prop :=
  (forall p d, AssembleAudio.anullsrc env p d = None)
  /\ (forall l p, AssembleAudio.concat env l p = None).




(** The time a trace spends asleep, in milliseconds. *)
Definition totalSleep (trace : list Transcribe.Event) : Z :=
  fold_right (fun ev acc => match ev with
                            | Transcribe.Sleep ms => (ms + acc)%Z
                            | Transcribe.Request _ => acc
                            end) 0%Z trace.

(** The requests of a trace. *)
Definition requests (trace : list Transcribe.Event) : list nat :=
  flat_map (fun ev => match ev with
                      | Transcribe.Sleep _ => []
                      | Transcribe.Request n => [n]
                      end) trace.

(** The file syncAudioTiming writes for segment [i]. *)
Definition adjustedPath (outputDir : path) (i : nat) : path :=
  join outputDir ("adjusted_" ++ natToString i ++ ".mp3")%string.

(** [l1] is [l2] with some of its elements left out, the others in their
    order. *)
Inductive subsequence {A : Type} : list A -> list A -> Prop :=
| subsequence_nil : subsequence [] []
| subsequence_keep (a : A) (l1 l2 : list A) :
    subsequence l1 l2 -> subsequence (a :: l1) (a :: l2)
| subsequence_skip (a : A) (l1 l2 : list A) :
    subsequence l1 l2 -> subsequence l1 (a :: l2).

(** The elements of a list with their indices, counted from [i]. *)
Fixpoint indexed {A : Type} (i : nat) (l : list A) : list (nat * A) :=
  match l with
  | [] => []
  | a :: rest => (i, a) :: indexed (S i) rest
  end.

(** The image of index [i] went up to the bucket and [url] is its public
    URL. *)
Definition uploadedAs (env : UploadImages.Env) (noteId : string) (entry : nat * string)
    (url : string) : Prop :=
  let (i, imageFile) := entry in
  let fileName := UploadImages.fileNameOf env noteId i imageFile in
  (exists buffer,
      UploadImages.upload env fileName buffer ("image/" ++ UploadImages.fileExtOf imageFile)%string
      = JS.Ok None)
  /\ UploadImages.getPublicUrl env fileName = JS.Ok url.

(** The filter let the item through: its [relevant] is true and its score
    is not below 40, as JavaScript compares them. *)
Definition passedTheBar (env : Main.Env) (item : Main.Accepted) : Prop :=
  exists relevant,
    Json.getProp (Some (Main.filter item)) "relevant" = JS.Ok relevant
    /\ Json.truthy relevant = true
    /\ Json.getProp (Some (Main.filter item)) "score" = JS.Ok (Main.score item)
    /\ (Json.toNumber (Main.convert env) (Main.score item) <? 40)%float = false.

(** The item went through the dubbing: a video post that is not from
    Weibo. *)
Definition dubbed (item : Main.Accepted) : bool :=
  String.eqb (Main.type (Main.record item)) "video"
  && negb (String.eqb (Main.platform (Main.record item)) "weibo").

(** The record carries no image and no video. *)
Definition withoutMedia (item : Main.Accepted) : Prop :=
  Main.image_url (Main.record item) = None
  /\ Main.all_images (Main.record item) = None
  /\ Main.video_url (Main.record item) = None.

(** The entries of [results], all lists together. *)
Definition entries (results : Main.Results) : nat :=
  (List.length (Main.accepted results) + List.length (Main.rejected results)
   + List.length (Main.errors results))%nat.

(** What is known of a post once the filter and the translation are in. *)
Record Screened (env : Main.Env) (srcIdx i : nat) (post : Main.Post)
    (filterResult translation : Json.t) (score : Json.value) : Prop := mkScreened {
  screened_new : exists existingPost,
      Main.maybeSingle env srcIdx i (Main.get post "note_id") = JS.Ok existingPost
      /\ Json.truthy existingPost = false;
  screened_filter : Main.filterPost env srcIdx i post = JS.Ok filterResult;
  screened_score : Json.getProp (Some filterResult) "score" = JS.Ok score;
  screened_bar : exists relevant,
      Json.getProp (Some filterResult) "relevant" = JS.Ok relevant
      /\ Main.belowTheBar env relevant score = false;
  screened_translation :
    Main.translatePost env srcIdx i post filterResult = JS.Ok translation;
  screened_title :
    exists title_en, Json.getProp (Some translation) "title_en" = JS.Ok title_en
}.
(** What the loop over the posts of a source adds to the results and to
    the run. *)
Record Added (env : Main.Env) (sourceLimit : option Main.Limit) (posts : list Main.Post)
    (sourceAccepted k : nat) (results results' : Main.Results) (run run' : Main.Run)
    : Prop := mkAdded {
  added_lists : exists new newRejected newErrors,
      Main.accepted results' = (Main.accepted results ++ new)%list
      /\ Main.rejected results' = (Main.rejected results ++ newRejected)%list
      /\ Main.errors results' = (Main.errors results ++ newErrors)%list
      /\ k = (sourceAccepted + List.length new)%nat
      /\ (List.length new + List.length newRejected + List.length newErrors
          <= List.length posts)%nat
      /\ ((forall c, Main.limitReached sourceLimit c = false) ->
          (List.length new + List.length newRejected + List.length newErrors)%nat
          = List.length posts)
      /\ Forall (passedTheBar env) new
      /\ Main.videoCount run'
         = (Main.videoCount run + List.length (List.filter dubbed new))%nat
      /\ (Forall (fun post => Main._platform post = "weibo"%string) posts ->
          run' = run /\ Forall withoutMedia new);
  added_limit : forall n, sourceLimit = Some (Main.Int n) -> (0 < n)%Z ->
                          (k <= Nat.max sourceAccepted (Z.to_nat n))%nat;
  added_cap : forall cap, Main.MAX_VIDEOS env = Some cap ->
                          (Main.videoCount run <= cap)%nat ->
                          (Main.videoCount run' <= cap)%nat
}.

End Spec.

(** ** Sample inputs

    Concrete segments, replies and environments on which the model is run in
    the examples of Part II. *)

Module Sample.

Import JS Fs.
Local Open Scope float_scope.

(** A three-second segment whose synthesized clip lasts [audio] seconds. *)
Definition threeSeconds (audio : number) : Segment.t :=
  Segment.mk (ofAscii "ni hao") (ofAscii "hello there") 0 3 3
    (Some "audio/segment_0.mp3"%string) (Some audio) None
    None None None None None.

(** An ffmpeg that ends every job. *)
Definition ffmpegEnds : SyncAudio.Env := SyncAudio.mkEnv (fun _ => None).

(** A transcription service that is overloaded at the first request (status
    429) and rejects the second (status 400). *)
Definition rateLimited : Error := mkError (Some 429%Z) "rate limit reached".
Definition badAudio : Error := mkError (Some 400%Z) "invalid file format".

Definition whisperRejecting : Transcribe.Env :=
  Transcribe.mkEnv (Some "sk-test"%string) (fun _ => 480000%Z)
    (fun attempt => match attempt with
                    | 1%nat => Throw rateLimited
                    | _ => Throw badAudio
                    end).

(** Two transcribed segments, a translation service that answers the first
    request and fails the second, a speech service whose second clip cannot
    be probed. *)
Definition transcribed : list Transcribe.Segment :=
  [Transcribe.mkSegment (ofAscii "ni hao") 0.5 2.5;
   Transcribe.mkSegment (ofAscii "zai jian") 3 6].

Definition translator : TranslateSegments.Env :=
  TranslateSegments.mkEnv (Some "sk-test"%string)
    (fun i _ _ => match i with
                  | O => Ok (ofAscii " 'hello' ")
                  | _ => Throw (newError "timeout")
                  end).

Definition speaker : TextToSpeech.Env :=
  TextToSpeech.mkEnv (Some "el-test"%string)
    (fun _ _ _ => Ok tt)
    (fun p => if String.eqb p "audio/segment_0.mp3" then Ok 2.4
              else Throw (newError "Could not get audio duration")).

(** Three replies of the classifier, each the text after the prefilled
    opening of the JSON object: a clean one, one with single-quoted values
    and trailing commas, and one cut off in the middle of its second
    overlay.  The Chinese text is the two characters of a greeting. *)
Definition greeting : jsstring := [20320; 22909]%N.

Definition cleanReply : jsstring :=
  quoted "{`index`: 0, `chinese`: `" ++ greeting ++ quoted "`, `english`: `Hello`}]}".




(** A classifier that answers every request with [reply], read with the
    reference parser. *)
Definition classifier (reply : jsstring) : GoogleVision.Env :=
  GoogleVision.mkEnv
    (fun _ => Ok None) (fun _ => Ok (1080, 1440)) (fun _ => Ok [255; 216]%N)
    (fun _ _ _ _ => Ok reply) JsonRef.parse.

(** A canvas on which every character set at [size] pixels is [0.6 * size]
    wide, about what bold Arial averages; every call of sharp and of the
    canvas succeeds. *)
Definition canvas : TextOverlay.Env :=
  TextOverlay.mkEnv
    (fun _ => Ok (1080, 1440)) (fun _ _ => Ok tt)
    (fun size s => size * 0.6 * ofNat (List.length s))
    (fun _ _ => Ok tt).

(** An annotation with one paragraph, a caption 540 pixels wide and 72 high
    at (108, 144) in an image of 1080 by 1440. *)
Definition caption : GoogleVision.Paragraph :=
  GoogleVision.mkParagraph [[greeting]]
    [GoogleVision.mkVertex (Some 108) (Some 144);
     GoogleVision.mkVertex (Some 648) (Some 144);
     GoogleVision.mkVertex (Some 648) (Some 216);
     GoogleVision.mkVertex (Some 108) (Some 216)].

(** A line as long but 14 pixels high only: thin, not narrow. *)
Definition thinCaption : GoogleVision.Paragraph :=
  GoogleVision.mkParagraph [[greeting]]
    [GoogleVision.mkVertex (Some 108) (Some 144);
     GoogleVision.mkVertex (Some 648) (Some 144);
     GoogleVision.mkVertex (Some 648) (Some 158);
     GoogleVision.mkVertex (Some 108) (Some 158)].

(** A watermark of 16 by 14 pixels: tiny both ways. *)
Definition watermark : GoogleVision.Paragraph :=
  GoogleVision.mkParagraph [[ofAscii "xhs"]]
    [GoogleVision.mkVertex (Some 1040) (Some 1410);
     GoogleVision.mkVertex (Some 1056) (Some 1410);
     GoogleVision.mkVertex (Some 1056) (Some 1424);
     GoogleVision.mkVertex (Some 1040) (Some 1424)].

(** Services that find the caption; the classifier's reply to its [n]-th
    request is [replies n]. *)
Definition visionWith (replies : nat -> jsstring) : GoogleVision.Env :=
  GoogleVision.mkEnv
    (fun _ => Ok (Some [[[caption]]])) (fun _ => Ok (1080, 1440))
    (fun _ => Ok [255; 216; 255; 224]%N)
    (fun n _ _ _ => Ok (replies n)) JsonRef.parse.


(** The overlay made of the caption. *)
Definition greetingOverlay : Overlay.t :=
  Overlay.mk (Some (Json.JStr greeting)) (Some (Json.JStr (ofAscii "Hello"))) true
    (Some (Overlay.mkPosition 10 10)) (Some (Overlay.mkSize 50 5)).

(** The block extracted for the caption. *)
Definition captionBlock : GoogleVision.TextBlock :=
  GoogleVision.mkTextBlock 0 greeting 108 144 540 72 10 10 50 5.

(** An edit service that returns an image for every request, and a validator
    whose model finds the Chinese text still there, whichever image it is
    shown. *)
Definition qwenWorks : QwenEdit.Env :=
  QwenEdit.mkEnv (Some "sk-qwen"%string)
    (fun _ => Ok [255; 216; 255; 224]%N)
    (fun _ _ _ => Ok (QwenEdit.mkReply (Some [Some "https://example.invalid/edited.png"%string])))
    (fun _ => Ok [137; 80; 78; 71]%N)
    (fun _ _ => Ok tt).

Definition rejection : jsstring :=
  quoted "{`all_translated`: false, `untranslated_chinese`: [`" ++ greeting
    ++ quoted "`], `missing_english`: [`Hello`], `gibberish_detected`: false, `quality_score`: 40, `reason`: `Chinese text still visible`}".

Definition validatorRejects : Validate.Env :=
  Validate.mkEnv
    (fun _ => Ok [137; 80; 78; 71]%N)
    (fun _ _ _ _ => Ok rejection)
    JsonRef.parse (fun _ => nan).

(** A compositor that cannot write its output. *)
Definition canvasCannotWrite : TextOverlay.Env :=
  TextOverlay.mkEnv
    (TextOverlay.metadata canvas) (TextOverlay.createCanvas canvas)
    (TextOverlay.measureText canvas)
    (fun _ _ => Throw (newError "ENOSPC: no space left on device")).

(** The pipeline in which the edit is validated twice and rejected twice,
    with a compositor that works and with one that cannot write. *)
Definition rejectingPipeline (compositor : TextOverlay.Env) : ProcessPosts.Env :=
  ProcessPosts.mkEnv (visionWith (fun _ => cleanReply)) qwenWorks validatorRejects compositor.

(** An assembler whose ffmpeg ends every job, with the length in seconds of
    the audio files on disk. *)
Definition assembler (lengths : path -> Q) : AssembleAudio.Env :=
  AssembleAudio.mkEnv (fun _ _ => None) (fun _ _ => None) lengths.

(** Two synced segments, at 0.5 s to 2.5 s and at 3 s to 6 s of a video of
    8 s, each with an adjusted clip as long as its slot. *)
Definition syncedPair : list Segment.t :=
  [Segment.mk (ofAscii "ni hao") (ofAscii "hello") 0.5 2.5 2
     (Some "audio/segment_0.mp3"%string) (Some 1.6) None
     (Some "synced/adjusted_0.mp3"%string) (Some 1) (Some true) None (Some 0.4);
   Segment.mk (ofAscii "zai jian") (ofAscii "see you again soon") 3 6 3
     (Some "audio/segment_1.mp3"%string) (Some 3.6) None
     (Some "synced/adjusted_1.mp3"%string) (Some 1.2) (Some true) None None].

Definition syncedPairLengths (p : path) : Q :=
  if String.eqb p "synced/adjusted_0.mp3" then 2%Q
  else if String.eqb p "synced/adjusted_1.mp3" then 3%Q
  else 0%Q.

Definition syncedPairFiles : FS :=
  ["synced/adjusted_1.mp3"; "synced/adjusted_0.mp3";
   "audio/segment_1.mp3"; "audio/segment_0.mp3"]%string.



(** A video of 8 s with an audio stream, two spoken segments, no Demucs:
    the first clip measures 2.4 s for its slot of 2 s, the second cannot be
    probed; the translation of the second segment fails. *)
Definition whisperResponse : Transcribe.Response :=
  Transcribe.mkResponse (Some "chinese"%string) (Some 8)
    (Some [Transcribe.mkSegment (ofAscii " ni hao ") 0.5 2.5;
           Transcribe.mkSegment (ofAscii "zai jian") 3 6]).

Definition probeWithAudio : ExtractAudio.Env :=
  ExtractAudio.mkEnv
    (fun _ => Ok (ExtractAudio.mkMetadata (Some 8)
                    [ExtractAudio.mkStream "video" (Some "h264"%string);
                     ExtractAudio.mkStream "audio" (Some "aac"%string)]))
    (fun _ => ExtractAudio.Ended).

Definition noDemucs : SeparateAudio.Env :=
  SeparateAudio.mkEnv (fun _ _ => (None, ""%string, [])) (fun _ => "audio-hq"%string).

Definition dubbingSpeaker : TextToSpeech.Env :=
  TextToSpeech.mkEnv (Some "el-test"%string)
    (fun _ _ _ => Ok tt)
    (fun p => if String.eqb p "work/audio-segments/segment_0.mp3" then Ok 2.4
              else Throw (newError "Could not get audio duration")).

Definition dubbingLengths (p : path) : Q :=
  if String.eqb p "work/synced-audio/adjusted_0.mp3" then 2%Q else 0%Q.

Definition dubbing (speech : TextToSpeech.Env) : DubVideo.Env :=
  DubVideo.mkEnv (Some "sk-test"%string) (fun _ => 480000%Z) (fun _ => Ok whisperResponse)
    (TranslateSegments.chat translator)
    probeWithAudio false noDemucs speech ffmpegEnds (assembler dubbingLengths)
    (ReplaceAudio.mkEnv (fun _ => ExtractAudio.Ended)).

(** A speech service that is down. *)
Definition speakerDown : TextToSpeech.Env :=
  TextToSpeech.mkEnv (Some "el-test"%string)
    (fun _ _ _ => Throw (newError "quota exceeded"))
    (fun _ => Ok 1).

(** A reply of the classifier on its own, in a code fence: the caption, which
    it takes for the author's, and a shop sign, which it does not. *)
Definition fencedReply : jsstring :=
  ClaudeVision.fence ++ ofAscii "json" ++ [ClaudeVision.NEWLINE]
    ++ quoted "{`hasText`: true, `overlays`: [{`chinese`: `" ++ greeting
    ++ quoted "`, `english`: `Hello`, `isAuthorOverlay`: true}, {`chinese`: `" ++ greeting
    ++ quoted "`, `english`: `Exit`, `isAuthorOverlay`: false}]}"
    ++ [ClaudeVision.NEWLINE] ++ ClaudeVision.fence.

Definition claude (reply : jsstring) : ClaudeVision.Env :=
  ClaudeVision.mkEnv (fun _ => Ok [255; 216; 255; 224]%N) (fun _ _ => Ok reply) JsonRef.parse.

(** A bucket that takes every image but those of index 1, and the folder
    of a post as a second run finds it: two images, the composite the first
    run left, and a text file. *)
Definition bucket : UploadImages.Env :=
  UploadImages.mkEnv (rejectingPipeline canvas)
    (fun _ => Ok ["b.PNG"; "overlay-a.jpg"; "notes.txt"; "a.jpg"; "c.jpeg"]%string)
    (fun _ => Ok [255; 216; 255; 224]%N)
    (fun i => (1700 + i)%nat)
    (fun fileName _ _ =>
       Ok (if String.prefix "note1-1-" fileName then Some (newError "The resource already exists")
           else None))
    (fun fileName => Ok ("https://cdn.invalid/post-images/" ++ fileName)%string).

(** The verdict of the filter on a post, with a score, and a translation. *)
Definition verdict (score : number) : Json.t :=
  Json.JObj [(ofAscii "relevant", Json.JBool true);
             (ofAscii "score", Json.JNum score);
             (ofAscii "category", Json.JStr (ofAscii "food"));
             (ofAscii "reason", Json.JStr (ofAscii "a new noodle bar in Xuhui"))].

Definition translation : Json.t :=
  Json.JObj [(ofAscii "title_en", Json.JStr (ofAscii "Hand-pulled noodles off Yongfu Road"));
             (ofAscii "description_en", Json.JStr (ofAscii "Go before noon."));
             (ofAscii "practical_tips", Json.JStr (ofAscii "Cash only."))].

(** A post without media, with the score the filter is to give it under
    [liked_count]. *)
Definition textPost (noteId : string) (likes : number) : Main.Post :=
  Main.mkPost [(ofAscii "note_id", Json.JStr (ofAscii noteId));
               (ofAscii "title", Json.JStr greeting);
               (ofAscii "type", Json.JStr (ofAscii "normal"));
               (ofAscii "liked_count", Json.JNum likes)]
    "xiaohongshu"%string "scraper/data/xhs/images"%string.

Definition asciiText (v : Json.value) : string :=
  match v with
  | Some (Json.JStr s) => string_of_list_ascii (List.map ascii_of_N s)
  | _ => "undefined"%string
  end.

(** A run on CI in which the database holds none of the posts and the filter
    scores a post by its likes. *)
Definition newsroom : Main.Env :=
  Main.mkEnv (Some "true"%string) "scripts/data/temp-videos"%string
    "scripts/data/video-processing"%string
    asciiText (fun _ => nan)
    (fun _ _ _ => Ok (Some Json.JNull))
    (fun _ _ post => Ok (verdict (Json.toNumber (fun _ => nan) (Main.get post "liked_count"))))
    (fun _ _ _ _ => Ok translation)
    (fun _ => Main.Response 200 true)
    (ExtractAudio.ffprobe probeWithAudio)
    (dubbing dubbingSpeaker)
    (fun _ => Ok [0; 0; 0; 32]%N)
    (fun _ i => (1700 + i)%nat)
    (fun _ _ => Ok None)
    (fun fileName => Ok ("https://cdn.invalid/post-videos/" ++ fileName)%string)
    bucket.

Definition threePosts : list Main.Post :=
  [textPost "n1" 72; textPost "n2" 35; textPost "n3" 90].

Definition emptyResults : Main.Results := Main.mkResults [] [] [].

Definition freshRun : Main.Run := Main.mkRun 0 0 [].

End Sample.

(* ================================================================== *)
(** * Part II: properties                                              *)
(* ================================================================== *)

(** ** The order of binary64 numbers

    [<?] and [<=?] on primitive floats are specified by [SFcompare] on their
    unpacked form; what the proofs below need of them is asymmetry and
    transitivity of [<], and totality away from NaN. *)

Section FloatOrder.

Local Open Scope float_scope.

Lemma SFcompare_antisym (a b : spec_float) :
  SFcompare b a = option_map CompOpp (SFcompare a b).
Proof.
  destruct a as [sa|sa| |sa ma ea], b as [sb|sb| |sb mb eb]; simpl; try reflexivity;
    try (destruct sa; reflexivity); try (destruct sb; reflexivity);
    try (destruct sa, sb; reflexivity).
  change (Pos.compare_cont Eq mb ma) with (Pos.compare mb ma).
  change (Pos.compare_cont Eq ma mb) with (Pos.compare ma mb).
  destruct sa, sb; simpl; try reflexivity;
    rewrite (Z.compare_antisym ea eb); destruct (ea ?= eb)%Z; simpl; try reflexivity;
    rewrite (Pos.compare_antisym ma mb); destruct (Pos.compare ma mb); reflexivity.
Qed.

Lemma SFcompare_lt_trans (a b c : spec_float) :
  SFcompare a b = Some Lt -> SFcompare b c = Some Lt -> SFcompare a c = Some Lt.
Proof.
  destruct a as [sa|sa| |sa ma ea], b as [sb|sb| |sb mb eb], c as [sc|sc| |sc mc ec]; simpl;
    try discriminate; try (destruct sa; discriminate); try (destruct sb; discriminate);
    try (destruct sc; discriminate);
    try (destruct sa, sb; discriminate); try (destruct sb, sc; discriminate);
    try (destruct sa, sb, sc; (discriminate || reflexivity)).
  change (Pos.compare_cont Eq ma mb) with (Pos.compare ma mb);
  change (Pos.compare_cont Eq mb mc) with (Pos.compare mb mc);
  change (Pos.compare_cont Eq ma mc) with (Pos.compare ma mc).
  destruct sa, sb, sc; try discriminate; try reflexivity;
    destruct (Z.compare_spec ea eb), (Z.compare_spec eb ec), (Z.compare_spec ea ec);
    try lia; try discriminate; try reflexivity;
    destruct (Pos.compare_spec ma mb), (Pos.compare_spec mb mc), (Pos.compare_spec ma mc);
    simpl; try lia; try discriminate; try reflexivity.
Qed.

Lemma SFcompare_None (a b : spec_float) :
  SFcompare a b = None -> a = S754_nan \/ b = S754_nan.
Proof. destruct a, b; simpl; try discriminate; auto. Qed.

Lemma is_nan_Prim2SF (x : float) : PrimFloat.is_nan x = false -> Prim2SF x <> S754_nan.
Proof.
  unfold PrimFloat.is_nan. rewrite FloatAxioms.eqb_spec. unfold SFeqb.
  intros H E. rewrite E in H. discriminate.
Qed.

Lemma ltb_leb_false (x y : float) : (x <? y) = true -> (y <=? x) = false.
Proof.
  rewrite FloatAxioms.ltb_spec, FloatAxioms.leb_spec. unfold SFltb, SFleb.
  rewrite (SFcompare_antisym (Prim2SF x) (Prim2SF y)).
  destruct (SFcompare (Prim2SF x) (Prim2SF y)) as [[]|]; simpl; congruence.
Qed.

Lemma leb_ltb_false (x y : float) : (x <=? y) = true -> (y <? x) = false.
Proof.
  rewrite FloatAxioms.ltb_spec, FloatAxioms.leb_spec. unfold SFltb, SFleb.
  rewrite (SFcompare_antisym (Prim2SF x) (Prim2SF y)).
  destruct (SFcompare (Prim2SF x) (Prim2SF y)) as [[]|]; simpl; congruence.
Qed.

Lemma ltb_trans (x y z : float) : (x <? y) = true -> (y <? z) = true -> (x <? z) = true.
Proof.
  rewrite !FloatAxioms.ltb_spec. unfold SFltb. intros H1 H2.
  rewrite (SFcompare_lt_trans (Prim2SF x) (Prim2SF y) (Prim2SF z)); [reflexivity| |].
  - destruct (SFcompare (Prim2SF x) (Prim2SF y)) as [[]|]; congruence.
  - destruct (SFcompare (Prim2SF y) (Prim2SF z)) as [[]|]; congruence.
Qed.

Lemma ltb_asym (x y : float) : (x <? y) = true -> (y <? x) = false.
Proof.
  intros H. destruct (y <? x) eqn:E; [|reflexivity].
  pose proof (ltb_leb_false _ _ H) as L.
  rewrite FloatAxioms.leb_spec in L. rewrite FloatAxioms.ltb_spec in E. unfold SFltb, SFleb in *.
  destruct (SFcompare (Prim2SF y) (Prim2SF x)) as [[]|]; congruence.
Qed.

Lemma leb_false_ltb (x y : float) :
  PrimFloat.is_nan x = false -> PrimFloat.is_nan y = false ->
  (x <=? y) = false -> (y <? x) = true.
Proof.
  intros Hx Hy. apply is_nan_Prim2SF in Hx. apply is_nan_Prim2SF in Hy.
  rewrite FloatAxioms.ltb_spec, FloatAxioms.leb_spec. unfold SFltb, SFleb.
  rewrite (SFcompare_antisym (Prim2SF x) (Prim2SF y)).
  destruct (SFcompare (Prim2SF x) (Prim2SF y)) as [[]|] eqn:E; simpl; try congruence.
  apply SFcompare_None in E. tauto.
Qed.

End FloatOrder.

(** ** sync-audio.mjs *)

Section SyncAudioFacts.

Import JS Fs SyncAudio.
Local Open Scope float_scope.

(** A factor of at most 1.5 needs no chain: the loop of speedUpAudio is not
    entered and a single [atempo] is asked for. *)
Lemma atempoChain_small (n : nat) (f : number) :
  (f <=? 1.5) = true -> atempoChain (S n) f = Some [atempo (toFixed3 f)].
Proof.
  intros H. simpl. unfold gtb.
  destruct (2.0 <? f) eqn:E; [|reflexivity].
  apply leb_ltb_false in H.
  rewrite (ltb_trans 1.5 2.0 f eq_refl E) in H. discriminate.
Qed.

(** C1. For a segment that has an audio file, what syncAudioTiming does with
    it (the body of its loop, [syncSegment]) is decided by the ratio
    [r = audioDuration / duration] alone:
    - [0.95 <= r <= 1.05]: nothing is run, the audio is kept, the speed
      factor recorded is 1.0;
    - [1.05 < r <= 1.5] (1.5 included): one [atempo] at [r] is run, the
      factor recorded is [r] itself, and no warning is set;
    - [r > 1.5]: one [atempo] at 1.5 is run, the factor recorded is 1.5 and
      the warning carries the ratio;
    - [r < 0.95]: the clip is padded with [duration - audioDuration] of
      silence, which is also what is recorded.
    In the last three cases the record is pushed when ffmpeg ends, and the
    function rejects with ffmpeg's error when it fails. *)
Theorem syncAudioTiming_decision_by_ratio (env : Env) (outputDir : path) (fs : FS)
    (i : nat) (segment : Segment.t) (audioPath : path) :
  Segment.audioPath segment = Some audioPath ->
  truthyString audioPath && existsSync fs audioPath = true ->
  let r := ratioOf segment in
  let outputPath := join outputDir ("adjusted_" ++ natToString i ++ ".mp3") in
  let adjustedTo speed :=
    Segment.set_adjusted true
      (Segment.set_speedAdjustment speed
         (Segment.set_adjustedAudioPath (Some outputPath) segment)) in
  let after job (failure : string) (pushed : Segment.t) :=
    match ffmpeg env job with
    | None => Some (Ok pushed, write outputPath fs)
    | Some msg => Some (Throw (newError (failure ++ msg)%string), fs)
    end in
  ((0.95 <=? r) = true -> (r <=? 1.05) = true ->
     syncSegment env outputDir fs i segment =
     Some (Ok (Segment.set_adjusted false
                 (Segment.set_speedAdjustment 1.0
                    (Segment.set_adjustedAudioPath (Some audioPath) segment))), fs))
  /\ ((1.05 <? r) = true -> (r <=? 1.5) = true ->
     syncSegment env outputDir fs i segment =
     after (mkJob audioPath [atempo (toFixed3 r)] outputPath)
       "Speed adjustment failed: "%string (adjustedTo r))
  /\ ((1.5 <? r) = true ->
     syncSegment env outputDir fs i segment =
     after (mkJob audioPath [atempo (Fixed 1500)] outputPath)
       "Speed adjustment failed: "%string
       (Segment.set_warning (Segment.OverrunsAtCap r) (adjustedTo 1.5)))
  /\ ((r <? 0.95) = true ->
     let silence := Segment.duration segment - Segment.num (Segment.audioDuration segment) in
     syncSegment env outputDir fs i segment =
     after (mkJob audioPath [apad (toFixed3 silence)] outputPath)
       "Silence padding failed: "%string
       (Segment.set_silencePadding silence (adjustedTo 1.0))).
Proof.
  intros Hp Hex r outputPath adjustedTo after.
  unfold syncSegment. rewrite Hp, Hex. cbn [negb].
  fold (ratioOf segment). fold r. fold outputPath. unfold geb, gtb.
  repeat split.
  - intros H1 H2. rewrite H1, H2. reflexivity.
  - intros H1 H2.
    rewrite (ltb_leb_false _ _ H1), andb_false_r, H1, H2. cbn [andb].
    unfold speedUpAudio. rewrite (atempoChain_small _ _ H2).
    unfold after, adjustedTo. destruct (ffmpeg env _); reflexivity.
  - intros H1.
    assert (H2 : (1.05 <? r) = true) by (apply (ltb_trans 1.05 1.5 r); [reflexivity|exact H1]).
    rewrite (ltb_leb_false _ _ H2), andb_false_r, (ltb_leb_false _ _ H1), andb_false_r, H1.
    unfold speedUpAudio. rewrite (atempoChain_small _ 1.5 eq_refl).
    unfold after, adjustedTo. destruct (ffmpeg env _); reflexivity.
  - intros H1.
    rewrite (ltb_leb_false _ _ H1). cbn [andb].
    assert (H2 : (r <? 1.05) = true) by (apply (ltb_trans r 0.95 1.05); [exact H1|reflexivity]).
    assert (H3 : (r <? 1.5) = true) by (apply (ltb_trans r 1.05 1.5); [exact H2|reflexivity]).
    rewrite (ltb_asym _ _ H2), (ltb_asym _ _ H3). cbn [andb].
    unfold addSilence, after, adjustedTo. destruct (ffmpeg env _); reflexivity.
Qed.

End SyncAudioFacts.

Section SyncAudioScenarios.

Import JS Fs SyncAudio.
Local Open Scope float_scope.
Local Open Scope string_scope.

(** The boundary scenario of the specification: a 3.0 s segment whose clip
    measures 4.5 s has ratio exactly 1.5; it is sped up by 1.5 and carries no
    warning. *)
Lemma syncAudioTiming_decision_by_ratio_witness :
  syncSegment Sample.ffmpegEnds "synced" ["audio/segment_0.mp3"%string] 0
    (Sample.threeSeconds 4.5) =
  Some (Ok (Segment.mk (ofAscii "ni hao") (ofAscii "hello there") 0 3 3
              (Some "audio/segment_0.mp3"%string) (Some 4.5) None
              (Some "synced/adjusted_0.mp3"%string) (Some 1.5) (Some true) None None),
        ["synced/adjusted_0.mp3"%string; "audio/segment_0.mp3"%string]).
Proof.
  exact (proj1 (proj2 (syncAudioTiming_decision_by_ratio Sample.ffmpegEnds "synced"
                         ["audio/segment_0.mp3"%string] 0 (Sample.threeSeconds 4.5)
                         "audio/segment_0.mp3" eq_refl eq_refl))
           eq_refl eq_refl).
Defined.

(** The scenario past the cap: a clip of 5.0 s in the same slot has ratio
    5/3; the factor is 1.5 and the warning records the ratio. *)
Example syncAudioTiming_capped_scenario :
  syncSegment Sample.ffmpegEnds "synced" ["audio/segment_0.mp3"%string] 0
    (Sample.threeSeconds 5.0) =
  Some (Ok (Segment.mk (ofAscii "ni hao") (ofAscii "hello there") 0 3 3
              (Some "audio/segment_0.mp3"%string) (Some 5.0) None
              (Some "synced/adjusted_0.mp3"%string) (Some 1.5) (Some true)
              (Some (Segment.OverrunsAtCap (5.0 / 3))) None),
        ["synced/adjusted_0.mp3"%string; "audio/segment_0.mp3"%string]).
Proof. reflexivity. Qed.

End SyncAudioScenarios.

(** ** The per-segment stages keep the timeline *)

Section Anchors.

Import JS Fs.

Lemma hasKey_true (k : option string) :
  Spec.hasKey k -> match k with Some key => truthyString key | None => false end = true.
Proof. intros [key [-> H]]. exact H. Qed.

Lemma translateOne_anchored (env : TranslateSegments.Env) (i : nat)
    (segment : Transcribe.Segment) :
  Spec.anchoredAt segment (TranslateSegments.translateOne env i segment).
Proof.
  unfold TranslateSegments.translateOne.
  destruct (TranslateSegments.translateSegment env i _ _); split; reflexivity.
Qed.

Lemma translateLoop_anchored (env : TranslateSegments.Env) (segments : list Transcribe.Segment) :
  forall i, Forall2 Spec.anchoredAt segments (TranslateSegments.translateLoop env i segments).
Proof.
  induction segments as [|segment rest IH]; intros i; simpl; constructor.
  - apply translateOne_anchored.
  - apply IH.
Qed.

Lemma generateOne_keeps (env : TextToSpeech.Env) (outputDir : path) (voiceId : string)
    (fs : FS) (i : nat) (segment : Segment.t) :
  let out := fst (TextToSpeech.generateOne env outputDir voiceId fs i segment) in
  Spec.sameAnchors segment out /\ Spec.keepsTranslation segment out.
Proof.
  unfold TextToSpeech.generateOne.
  destruct (TextToSpeech.speak env i _ voiceId); [destruct (TextToSpeech.probe env _)|];
    simpl; repeat split.
Qed.

Lemma generateLoop_keeps (env : TextToSpeech.Env) (outputDir : path) (voiceId : string)
    (segments : list Segment.t) :
  forall fs i,
    Forall2 (fun input output => Spec.sameAnchors input output /\ Spec.keepsTranslation input output)
      segments (fst (TextToSpeech.generateLoop env outputDir voiceId fs i segments)).
Proof.
  induction segments as [|segment rest IH]; intros fs i; simpl.
  - constructor.
  - pose proof (generateOne_keeps env outputDir voiceId fs i segment) as H.
    destruct (TextToSpeech.generateOne env outputDir voiceId fs i segment) as [r fs1].
    specialize (IH fs1 (S i)).
    destruct (TextToSpeech.generateLoop env outputDir voiceId fs1 (S i) rest) as [rs fs2].
    simpl in *. constructor; assumption.
Qed.

Lemma syncSegment_keeps (env : SyncAudio.Env) (outputDir : path) (fs fs' : FS) (i : nat)
    (segment out : Segment.t) :
  SyncAudio.syncSegment env outputDir fs i segment = Some (Ok out, fs') ->
  Spec.sameAnchors segment out /\ Spec.keepsAudio segment out.
Proof.
  unfold SyncAudio.syncSegment, SyncAudio.speedUpAudio, SyncAudio.addSilence.
  intros H.
  repeat match type of H with
         | context [match ?x with _ => _ end] => destruct x
         | context [if ?x then _ else _] => destruct x
         end;
    try discriminate; injection H as <- _; repeat split.
Qed.

Lemma syncLoop_keeps (env : SyncAudio.Env) (outputDir : path) (segments : list Segment.t) :
  forall fs i out fs',
    SyncAudio.syncLoop env outputDir fs i segments = Some (Ok out, fs') ->
    Forall2 (fun input output => Spec.sameAnchors input output /\ Spec.keepsAudio input output)
      segments out.
Proof.
  induction segments as [|segment rest IH]; intros fs i out fs'; simpl.
  - intros H. injection H as <- _. constructor.
  - destruct (SyncAudio.syncSegment env outputDir fs i segment) as [[[r|e] fs1]|] eqn:E;
      try discriminate.
    destruct (SyncAudio.syncLoop env outputDir fs1 (S i) rest) as [[[rs|e] fs2]|] eqn:L;
      try discriminate.
    intros H. injection H as <- _. constructor.
    + exact (syncSegment_keeps _ _ _ _ _ _ _ E).
    + exact (IH _ _ _ _ L).
Qed.

End Anchors.

Section StagesKeepTimeline.

Import JS Fs.
Local Open Scope float_scope.

Lemma syncSegment_returns (env : SyncAudio.Env) (outputDir : path) (fs : FS) (i : nat)
    (segment : Segment.t) :
  (forall job, SyncAudio.ffmpeg env job = None) ->
  exists out fs', SyncAudio.syncSegment env outputDir fs i segment = Some (Ok out, fs').
Proof.
  intros Hff. unfold SyncAudio.syncSegment.
  destruct (Segment.audioPath segment) as [audioPath|]; [|eauto].
  destruct (negb _); [eauto|].
  destruct (geb _ 0.95 && _); [eauto|].
  destruct (gtb _ 1.05 && (_ <=? 1.5)) eqn:E2.
  - apply andb_true_iff in E2 as [_ E2].
    unfold SyncAudio.speedUpAudio. rewrite (atempoChain_small _ _ E2), Hff. eauto.
  - destruct (gtb _ 1.5).
    + unfold SyncAudio.speedUpAudio.
      rewrite (atempoChain_small _ 1.5 eq_refl), Hff. eauto.
    + unfold SyncAudio.addSilence. rewrite Hff. eauto.
Qed.

Lemma syncLoop_returns (env : SyncAudio.Env) (outputDir : path) (segments : list Segment.t) :
  (forall job, SyncAudio.ffmpeg env job = None) ->
  forall fs i, exists out fs', SyncAudio.syncLoop env outputDir fs i segments = Some (Ok out, fs').
Proof.
  intros Hff. induction segments as [|segment rest IH]; intros fs i; simpl.
  - eauto.
  - destruct (syncSegment_returns env outputDir fs i segment Hff) as [r [fs1 ->]].
    destruct (IH fs1 (S i)) as [rs [fs2 ->]]. eauto.
Qed.

(** C8. Each per-segment stage returns one record per input segment, in
    order, and the record has the [start] and [end] of its input; what a
    stage adds lies beside what was there:
    - translateSegments, given its API key, returns, whatever the translation
      service answers;
    - generateAllSegments, given its API key, returns, whatever the speech
      service answers, and keeps texts and duration too;
    - syncAudioTiming keeps everything the earlier stages wrote whenever it
      returns, and it returns when ffmpeg ends every job it is given. *)
Theorem stages_keep_timeline_anchors :
  (forall (env : TranslateSegments.Env) (segments : list Transcribe.Segment),
      Spec.hasKey (TranslateSegments.OPENAI_API_KEY env) ->
      exists out,
        TranslateSegments.translateSegments env segments = Ok out
        /\ Forall2 Spec.anchoredAt segments out)
  /\ (forall (env : TextToSpeech.Env) (fs : FS) (segments : list Segment.t)
        (outputDir : path) (voiceId : string),
      Spec.hasKey (TextToSpeech.ELEVENLABS_API_KEY env) ->
      exists out fs',
        TextToSpeech.generateAllSegments env fs segments outputDir voiceId = (Ok out, fs')
        /\ Forall2 (fun input output =>
                      Spec.sameAnchors input output /\ Spec.keepsTranslation input output)
             segments out)
  /\ (forall (env : SyncAudio.Env) (fs : FS) (segments : list Segment.t) (outputDir : path),
        (forall out fs',
            SyncAudio.syncAudioTiming env fs segments outputDir = Some (Ok out, fs') ->
            Forall2 (fun input output =>
                       Spec.sameAnchors input output /\ Spec.keepsAudio input output)
              segments out)
        /\ ((forall job, SyncAudio.ffmpeg env job = None) ->
            exists out fs',
              SyncAudio.syncAudioTiming env fs segments outputDir = Some (Ok out, fs'))).
Proof.
  split; [|split].
  - intros env segments Hk. unfold TranslateSegments.translateSegments.
    rewrite (hasKey_true _ Hk). cbn [negb].
    destruct segments as [|s rest].
    + exists []. split; [reflexivity|constructor].
    + eexists. split; [reflexivity|]. apply translateLoop_anchored.
  - intros env fs segments outputDir voiceId Hk. unfold TextToSpeech.generateAllSegments.
    rewrite (hasKey_true _ Hk). cbn [negb].
    destruct segments as [|s rest].
    + exists [], fs. split; [reflexivity|constructor].
    + pose proof (generateLoop_keeps env outputDir voiceId (s :: rest) fs 0) as H.
      destruct (TextToSpeech.generateLoop env outputDir voiceId fs 0 (s :: rest)) as [out fs1].
      exists out, fs1. split; [reflexivity|exact H].
  - intros env fs segments outputDir. split.
    + intros out fs'. apply syncLoop_keeps.
    + intros Hff. apply syncLoop_returns. exact Hff.
Qed.

End StagesKeepTimeline.

(** ** transcribe.mjs: the retry policy *)

Section RetryPolicy.

Import JS Fs Transcribe.

Variable env : Env.

Lemma status_other (A : Type) (e : Error) (a b : A) :
  status e <> Some 400%Z ->
  match status e with
  | Some 400%Z => a
  | _ => b
  end = b.
Proof.
  intros H. destruct (status e) as [z|]; [|reflexivity].
  destruct (Z.eq_dec z 400) as [->|Hz]; [congruence|].
  destruct z as [|p|p]; try reflexivity.
  do 9 (destruct p as [p|p|]; try reflexivity). all: congruence.
Qed.

Lemma status_400_dec (e : Error) : {status e = Some 400%Z} + {status e <> Some 400%Z}.
Proof.
  destruct (status e) as [z|]; [|right; discriminate].
  destruct (Z.eq_dec z 400) as [->|Hz]; [left; reflexivity|right; congruence].
Qed.

(** One failed attempt that is worth retrying: the loop pauses as due, asks,
    and goes on to the next attempt. *)
Lemma attempts_retry (n attempt : nat) (lastError : option Error) (trace : list Event)
    (e : Error) :
  Spec.retryable (create env attempt) e ->
  attempts env (S n) attempt lastError trace =
  attempts env n (S attempt) (Some e) (trace ++ Spec.schedule attempt 1).
Proof.
  intros [E S0]. cbn [attempts Spec.schedule]. rewrite E, (status_other _ _ _ _ S0).
  unfold Spec.backoff. destruct (Nat.ltb 1 attempt); rewrite <- ?app_assoc; reflexivity.
Qed.

(** After [j] such failures in a row the loop has paused and asked as
    [schedule] says, and goes on with the attempts that are left. *)
Lemma attempts_after_failures (j : nat) :
  forall (n attempt : nat) (lastError : option Error) (trace : list Event),
    (j <= n)%nat ->
    (forall i, (i < j)%nat -> exists e, Spec.retryable (create env (attempt + i)) e) ->
    attempts env n attempt lastError trace =
    attempts env (n - j) (attempt + j) (Spec.lastErrorAfter env lastError attempt j)
      (trace ++ Spec.schedule attempt j).
Proof.
  induction j as [|j IH]; intros n attempt lastError trace Hle Hfail.
  - rewrite Nat.sub_0_r, Nat.add_0_r, app_nil_r. reflexivity.
  - destruct n as [|n]; [lia|].
    destruct (Hfail 0%nat ltac:(lia)) as [e0 R0]. rewrite Nat.add_0_r in R0.
    rewrite (attempts_retry n attempt lastError trace e0 R0).
    rewrite (IH n (S attempt) (Some e0)); [|lia|].
    + cbn [Spec.schedule Nat.sub app]. rewrite <- app_assoc.
      replace (S attempt + j)%nat with (attempt + S j)%nat by lia.
      f_equal.
      * destruct j as [|j]; cbn [Spec.lastErrorAfter].
        -- rewrite Nat.add_0_r. destruct R0 as [-> _]. reflexivity.
        -- replace (S attempt + j)%nat with (attempt + S j)%nat by lia. reflexivity.
      * rewrite <- app_assoc. reflexivity.
    + intros i Hi. replace (S attempt + i)%nat with (attempt + S i)%nat by lia.
      apply Hfail. lia.
Qed.

(** C7. Once its checks have passed, transcribeAudio asks the service at most
    three times.  Let attempts 1 to k-1 fail in a way other than status 400;
    then it has paused and asked exactly as [schedule 1 k] says (4 s before
    the second attempt, 8 s before the third), and
    - if attempt k is rejected with status 400 it raises at once, without a
      further request;
    - if attempt k succeeds it returns the transcription;
    - if attempt k = 3 fails in another way too, it raises, the cap being
      exhausted.
    It raises in no other case. *)
Theorem transcribeAudio_retry_policy (fs : FS) (audioPath : path) :
  Spec.requestAllowed env fs audioPath ->
  (forall k, (1 <= k <= 3)%nat ->
     (forall j, (1 <= j < k)%nat -> exists e, Spec.retryable (create env j) e) ->
     (forall e, Spec.rejected (create env k) e ->
        transcribeAudio env fs audioPath =
        (Throw (newError ("Whisper API rejected the audio: " ++ message e)),
         Spec.schedule 1 k))
     /\ (forall response, create env k = Ok response ->
        transcribeAudio env fs audioPath = (Ok (parseResponse response), Spec.schedule 1 k))
     /\ (forall e, k = 3%nat -> Spec.retryable (create env k) e ->
        transcribeAudio env fs audioPath =
        (Throw (newError ("Whisper transcription failed after 3 attempts: " ++ message e)),
         Spec.schedule 1 3)))
  /\ (forall e trace, transcribeAudio env fs audioPath = (Throw e, trace) ->
        (exists k e', (1 <= k <= 3)%nat /\ Spec.rejected (create env k) e'
                      /\ trace = Spec.schedule 1 k)
        \/ ((forall j, (1 <= j <= 3)%nat -> exists e', Spec.retryable (create env j) e')
            /\ trace = Spec.schedule 1 3)).
Proof.
  intros [Hkey [Hex Hsize]].
  assert (Hrun : transcribeAudio env fs audioPath = attempts env MAX_RETRIES 1 None []).
  { unfold transcribeAudio. rewrite (hasKey_true _ Hkey), Hex. cbn [negb].
    destruct (Z.ltb_spec (25 * 1024 * 1024) (fileSize env audioPath)); [lia|reflexivity]. }
  rewrite Hrun. unfold MAX_RETRIES. split.
  - intros k Hk Hfail.
    assert (Hpre : attempts env 3 1 None [] =
                   attempts env (3 - (k - 1)) k (Spec.lastErrorAfter env None 1 (k - 1))
                     (Spec.schedule 1 (k - 1))).
    { rewrite (attempts_after_failures (k - 1) 3 1 None []); [|lia|].
      - replace (1 + (k - 1))%nat with k by lia. reflexivity.
      - intros i Hi. apply Hfail. lia. }
    assert (Hsched : Spec.schedule 1 (k - 1) ++ Spec.schedule k 1 = Spec.schedule 1 k).
    { destruct k as [|[|[|[|k]]]]; try lia; reflexivity. }
    rewrite Hpre. destruct (3 - (k - 1))%nat as [|n] eqn:En; [lia|].
    repeat split.
    + intros e [E S4]. cbn [attempts]. rewrite E, S4, <- Hsched.
      cbn [Spec.schedule]. unfold Spec.backoff.
      destruct (Nat.ltb 1 k); rewrite <- ?app_assoc; reflexivity.
    + intros response E. cbn [attempts]. rewrite E, <- Hsched.
      cbn [Spec.schedule]. unfold Spec.backoff.
      destruct (Nat.ltb 1 k); rewrite <- ?app_assoc; reflexivity.
    + intros e -> R. cbn in En. injection En as <-.
      rewrite (attempts_retry 0 3 _ _ e R). reflexivity.
  - intros e trace.
    destruct (create env 1) as [r1|e1] eqn:E1.
    { cbn [attempts]. rewrite E1. discriminate. }
    destruct (status_400_dec e1) as [S1|S1].
    { cbn [attempts]. rewrite E1, S1. intros H. injection H as _ <-.
      left. exists 1%nat, e1. repeat split; auto. }
    rewrite (attempts_retry 2 1 None [] e1 (conj E1 S1)).
    destruct (create env 2) as [r2|e2] eqn:E2.
    { cbn [attempts]. rewrite E2. discriminate. }
    destruct (status_400_dec e2) as [S2|S2].
    { cbn [attempts]. rewrite E2, S2. intros H. injection H as _ <-.
      left. exists 2%nat, e2. repeat split; auto. }
    rewrite (attempts_retry 1 2 _ _ e2 (conj E2 S2)).
    destruct (create env 3) as [r3|e3] eqn:E3.
    { cbn [attempts]. rewrite E3. discriminate. }
    destruct (status_400_dec e3) as [S3|S3].
    { cbn [attempts]. rewrite E3, S3. intros H. injection H as _ <-.
      left. exists 3%nat, e3. repeat split; auto. }
    rewrite (attempts_retry 0 3 _ _ e3 (conj E3 S3)).
    cbn [attempts]. intros H. injection H as _ <-.
    right. split; [|reflexivity].
    intros j Hj. destruct j as [|[|[|[|j]]]]; try lia.
    + exists e1. split; assumption.
    + exists e2. split; assumption.
    + exists e3. split; assumption.
Qed.

End RetryPolicy.

Section PipelineWitnesses.

Import JS Fs.
Local Open Scope float_scope.
Local Open Scope string_scope.

(** A request rejected at the second attempt, after one retry: two requests,
    one pause of four seconds, no third request. *)
Lemma transcribeAudio_retry_policy_witness :
  Transcribe.transcribeAudio Sample.whisperRejecting ["audio-whisper.mp3"] "audio-whisper.mp3" =
  (Throw (newError "Whisper API rejected the audio: invalid file format"),
   [Transcribe.Request 1; Transcribe.Sleep 4000; Transcribe.Request 2]).
Proof.
  refine (proj1 (proj1 (transcribeAudio_retry_policy Sample.whisperRejecting
                          ["audio-whisper.mp3"] "audio-whisper.mp3" _) 2%nat _ _)
            Sample.badAudio _).
  - split; [exists "sk-test"; split; reflexivity|split; [reflexivity|]].
    apply Z.leb_le. reflexivity.
  - lia.
  - intros j Hj. assert (j = 1%nat) as -> by lia.
    exists Sample.rateLimited. split; [reflexivity|discriminate].
  - split; reflexivity.
Defined.

(** The three stages run one after the other on two segments. *)
Lemma stages_keep_timeline_anchors_witness :
  (exists out,
      TranslateSegments.translateSegments Sample.translator Sample.transcribed = Ok out
      /\ Forall2 Spec.anchoredAt Sample.transcribed out)
  /\ (exists out fs',
         SyncAudio.syncAudioTiming Sample.ffmpegEnds ["audio/segment_0.mp3"]
           [Sample.threeSeconds 4.5] "synced" = Some (Ok out, fs')).
Proof.
  destruct stages_keep_timeline_anchors as [T [_ Y]]. split.
  - apply T. exists "sk-test". split; reflexivity.
  - apply (Y Sample.ffmpegEnds). reflexivity.
Defined.

(** What the stages make of these segments: the second translation falls
    back to the source text, the second clip to no audio; anchors stay. *)
Example translateSegments_sample :
  TranslateSegments.translateSegments Sample.translator Sample.transcribed =
  Ok [Segment.mk (ofAscii "ni hao") (ofAscii "hello") 0.5 2.5 2
        None None None None None None None None;
      Segment.mk (ofAscii "zai jian") (ofAscii "zai jian") 3 6 3
        None None None None None None None None].
Proof. reflexivity. Qed.

Example generateAllSegments_sample :
  fst (TextToSpeech.generateAllSegments Sample.speaker []
         [Segment.mk (ofAscii "ni hao") (ofAscii "hello") 0.5 2.5 2
            None None None None None None None None;
          Segment.mk (ofAscii "zai jian") (ofAscii "zai jian") 3 6 3
            None None None None None None None None]
         "audio" "Rachel") =
  Ok [Segment.mk (ofAscii "ni hao") (ofAscii "hello") 0.5 2.5 2
        (Some "audio/segment_0.mp3") (Some 2.4) None None None None None None;
      Segment.mk (ofAscii "zai jian") (ofAscii "zai jian") 3 6 3
        None (Some 3) (Some "Could not get audio duration") None None None None None].
Proof. reflexivity. Qed.

End PipelineWitnesses.

(** ** analyze-with-google-vision.mjs: the size filter *)

Section SizeFilter.

Import JS Fs GoogleVision.
Local Open Scope float_scope.

Lemma blockOf_percent (imgWidth imgHeight : number) (i : nat) (p : Paragraph) :
  match Spec.boxPercent imgWidth imgHeight p with
  | Some (wp, hp) =>
      if tooSmall wp hp
      then blockOf imgWidth imgHeight i p = Ok None
      else exists b, blockOf imgWidth imgHeight i p = Ok (Some b)
                     /\ index b = i /\ width_percent b = wp /\ height_percent b = hp
  | None => exists e, blockOf imgWidth imgHeight i p = Throw e
  end.
Proof.
  unfold Spec.boxPercent, blockOf, vertexAt.
  destruct (nth_error (vertices p) 0) as [v0|]; cbn [bind]; [|eauto].
  destruct (nth_error (vertices p) 2) as [v2|]; cbn [bind]; [|eauto].
  destruct (tooSmall _ _); [reflexivity|].
  eexists. repeat split.
Qed.

Lemma extractTextBlocks_candidates (imgWidth imgHeight : number) (paragraphs : list Paragraph) :
  forall acc blocks,
    extractTextBlocks imgWidth imgHeight paragraphs acc = Ok blocks ->
    exists kept,
      blocks = acc ++ kept
      /\ List.map (fun b => (width_percent b, height_percent b)) kept =
         Spec.candidates imgWidth imgHeight paragraphs
      /\ List.map index kept = seq (List.length acc) (List.length kept).
Proof.
  induction paragraphs as [|p rest IH]; intros acc blocks; cbn [extractTextBlocks].
  - intros H. injection H as <-. exists []. rewrite app_nil_r. repeat split.
  - pose proof (blockOf_percent imgWidth imgHeight (List.length acc) p) as Hb.
    unfold Spec.candidates. cbn [flat_map]. fold (Spec.candidates imgWidth imgHeight rest).
    destruct (Spec.boxPercent imgWidth imgHeight p) as [[wp hp]|].
    + unfold tooSmall, MIN_WIDTH_PERCENT, MIN_HEIGHT_PERCENT in Hb.
      destruct ((wp <? 2) && (hp <? 1.5)).
      * rewrite Hb. cbn [bind]. apply IH.
      * destruct Hb as [b [-> [Hi [Hw Hh]]]]. cbn [bind]. intros H.
        destruct (IH _ _ H) as [kept [-> [Hk Hidx]]].
        exists (b :: kept). rewrite <- app_assoc. cbn [List.map app List.length seq].
        rewrite Hw, Hh, Hk, Hi. repeat split.
        rewrite Hidx, length_app, Nat.add_1_r. reflexivity.
    + destruct Hb as [e ->]. discriminate.
Qed.

(** C9. A paragraph is discarded by the size filter exactly when both its
    width is below 2 percent of the image width and its height is below 1.5
    percent of the image height; when either is not, the paragraph becomes a
    candidate with these percentages.  Over a whole annotation, the blocks
    extracted are the paragraphs that are not tiny in both dimensions, in
    order and numbered from 0. *)
Theorem size_filter_discards_only_when_both_tiny (imgWidth imgHeight : number) :
  (forall (i : nat) (p : Paragraph) (wp hp : number),
      Spec.boxPercent imgWidth imgHeight p = Some (wp, hp) ->
      (blockOf imgWidth imgHeight i p = Ok None
       <-> (wp <? 2) = true /\ (hp <? 1.5) = true)
      /\ ((wp <? 2) = false \/ (hp <? 1.5) = false ->
          exists b, blockOf imgWidth imgHeight i p = Ok (Some b)
                    /\ width_percent b = wp /\ height_percent b = hp))
  /\ (forall (paragraphs : list Paragraph) (blocks : list TextBlock),
      extractTextBlocks imgWidth imgHeight paragraphs [] = Ok blocks ->
      List.map (fun b => (width_percent b, height_percent b)) blocks =
      Spec.candidates imgWidth imgHeight paragraphs
      /\ List.map index blocks = seq 0 (List.length blocks)).
Proof.
  split.
  - intros i p wp hp Hp.
    pose proof (blockOf_percent imgWidth imgHeight i p) as Hb. rewrite Hp in Hb.
    unfold tooSmall, MIN_WIDTH_PERCENT, MIN_HEIGHT_PERCENT in Hb.
    destruct (wp <? 2) eqn:Ew, (hp <? 1.5) eqn:Eh; cbn [andb] in Hb.
    + split; [split; [auto|intros _; exact Hb]|intros [?|?]; discriminate].
    + destruct Hb as [b [Hb [_ [Hw Hh]]]].
      split; [split; [rewrite Hb; discriminate|intros [_ ?]; discriminate]|].
      intros _. exists b. auto.
    + destruct Hb as [b [Hb [_ [Hw Hh]]]].
      split; [split; [rewrite Hb; discriminate|intros [? _]; discriminate]|].
      intros _. exists b. auto.
    + destruct Hb as [b [Hb [_ [Hw Hh]]]].
      split; [split; [rewrite Hb; discriminate|intros [? _]; discriminate]|].
      intros _. exists b. auto.
  - intros paragraphs blocks H.
    destruct (extractTextBlocks_candidates _ _ _ _ _ H) as [kept [-> [Hk Hidx]]].
    split; assumption.
Qed.

End SizeFilter.

Section SizeFilterScenario.

Import JS Fs GoogleVision.
Local Open Scope float_scope.

(** A caption, a watermark of 16 by 14 pixels and a line 540 pixels long but
    14 high, in an image of 1080 by 1440: the watermark, under 2 percent
    wide and under 1.5 percent high, is dropped; the thin line, under 1.5
    percent high only, stays and is block 1. *)
Example extractTextBlocks_scenario :
  Spec.boxPercent 1080 1440 Sample.watermark = Some (16 / 1080 * 100, 14 / 1440 * 100)
  /\ Spec.boxPercent 1080 1440 Sample.thinCaption = Some (50, 14 / 1440 * 100)
  /\ extractTextBlocks 1080 1440 [Sample.caption; Sample.watermark; Sample.thinCaption] [] =
     Ok [Sample.captionBlock;
         mkTextBlock 1 Sample.greeting 108 144 540 14 10 10 50 (14 / 1440 * 100)].
Proof. repeat split; vm_compute; reflexivity. Qed.

End SizeFilterScenario.

(** ** validate-with-claude.mjs: what the validator reports *)

Section Validator.

Import JS Fs Validate.
Local Open Scope float_scope.

Lemma logged_cases (env : Env) (v : Json.value) :
  logged env v = Ok tt \/ exists e, logged env v = Throw e.
Proof.
  unfold logged. destruct v as [[| | |[|c s]| |fields]|]; eauto.
  destruct (gtb _ 0); eauto.
Qed.

(** C10. validateImageTranslation returns, whatever the services do.  It
    reports success when the call for the verdict throws, when the reply
    holds no braced text with the [all_translated] key, and when that text
    does not parse.  It reports failure only for a reply that parsed and in
    which [all_translated] is falsy, [quality_score >= 80] does not hold, or
    [gibberish_detected] is truthy; and for a score that is a number,
    [quality_score >= 80] not holding means the score is below 80. *)
Theorem validateImageTranslation_assumes_success (env : Env) (editedImagePath : path)
    (expectedOverlays : list Overlay.t) :
  exists v,
    validateImageTranslation env editedImagePath expectedOverlays = Ok v
    /\ (forall e, Spec.validatorReply env editedImagePath expectedOverlays = Throw e ->
        success v = true)
    /\ (forall text,
        Spec.validatorReply env editedImagePath expectedOverlays = Ok text ->
        ClaudeVision.matchBraced "all_translated" text = None ->
        success v = true)
    /\ (forall text jsonMatch,
        Spec.validatorReply env editedImagePath expectedOverlays = Ok text ->
        ClaudeVision.matchBraced "all_translated" text = Some jsonMatch ->
        parse env jsonMatch = None ->
        success v = true)
    /\ (success v = false ->
        exists text jsonMatch parsed all_translated quality gibberish_detected,
          Spec.validatorReply env editedImagePath expectedOverlays = Ok text
          /\ ClaudeVision.matchBraced "all_translated" text = Some jsonMatch
          /\ parse env jsonMatch = Some parsed
          /\ Json.getProp (Some parsed) "all_translated" = Ok all_translated
          /\ Json.getProp (Some parsed) "quality_score" = Ok quality
          /\ Json.getProp (Some parsed) "gibberish_detected" = Ok gibberish_detected
          /\ (Json.truthy all_translated = false
              \/ atLeast80 env quality = false
              \/ Json.truthy gibberish_detected = true
              )
          /\ (forall n, quality = Some (Json.JNum n) -> PrimFloat.is_nan n = false ->
              atLeast80 env quality = false -> (n <? 80) = true)).
Proof.
  unfold validateImageTranslation.
  destruct expectedOverlays as [|o os].
  { eexists. split; [reflexivity|]. repeat split; try reflexivity. discriminate. }
  set (overlays := o :: os).
  unfold validate, Spec.validatorReply.
  destruct (readFileSync env editedImagePath) as [buf|e0]; cbn [bind tryCatch].
  2:{ eexists. split; [reflexivity|]. repeat split; try reflexivity; discriminate. }
  destruct (messagesCreate env editedImagePath buf _ overlays) as [text|e1]; cbn [bind tryCatch].
  2:{ eexists. split; [reflexivity|]. repeat split; try reflexivity; discriminate. }
  destruct (ClaudeVision.matchBraced "all_translated" text) as [jsonMatch|] eqn:Em.
  2:{ eexists. split; [reflexivity|]. repeat split; try reflexivity; discriminate. }
  unfold Json.JSON_parse.
  destruct (parse env jsonMatch) as [parsed|] eqn:Ep; cbn [bind tryCatch].
  2:{ eexists. split; [reflexivity|]. repeat split; try reflexivity; discriminate. }
  destruct (Json.getProp (Some parsed) "all_translated") as [a|e2] eqn:Ea; cbn [bind tryCatch].
  2:{ eexists. split; [reflexivity|]. repeat split; try reflexivity; discriminate. }
  assert (Hother : forall k, exists w, Json.getProp (Some parsed) k = Ok w).
  { intros k. destruct parsed; try discriminate; cbn; eauto. }
  destruct (Hother "quality_score"%string) as [q Eq].
  destruct (Hother "gibberish_detected"%string) as [g Eg].
  destruct (Hother "reason"%string) as [r Er].
  destruct (Hother "untranslated_chinese"%string) as [u Eu].
  destruct (Hother "missing_english"%string) as [m Emi].
  rewrite Eq, Eg, Er, Eu, Emi. cbn [bind].
  destruct (verdict env a q g) eqn:Ev; cbn [bind tryCatch].
  { eexists. split; [reflexivity|]. cbn [success]. repeat split; try reflexivity. discriminate. }
  assert (Hcause : Json.truthy a = false \/ atLeast80 env q = false \/ Json.truthy g = true).
  { unfold verdict in Ev. destruct (Json.truthy a); [|auto].
    destruct (atLeast80 env q); [|auto]. destruct (Json.truthy g); [auto|discriminate]. }
  assert (Hnum : forall n, q = Some (Json.JNum n) -> PrimFloat.is_nan n = false ->
                           atLeast80 env q = false -> (n <? 80) = true).
  { intros n -> Hn. unfold atLeast80, geb. cbn [Json.toNumber]. intros H.
    apply (leb_false_ltb 80 n); [reflexivity|exact Hn|exact H]. }
  destruct (logged_cases env u) as [->|[e3 ->]]; cbn [bind tryCatch].
  2:{ eexists. split; [reflexivity|]. repeat split; try reflexivity; discriminate. }
  destruct (logged_cases env m) as [->|[e4 ->]]; cbn [bind tryCatch].
  2:{ eexists. split; [reflexivity|]. repeat split; try reflexivity; discriminate. }
  eexists. split; [reflexivity|]. cbn [success].
  split; [discriminate|]. split; [intros t H; injection H as <-; congruence|].
  split; [intros t j H; injection H as <-; congruence|].
  intros _. exists text, jsonMatch, parsed, a, q, g. repeat split; assumption.
Qed.

End Validator.

Section ValidatorScenarios.

Import JS Fs Validate.
Local Open Scope float_scope.
Local Open Scope string_scope.

(** A reply that reports Chinese text still visible, with a score of 40:
    the edit is rejected. *)
Example validateImageTranslation_rejects_scenario :
  validateImageTranslation Sample.validatorRejects "images/note1/edited-1.jpg"
    [Sample.greetingOverlay] =
  Ok (mkValidation false (Reported (Some (Json.JStr (ofAscii "Chinese text still visible"))))
        (Some (Json.JNum 40))
        (Some (Json.JArr [Json.JStr Sample.greeting]))
        (Some (Json.JArr [Json.JStr (ofAscii "Hello")]))
        (Some (Json.JBool false))).
Proof. vm_compute. reflexivity. Qed.

(** The model is overloaded, or answers in prose: the edit is accepted. *)
Example validateImageTranslation_assumes_scenario :
  validateImageTranslation
    (mkEnv (readFileSync Sample.validatorRejects)
       (fun _ _ _ _ => Throw (mkError (Some 529%Z) "overloaded"))
       JsonRef.parse (fun _ => nan))
    "images/note1/edited-1.jpg" [Sample.greetingOverlay] =
  Ok (assumed ValidationErrorAssumingSuccess)
  /\ validateImageTranslation
       (mkEnv (readFileSync Sample.validatorRejects)
          (fun _ _ _ _ => Ok (ofAscii "The image looks fine to me."))
          JsonRef.parse (fun _ => nan))
       "images/note1/edited-1.jpg" [Sample.greetingOverlay] =
     Ok (assumed ValidationInconclusive).
Proof. split; vm_compute; reflexivity. Qed.

End ValidatorScenarios.

(** ** analyze-with-google-vision.mjs: reading the classifier's reply *)

Section LenientParsing.

Import JS Fs.






End LenientParsing.

Section LenientParsingScenario.

Import JS Fs.

(** Not every cut is repaired: a reply that breaks off inside its first
    overlay has no complete object to fall back on; closing what is open
    leaves a key without a value, the third attempt fails too and the
    result is [null]. *)
Example callHaikuForOverlays_cut_in_first_overlay :
  let reply := quoted "{`index`: 0, `chinese`: `" ++ Sample.greeting ++ quoted "`, `engl" in
  Repair.closeTruncated (Repair.cleanJson (quoted "{`overlays`: [" ++ reply)) =
  quoted "{`overlays`: [{`index`: 0, `chinese`: `" ++ Sample.greeting ++ quoted "`, `engl]}}"
  /\ GoogleVision.callHaikuForOverlays (Sample.classifier reply) 0 [] [] "image/jpeg"%string = Ok None.
Proof. split; vm_compute; reflexivity. Qed.

End LenientParsingScenario.

(** ** simple-text-overlay.mjs: what wordWrap guarantees *)

Section WordWrap.

Import JS Fs TextOverlay.
Local Open Scope float_scope.

Variable env : Env.
Variable text : jsstring.

(** A line is in order when it is no wider than [maxWidth], or when it is one
    of the words of the text on its own. *)
Let inOrder (maxWidth size : number) (line : jsstring) : Prop :=
  gtb (measureText env size line) maxWidth = false \/ In line (split Repair.SPACE text).

Lemma wrapWords_inOrder (maxWidth size : number) (words : list jsstring) :
  forall (cur : jsstring) (wrapped : list jsstring),
    (forall w, In w words -> In w (split Repair.SPACE text)) ->
    (truthyText cur = true -> inOrder maxWidth size cur) ->
    (forall l, In l wrapped -> inOrder maxWidth size l) ->
    forall line,
      In line (wrapWords (measureText env size) maxWidth words cur wrapped) ->
      inOrder maxWidth size line.
Proof.
  induction words as [|w rest IH]; intros cur wrapped Hwords Hcur Hwrapped line; cbn [wrapWords].
  - destruct (truthyText cur) eqn:Ec; [|apply Hwrapped].
    intros Hin. apply in_app_or in Hin as [Hin|[<-|[]]]; [apply Hwrapped; exact Hin|].
    apply Hcur. reflexivity.
  - set (test := if truthyText cur then cur ++ [Repair.SPACE] ++ w else w).
    destruct (gtb (measureText env size test) maxWidth) eqn:Ew;
      [destruct (truthyText cur) eqn:Ec|]; cbn [andb].
    + apply IH.
      * intros w' Hw'. apply Hwords. right. exact Hw'.
      * intros _. right. apply Hwords. left. reflexivity.
      * intros l Hl. apply in_app_or in Hl as [Hl|[<-|[]]]; [apply Hwrapped; exact Hl|].
        apply Hcur. reflexivity.
    + apply IH.
      * intros w' Hw'. apply Hwords. right. exact Hw'.
      * intros _. right. unfold test. apply Hwords. left. reflexivity.
      * exact Hwrapped.
    + apply IH.
      * intros w' Hw'. apply Hwords. right. exact Hw'.
      * intros _. left. exact Ew.
      * exact Hwrapped.
Qed.

Lemma wordWrap_inOrder (maxWidth size : number) (line : jsstring) :
  In line (wordWrap env text maxWidth size) -> inOrder maxWidth size line.
Proof.
  unfold wordWrap. apply wrapWords_inOrder.
  - auto.
  - discriminate.
  - intros l [].
Qed.

(** C5, as the code has it. Whatever the font metrics, every line wordWrap
    returns is either no wider than the box width less twice the padding,
    or a single word of the text that is wider than that on its own; the
    same holds of the lines the auto-shrink loop ends with, at the font size
    it ends with. *)
Theorem wordWrap_lines_fit_or_are_single_words :
  (forall (maxWidth size : number) (line : jsstring),
      In line (wordWrap env text maxWidth size) ->
      gtb (measureText env size line) maxWidth = false
      \/ In line (split Repair.SPACE text))
  /\ (forall (boxWidth boxHeight fontSize : number) (lines : list jsstring),
      fitText env text boxWidth boxHeight = Some (fontSize, lines) ->
      forall line,
        In line lines ->
        gtb (measureText env fontSize line) (boxWidth - padding * 2) = false
        \/ In line (split Repair.SPACE text)).
Proof.
  split.
  - exact wordWrap_inOrder.
  - intros boxWidth boxHeight fontSize lines. unfold fitText.
    set (maxWidth := boxWidth - padding * 2).
    set (start := max MIN_FONT (floor (boxHeight * 0.5))).
    assert (Hinv : forall n st,
               (exists f, st = (f, wordWrap env text maxWidth f)) ->
               exists f, N.iter n (shrink env text maxWidth boxHeight) st
                         = (f, wordWrap env text maxWidth f)).
    { intros n st Hst.
      apply (N.iter_invariant n _ _ (fun st => exists f, st = (f, wordWrap env text maxWidth f)));
        [|exact Hst].
      intros st' [f ->]. unfold shrink. destruct (overflows boxHeight _); eauto. }
    destruct (Hinv (Z.to_N (floorZ start - 10)) (start, wordWrap env text maxWidth start))
      as [f ->]; [eauto|].
    destruct (overflows boxHeight _); [discriminate|].
    intros H. injection H as <- <-. apply wordWrap_inOrder.
Qed.

End WordWrap.

Section WordWrapCounterexample.

Import JS Fs TextOverlay.
Local Open Scope float_scope.

(** C5, as the specification words it, fails: in a box 50 pixels wide and
    100 high the loop stops at 27 pixels, well above the minimum of 10, and
    the first line, a single long word, measures 243 pixels against the 34
    the box leaves. *)
Lemma wordWrap_line_wider_above_minimum :
  fitText Sample.canvas (ofAscii "Congratulations to everyone") 50 100 =
  Some (27, [ofAscii "Congratulations"; ofAscii "to"; ofAscii "everyone"])
  /\ gtb (measureText Sample.canvas 27 (ofAscii "Congratulations")) (50 - padding * 2) = true
  /\ gtb 27 MIN_FONT = true.
Proof. repeat split; vm_compute; reflexivity. Qed.

End WordWrapCounterexample.

(** ** The analyzers never raise *)

Section Analyzers.

Import JS Fs.


Lemma tryCatch_returns (A : Type) (body : result (list A)) :
  exists l, tryCatch body (fun _ => Ok []) = Ok l.
Proof. destruct body as [l|e]; cbn [tryCatch]; eauto. Qed.




End Analyzers.

Section AnalyzerCounterexample.

Import JS Fs.
Local Open Scope float_scope.
Local Open Scope string_scope.


End AnalyzerCounterexample.

(** ** process-xhs-posts.mjs: the fallback after a rejected edit *)

Section EditFallback.

Import JS Fs ProcessPosts.
Local Open Scope string_scope.

Lemma composite_returns_outputPath (cenv : TextOverlay.Env) (fs fs' : FS)
    (imagePath outputPath p : path) (overlays : list Overlay.t) :
  TextOverlay.composite cenv fs imagePath overlays outputPath = Some (Ok p, fs') ->
  p = outputPath.
Proof.
  unfold TextOverlay.composite. intros H.
  repeat match type of H with
         | context [match ?x with _ => _ end] => destruct x
         | context [if ?x then _ else _] => destruct x
         end;
    try discriminate; injection H as <- _; reflexivity.
Qed.

(** C3, as the code has it.  Let the edit be attempted (between one and five
    overlays), let the first edit produce a file that validation rejects,
    and let the retry either produce no new file or be rejected as well.
    Then the final image of the item is what overlayTranslatedText returns
    for the original image, the overlays and the overlay path.  That is never
    an exception: it is the overlay path when the compositor succeeds, and
    the path of the original image when anything in the compositor throws. *)
Theorem rejected_edit_falls_back_to_compositor (env : Env) (fs : FS)
    (imageFolderPath : path) (imageFile : string) (overlays : list Overlay.t) :
  let localImagePath := join imageFolderPath imageFile in
  let overlayPath := join imageFolderPath ("overlay-" ++ imageFile) in
  let first :=
    QwenEdit.editImageWithQwen (qwen env) fs localImagePath overlays
      (join imageFolderPath ("edited-" ++ imageFile)) in
  let second :=
    QwenEdit.editImageWithQwen (qwen env) (snd first) localImagePath overlays
      (join imageFolderPath ("retry-" ++ imageFile)) in
  GoogleVision.analyzeImageWithGoogle (vision env) localImagePath = Ok overlays ->
  (1 <= List.length overlays <= OVERLAY_THRESHOLD)%nat ->
  producedNewFile (snd first) (fst first) localImagePath = true ->
  (exists v, Validate.validateImageTranslation (validator env) (fst first) overlays = Ok v
             /\ Validate.success v = false) ->
  (producedNewFile (snd second) (fst second) localImagePath = false
   \/ exists v, Validate.validateImageTranslation (validator env) (fst second) overlays = Ok v
                /\ Validate.success v = false) ->
  finalImagePath env fs imageFolderPath imageFile =
  overlayFallback env (snd second) localImagePath overlays overlayPath
  /\ forall r fs',
      overlayFallback env (snd second) localImagePath overlays overlayPath = Some (r, fs') ->
      match TextOverlay.composite (compositor env) (snd second) localImagePath overlays overlayPath with
      | Some (Ok _, _) => r = Ok overlayPath
      | Some (Throw _, _) => r = Ok localImagePath
      | None => False
      end.
Proof.
  intros localImagePath overlayPath first second Hvision [Hlo Hhi] Hnew [v1 [Hv1 Hs1]] Hretry.
  split.
  - unfold finalImagePath. fold localImagePath. fold overlayPath. rewrite Hvision.
    destruct (Nat.ltb_spec OVERLAY_THRESHOLD (List.length overlays)) as [Hgt|_]; [lia|].
    destruct (Nat.ltb_spec 0 (List.length overlays)) as [_|Hz]; [|lia].
    fold first. destruct first as [p1 fs1] eqn:E1. cbn [fst snd] in *.
    rewrite Hnew, Hv1, Hs1. cbn [negb].
    fold second. destruct second as [p2 fs2] eqn:E2. cbn [fst snd] in *.
    destruct Hretry as [->|[v2 [-> ->]]]; [reflexivity|].
    destruct (producedNewFile fs2 p2 localImagePath); reflexivity.
  - intros r fs'. unfold overlayFallback, TextOverlay.overlayTranslatedText.
    destruct (TextOverlay.composite (compositor env) (snd second) localImagePath overlays overlayPath)
      as [[[p|e] fs2]|] eqn:Ec; try discriminate.
    + intros H. injection H as <- _.
      rewrite (composite_returns_outputPath _ _ _ _ _ _ _ Ec). reflexivity.
    + intros H. injection H as <- _. reflexivity.
Qed.

(** Rejected twice, composited: the final image is the overlay file. *)
Lemma rejected_edit_falls_back_to_compositor_witness :
  finalImagePath (Sample.rejectingPipeline Sample.canvas) ["images/note1/1.jpg"]
    "images/note1" "1.jpg" =
  Some (Ok "images/note1/overlay-1.jpg",
        ["images/note1/overlay-1.jpg"; "images/note1/retry-1.jpg";
         "images/note1/edited-1.jpg"; "images/note1/1.jpg"]).
Proof.
  refine (eq_trans
            (proj1 (rejected_edit_falls_back_to_compositor
                      (Sample.rejectingPipeline Sample.canvas) ["images/note1/1.jpg"]
                      "images/note1" "1.jpg" [Sample.greetingOverlay] _ _ _ _ _)) _).
  - vm_compute. reflexivity.
  - unfold OVERLAY_THRESHOLD. cbn [List.length]. lia.
  - vm_compute. reflexivity.
  - eexists. split; vm_compute; reflexivity.
  - right. eexists. split; vm_compute; reflexivity.
  - vm_compute. reflexivity.
Defined.

(** C3, as the specification words it, fails when the compositor itself
    fails: the edit is made and rejected, made again and rejected again, the
    compositor cannot write its file, and the final image is the original,
    unedited one. *)
Lemma rejected_twice_yet_original_image :
  let env := Sample.rejectingPipeline Sample.canvasCannotWrite in
  let fs := ["images/note1/1.jpg"] in
  let overlays := [Sample.greetingOverlay] in
  let first :=
    QwenEdit.editImageWithQwen (qwen env) fs "images/note1/1.jpg" overlays
      "images/note1/edited-1.jpg" in
  let second :=
    QwenEdit.editImageWithQwen (qwen env) (snd first) "images/note1/1.jpg" overlays
      "images/note1/retry-1.jpg" in
  GoogleVision.analyzeImageWithGoogle (vision env) "images/note1/1.jpg" = Ok overlays
  /\ fst first = "images/note1/edited-1.jpg"
  /\ option_map Validate.success
       (match Validate.validateImageTranslation (validator env) (fst first) overlays with
        | Ok v => Some v
        | Throw _ => None
        end) = Some false
  /\ fst second = "images/note1/retry-1.jpg"
  /\ option_map Validate.success
       (match Validate.validateImageTranslation (validator env) (fst second) overlays with
        | Ok v => Some v
        | Throw _ => None
        end) = Some false
  /\ finalImagePath env fs "images/note1" "1.jpg" =
     Some (Ok "images/note1/1.jpg",
           ["images/note1/retry-1.jpg"; "images/note1/edited-1.jpg"; "images/note1/1.jpg"]).
Proof. repeat split; vm_compute; reflexivity. Qed.

End EditFallback.

(** ** assemble-audio.mjs: the length of the track *)

Section Paths.

Import JS Fs.
Local Open Scope string_scope.

Lemma append_assoc (a b c : string) : (a ++ b) ++ c = a ++ (b ++ c).
Proof. induction a as [|x a IH]; cbn [append]; [reflexivity|rewrite IH; reflexivity]. Qed.

Lemma prefix_append (a b : string) : String.prefix a (a ++ b) = true.
Proof.
  induction a as [|x a IH]; cbn [append String.prefix]; [destruct b; reflexivity|].
  destruct (ascii_dec x x) as [_|N]; [exact IH|contradiction].
Qed.



(** A file of a directory is in it. *)
Lemma inDirectory_join (dir name : path) : inDirectory dir (join dir name) = true.
Proof. unfold inDirectory, join. rewrite <- append_assoc. apply prefix_append. Qed.




Lemma existsSync_In (fs : FS) (p : path) : existsSync fs p = true <-> In p fs.
Proof.
  unfold existsSync. rewrite existsb_exists. split.
  - intros [q [Hq E]]. apply String.eqb_eq in E as ->. exact Hq.
  - intros H. exists p. split; [exact H|apply String.eqb_refl].
Qed.

Lemma In_unlink (fs : FS) (p q : path) : In q (unlink p fs) <-> In q fs /\ q <> p.
Proof.
  unfold unlink. rewrite filter_In, negb_true_iff. split.
  - intros [H E]. split; [exact H|]. intros ->. rewrite String.eqb_refl in E. discriminate.
  - intros [H N]. split; [exact H|]. apply String.eqb_neq. congruence.
Qed.

Lemma In_unlink_existing (fs : FS) (p q : path) :
  In q (if existsSync fs p then unlink p fs else fs) <-> In q fs /\ q <> p.
Proof.
  destruct (existsSync fs p) eqn:E; [apply In_unlink|].
  split; [|tauto]. intros H. split; [exact H|]. intros ->.
  apply existsSync_In in H. congruence.
Qed.

Lemma In_removeFiles (files : list path) :
  forall (fs : FS) (q : path),
    In q (AssembleAudio.removeFiles files fs) <-> In q fs /\ ~ In q files.
Proof.
  unfold AssembleAudio.removeFiles.
  induction files as [|f files IH]; intros fs q; cbn [fold_left In]; [tauto|].
  rewrite IH, In_unlink_existing. intuition congruence.
Qed.

End Paths.

Section TrackLength.

Import JS Fs AssembleAudio.
Local Open Scope Q_scope.

Variable env : Env.
Variable tempDir : path.
Variable videoDuration : number.

Hypothesis Hruns : Spec.assemblerRuns env.

Lemma existsSync_write (fs : FS) (p q : path) :
  existsSync fs p = true -> existsSync (write q fs) p = true.
Proof. unfold existsSync, write. cbn [existsb]. intros ->. apply orb_true_r. Qed.

Lemma clipsFit_write (fs : FS) (q : path) (segments : list Segment.t) :
  Spec.clipsFit env fs segments -> Spec.clipsFit env (write q fs) segments.
Proof.
  intros H s p Hs Hp. destruct (H s p Hs Hp) as [Hon Hlen]. split; [|exact Hlen].
  apply andb_true_iff in Hon as [Ht He]. rewrite Ht, (existsSync_write _ _ _ He). reflexivity.
Qed.

Lemma clipsFit_tail (fs : FS) (s : Segment.t) (rest : list Segment.t) :
  Spec.clipsFit env fs (s :: rest) -> Spec.clipsFit env fs rest.
Proof. intros H s' p Hs'. apply H. right. exact Hs'. Qed.




End TrackLength.

Section TrackLengthTheorem.

Import JS Fs AssembleAudio.
Local Open Scope Q_scope.

Lemma seconds_zero : Spec.seconds 0%float == 0.
Proof. reflexivity. Qed.



End TrackLengthTheorem.

Section TrackLengthScenarios.

Import JS Fs AssembleAudio.
Local Open Scope Q_scope.
Local Open Scope string_scope.


(** The run of the witness: the five entries of the list, and the disk
    afterwards, where the track has taken the place of the adjusted clips. *)
Example assembleAudioTrack_pair_scenario :
  assembleAudioTrack (Sample.assembler Sample.syncedPairLengths) Sample.syncedPairFiles
    Sample.syncedPair "out/dubbed-audio.mp3" 8%float =
  (Ok (mkTrack "out/dubbed-audio.mp3"
         [SilenceClip "out/temp/silence_0.mp3" (Fixed 500);
          SegmentClip "synced/adjusted_0.mp3";
          SilenceClip "out/temp/silence_1.mp3" (Fixed 500);
          SegmentClip "synced/adjusted_1.mp3";
          SilenceClip "out/temp/silence_final.mp3" (Fixed 2000)]),
   ["out/dubbed-audio.mp3"; "audio/segment_1.mp3"; "audio/segment_0.mp3"]).
Proof. reflexivity. Qed.

(** No segment at all: the track is one silence as long as the video. *)
Example assembleAudioTrack_empty_scenario :
  assembleAudioTrack (Sample.assembler (fun _ => 0)) [] [] "out/dubbed-audio.mp3" 8%float =
  (Ok (mkTrack "out/dubbed-audio.mp3" [SilenceClip "out/temp/silence_final.mp3" (Fixed 8000)]),
   ["out/dubbed-audio.mp3"]).
Proof. reflexivity. Qed.


End TrackLengthScenarios.

(* ================================================================== *)
(** * Part III: the rest of the pipeline                               *)
(* ================================================================== *)


(** ** transcribe.mjs: what a run can cost at most *)

Section TranscribeBounds.

Import JS Fs Transcribe.

Lemma requestAllowed_dec (env : Env) (fs : FS) (audioPath : path) :
  Spec.requestAllowed env fs audioPath
  \/ exists e, transcribeAudio env fs audioPath = (Throw e, []).
Proof.
  unfold transcribeAudio, Spec.requestAllowed, Spec.hasKey.
  destruct (OPENAI_API_KEY env) as [k|]; cbn [negb]; [|eauto].
  destruct (truthyString k) eqn:Ek; cbn [negb]; [|eauto].
  destruct (existsSync fs audioPath); cbn [negb]; [|eauto].
  destruct (Z.ltb_spec (25 * 1024 * 1024) (fileSize env audioPath)); [eauto|].
  left. split; [exists k; auto|]. split; [reflexivity|lia].
Qed.

Lemma transcribeAudio_allowed (env : Env) (fs : FS) (audioPath : path) :
  Spec.requestAllowed env fs audioPath ->
  transcribeAudio env fs audioPath = attempts env MAX_RETRIES 1 None [].
Proof.
  intros [Hkey [Hex Hsize]]. unfold transcribeAudio.
  rewrite (hasKey_true _ Hkey), Hex. cbn [negb].
  destruct (Z.ltb_spec (25 * 1024 * 1024) (fileSize env audioPath)); [lia|reflexivity].
Qed.

(** What the loop leaves in the trace: the schedule of the attempts it made,
    one to three of them. *)
Lemma attempts_trace (env : Env) :
  exists k, (1 <= k <= 3)%nat /\ snd (attempts env 3 1 None []) = Spec.schedule 1 k.
Proof.
  destruct (create env 1) as [r1|e1] eqn:E1.
  { exists 1%nat. split; [lia|]. cbn [attempts]. rewrite E1. reflexivity. }
  destruct (status_400_dec e1) as [S1|S1].
  { exists 1%nat. split; [lia|]. cbn [attempts]. rewrite E1, S1. reflexivity. }
  rewrite (attempts_retry env 2 1 None [] e1 (conj E1 S1)).
  destruct (create env 2) as [r2|e2] eqn:E2.
  { exists 2%nat. split; [lia|]. cbn [attempts]. rewrite E2. reflexivity. }
  destruct (status_400_dec e2) as [S2|S2].
  { exists 2%nat. split; [lia|]. cbn [attempts]. rewrite E2, S2. reflexivity. }
  rewrite (attempts_retry env 1 2 _ _ e2 (conj E2 S2)).
  exists 3%nat. split; [lia|].
  destruct (create env 3) as [r3|e3] eqn:E3.
  { cbn [attempts]. rewrite E3. reflexivity. }
  destruct (status_400_dec e3) as [S3|S3].
  { cbn [attempts]. rewrite E3, S3. reflexivity. }
  rewrite (attempts_retry env 0 3 _ _ e3 (conj E3 S3)). reflexivity.
Qed.

(** X1. Whatever the key, the file and the service are, a call of
    transcribeAudio asks the service at most three times, attempts 1, 2, 3
    in this order, sleeps 12 seconds at most in all, and never before its
    first request; it asks nothing at all exactly when one of its three
    checks fails (no API key, no such file, a file over 25 MB), and then it
    raises. *)
Theorem transcribeAudio_asks_at_most_three_times (env : Env) (fs : FS) (audioPath : path) :
  exists k,
    (k <= 3)%nat
    /\ snd (transcribeAudio env fs audioPath) = Spec.schedule 1 k
    /\ Spec.requests (snd (transcribeAudio env fs audioPath)) = seq 1 k
    /\ (Spec.totalSleep (snd (transcribeAudio env fs audioPath)) <= 12000)%Z
    /\ (k = 0%nat <-> ~ Spec.requestAllowed env fs audioPath)
    /\ (k = 0%nat -> exists e, fst (transcribeAudio env fs audioPath) = Throw e).
Proof.
  destruct (requestAllowed_dec env fs audioPath) as [Hok|[e He]].
  - rewrite (transcribeAudio_allowed _ _ _ Hok). unfold MAX_RETRIES.
    destruct (attempts_trace env) as [k [Hk ->]]. exists k.
    split; [lia|]. split; [reflexivity|].
    assert (Hcases : k = 1%nat \/ k = 2%nat \/ k = 3%nat) by lia.
    split; [destruct Hcases as [ -> | [ -> | -> ] ]; reflexivity|].
    split; [destruct Hcases as [ -> | [ -> | -> ] ]; vm_compute; discriminate|].
    split; [split; [lia|tauto]|lia].
  - exists 0%nat. rewrite He. cbn [snd fst Spec.schedule].
    split; [lia|]. split; [reflexivity|]. split; [reflexivity|].
    split; [vm_compute; discriminate|].
    split; [|eauto]. split; [|reflexivity]. intros _ Hok.
    rewrite (transcribeAudio_allowed _ _ _ Hok) in He. unfold MAX_RETRIES in He.
    destruct (attempts_trace env) as [k [Hk Ht]]. rewrite He in Ht. cbn [snd] in Ht.
    destruct k as [|k]; [lia|]. cbn [Spec.schedule] in Ht. unfold Spec.backoff in Ht.
    cbn in Ht. discriminate.
Qed.

End TranscribeBounds.


(** ** translate-segments.mjs: what becomes of a reply *)

Section TranslateReplies.

Import JS Fs TranslateSegments.

Lemma trimStart_padding (pad s : jsstring) :
  forallb isWhitespace pad = true -> trimStart (pad ++ s) = trimStart s.
Proof.
  induction pad as [|c pad IH]; cbn [forallb app trimStart]; [reflexivity|].
  intros H. apply andb_true_iff in H as [-> H]. exact (IH H).
Qed.

Lemma trimStart_stops (c : jschar) (s : jsstring) :
  isWhitespace c = false -> trimStart (c :: s) = c :: s.
Proof. intros H. cbn [trimStart]. rewrite H. reflexivity. Qed.

(** [trim] takes the white space off both ends and nothing else. *)
Lemma trim_padding (pad1 pad2 mid : jsstring) (c1 c2 : jschar) :
  forallb isWhitespace pad1 = true -> forallb isWhitespace pad2 = true ->
  isWhitespace c1 = false -> isWhitespace c2 = false ->
  trim (pad1 ++ c1 :: mid ++ c2 :: pad2) = c1 :: mid ++ [c2].
Proof.
  intros H1 H2 N1 N2. unfold trim.
  rewrite (trimStart_padding _ _ H1), (trimStart_stops _ _ N1).
  replace (c1 :: mid ++ c2 :: pad2) with ((c1 :: mid) ++ [c2] ++ pad2) by reflexivity.
  rewrite !rev_app_distr. cbn [rev app]. rewrite <- !app_assoc. cbn [app].
  rewrite trimStart_padding by (rewrite forallb_forall in *; intros x Hx; apply H2, in_rev, Hx).
  rewrite (trimStart_stops _ _ N2).
  change (c2 :: rev mid ++ [c1]) with ([c2] ++ (rev mid ++ [c1])).
  rewrite rev_app_distr, rev_app_distr, rev_involutive. reflexivity.
Qed.

Lemma isQuote_not_whitespace (c : jschar) : isQuote c = true -> isWhitespace c = false.
Proof.
  unfold isQuote. intros H. apply orb_true_iff in H as [H|H]; apply N.eqb_eq in H; subst; reflexivity.
Qed.

(** One quote off each end. *)
Lemma stripQuotes_wrapped (q1 q2 : jschar) (body : jsstring) :
  isQuote q1 = true -> isQuote q2 = true -> stripQuotes (q1 :: body ++ [q2]) = body.
Proof.
  intros H1 H2. unfold stripQuotes. rewrite H1, rev_app_distr. cbn [rev app].
  rewrite H2. apply rev_involutive.
Qed.

Lemma stripQuotes_bare (c1 c2 : jschar) (mid : jsstring) :
  isQuote c1 = false -> isQuote c2 = false ->
  stripQuotes (c1 :: mid ++ [c2]) = c1 :: mid ++ [c2].
Proof.
  intros H1 H2. unfold stripQuotes. rewrite H1.
  change (c1 :: mid ++ [c2]) with ((c1 :: mid) ++ [c2]).
  rewrite rev_app_distr. cbn [rev app]. rewrite H2. reflexivity.
Qed.

(** X2. What translateSegment makes of the reply of the model.  White space
    around the reply goes, and so does one pair of quotes (double or single,
    in any mix) around what is left: a reply that is the translation in
    quotes gives the translation itself, whatever the translation holds.  A
    reply that neither starts nor ends with a quote is the translation as it
    stands. *)
Theorem translateSegment_unwraps_the_reply (env : Env) (i : nat) (chineseText : jsstring)
    (duration : number) (pad1 pad2 body : jsstring) :
  forallb isWhitespace pad1 = true ->
  forallb isWhitespace pad2 = true ->
  (forall q1 q2,
      isQuote q1 = true -> isQuote q2 = true ->
      chat env i chineseText duration = Ok (pad1 ++ q1 :: body ++ q2 :: pad2) ->
      translateSegment env i chineseText duration = Ok body)
  /\ (forall c1 c2 mid,
      body = c1 :: mid ++ [c2] ->
      isWhitespace c1 || isQuote c1 = false -> isWhitespace c2 || isQuote c2 = false ->
      chat env i chineseText duration = Ok (pad1 ++ body ++ pad2) ->
      translateSegment env i chineseText duration = Ok body).
Proof.
  intros H1 H2. split.
  - intros q1 q2 Q1 Q2 E. unfold translateSegment. rewrite E. cbn [bind].
    rewrite (trim_padding _ _ _ _ _ H1 H2 (isQuote_not_whitespace _ Q1)
               (isQuote_not_whitespace _ Q2)).
    rewrite (stripQuotes_wrapped _ _ _ Q1 Q2). reflexivity.
  - intros c1 c2 mid -> N1 N2 E. apply orb_false_iff in N1 as [W1 Q1], N2 as [W2 Q2].
    unfold translateSegment. rewrite E. cbn [bind].
    replace (pad1 ++ (c1 :: mid ++ [c2]) ++ pad2) with (pad1 ++ c1 :: mid ++ c2 :: pad2)
      by (cbn [app]; rewrite <- app_assoc; reflexivity).
    rewrite (trim_padding _ _ _ _ _ H1 H2 W1 W2), (stripQuotes_bare _ _ _ Q1 Q2). reflexivity.
Qed.

End TranslateReplies.

Section TranslateRepliesScenario.

Import JS Fs TranslateSegments.

(** The first reply of the sample translator: a translation in single
    quotes with a space on either side. *)
Lemma translateSegment_unwraps_the_reply_witness :
  translateSegment Sample.translator 0 (ofAscii "ni hao") 2%float = Ok (ofAscii "hello").
Proof.
  refine (proj1 (translateSegment_unwraps_the_reply Sample.translator 0 (ofAscii "ni hao")
                   2%float [32%N] [32%N] (ofAscii "hello") eq_refl eq_refl)
            39%N 39%N eq_refl eq_refl eq_refl).
Defined.

End TranslateRepliesScenario.


(** ** extract-audio.mjs: what is on disk afterwards *)

Section ExtractAudioFacts.

Import JS Fs ExtractAudio.
Local Open Scope string_scope.

Lemma existsSync_unlink_existing (fs : FS) (p q : path) :
  existsSync (if existsSync fs p then unlink p fs else fs) q =
  if String.eqb q p then false else existsSync fs q.
Proof.
  destruct (existsSync (if existsSync fs p then unlink p fs else fs) q) eqn:E.
  - apply existsSync_In, In_unlink_existing in E as [Hin Hne].
    destruct (String.eqb_spec q p) as [->|_]; [contradiction|].
    symmetry. apply existsSync_In, Hin.
  - destruct (String.eqb_spec q p) as [->|Hne]; [reflexivity|].
    destruct (existsSync fs q) eqn:E'; [|reflexivity].
    apply existsSync_In in E'.
    assert (H : In q (if existsSync fs p then unlink p fs else fs))
      by (apply In_unlink_existing; auto).
    apply (proj2 (existsSync_In _ _)) in H. exact (eq_trans (eq_sym E) H).
Qed.

Lemma existsSync_write_other (fs : FS) (p q : path) :
  q <> p -> existsSync (write p fs) q = existsSync fs q.
Proof.
  intros Hne. unfold existsSync, write. cbn [existsb].
  destruct (String.eqb_spec q p) as [->|_]; [contradiction|reflexivity].
Qed.

Lemma existsSync_write_same (fs : FS) (p : path) : existsSync (write p fs) p = true.
Proof. unfold existsSync, write. cbn [existsb]. rewrite String.eqb_refl. reflexivity. Qed.

Lemma existsSync_after_other (outcome : Outcome) (fs : FS) (p q : path) :
  q <> p -> existsSync (after outcome p fs) q = existsSync fs q.
Proof.
  intros Hne. destruct outcome as [|msg [|]]; cbn [after];
    [apply existsSync_write_other; exact Hne|apply existsSync_write_other; exact Hne|reflexivity].
Qed.

(** X3. extractAudio touches no file but its output.  When it returns, the
    path it returns is the output path, the file is there and the duration
    is the one ffprobe reported (0 when it reported none).  When ffmpeg
    fails, no file is left at the output path: neither what ffmpeg had
    written so far nor a file that was there before. *)
Theorem extractAudio_leaves_no_partial_output (env : Env) (fs : FS) (videoPath outputPath : path) :
  let run := extractAudio env fs videoPath outputPath in
  (forall p, p <> outputPath -> existsSync (snd run) p = existsSync fs p)
  /\ (forall audioPath d,
        fst run = Ok (audioPath, d) ->
        audioPath = outputPath
        /\ existsSync (snd run) outputPath = true
        /\ exists metadata,
             ffprobe env videoPath = Ok metadata /\ d = orZero (formatDuration metadata))
  /\ (forall msg,
        fst run = Throw (newError ("Audio extraction failed: " ++ msg)) ->
        existsSync (snd run) outputPath = false).
Proof.
  unfold extractAudio.
  destruct (existsSync fs videoPath); cbn [negb].
  2:{ cbn [fst snd]. repeat split; try discriminate. }
  unfold getVideoInfo.
  destruct (ffprobe env videoPath) as [metadata|err].
  2:{ cbn [fst snd]. repeat split; try discriminate. }
  destruct (find _ (streams metadata)) as [audioStream|].
  2:{ cbn [fst snd]. repeat split; try discriminate. }
  destruct (ffmpeg env _) as [|m partialOutput]; cbn [fst snd duration].
  - split; [intros p Hp; apply existsSync_write_other; exact Hp|].
    split; [|discriminate].
    intros audioPath d H. injection H as <- <-.
    split; [reflexivity|]. split; [apply existsSync_write_same|eauto].
  - split.
    { intros p Hp. rewrite existsSync_unlink_existing.
      destruct (String.eqb_spec p outputPath) as [->|_]; [contradiction|].
      apply existsSync_after_other. exact Hp. }
    split; [discriminate|].
    intros msg _. rewrite existsSync_unlink_existing, String.eqb_refl. reflexivity.
Qed.

End ExtractAudioFacts.


(** ** dub-video.mjs: the stages in a row *)

Section DubVideoFacts.

Import JS Fs.
Local Open Scope string_scope.

Lemma truthyString_join (dir name : path) : truthyString (join dir name) = true.
Proof. unfold join. destruct dir; reflexivity. Qed.

Lemma Forall2_compose (A B C : Type) (R : A -> B -> Prop) (S : B -> C -> Prop)
    (T : A -> C -> Prop) (la : list A) :
  (forall a b c, R a b -> S b c -> T a c) ->
  forall lb lc, Forall2 R la lb -> Forall2 S lb lc -> Forall2 T la lc.
Proof.
  intros HT. induction la as [|a la IH]; intros lb lc H1 H2.
  - inversion H1; subst. inversion H2; subst. constructor.
  - inversion H1; subst. inversion H2; subst. constructor; eauto.
Qed.

Lemma extractAudio_returns (env : ExtractAudio.Env) (fs fs' : FS) (videoPath outputPath : path)
    (audioPath : path) (d : number) :
  ExtractAudio.extractAudio env fs videoPath outputPath = (Ok (audioPath, d), fs') ->
  audioPath = outputPath
  /\ exists metadata,
       ExtractAudio.ffprobe env videoPath = Ok metadata
       /\ d = orZero (ExtractAudio.formatDuration metadata).
Proof.
  unfold ExtractAudio.extractAudio, ExtractAudio.getVideoInfo.
  destruct (existsSync fs videoPath); cbn [negb]; [|discriminate].
  destruct (ExtractAudio.ffprobe env videoPath) as [metadata|err]; [|discriminate].
  destruct (find _ _); [|discriminate].
  destruct (ExtractAudio.ffmpeg env _); [|discriminate].
  intros H. injection H as <- <- _. eauto.
Qed.

Lemma background_truthy (env : DubVideo.Env) (fs fs' : FS) (videoPath outputDir : path)
    (accompanimentPath : option path) :
  DubVideo.background env fs videoPath outputDir = (Ok accompanimentPath, fs') ->
  Segment.truthyPath accompanimentPath = DubVideo.isDemucsInstalled env.
Proof.
  unfold DubVideo.background, SeparateAudio.separateAudio.
  destruct (DubVideo.isDemucsInstalled env).
  - destruct (ExtractAudio.extractHighQualityAudio _ _ _ _) as [[p|e] fs1]; [|discriminate].
    destruct (SeparateAudio.exec _ _ _) as [[error stderr] written].
    destruct (SeparateAudio.runCommand error stderr); [|discriminate].
    destruct (negb _); [discriminate|].
    intros H. injection H as <- _. apply truthyString_join.
  - intros H. injection H as <- _. reflexivity.
Qed.

Lemma replaceAudioTrack_returns (env : ReplaceAudio.Env) (fs fs' : FS)
    (videoPath audioPath outputPath p : path) (accompanimentPath : option path) :
  ReplaceAudio.replaceAudioTrack env fs videoPath audioPath outputPath accompanimentPath
    = (Ok p, fs') ->
  p = outputPath /\ existsSync fs' outputPath = true.
Proof.
  unfold ReplaceAudio.replaceAudioTrack. intros H.
  repeat match type of H with
         | context [match ?x with _ => _ end] => destruct x
         | context [if ?x then _ else _] => destruct x
         end;
    try discriminate; injection H as <- <-; cbn [ExtractAudio.after];
    (split; [reflexivity|apply existsSync_write_same]).
Qed.

Lemma translateLoop_source (env : TranslateSegments.Env) (segments : list Transcribe.Segment) :
  forall i,
    Forall2 (fun (segment : Transcribe.Segment) (t : Segment.t) =>
               Spec.anchoredAt segment t
               /\ Segment.chinese t = Transcribe.text segment
               /\ Segment.duration t
                  = (Transcribe.end_ segment - Transcribe.start segment)%float)
      segments (TranslateSegments.translateLoop env i segments).
Proof.
  induction segments as [|x l IH]; intros i; cbn [TranslateSegments.translateLoop];
    constructor; [|apply IH].
  unfold TranslateSegments.translateOne.
  destruct (TranslateSegments.translateSegment _ _ _ _); repeat split.
Qed.

Lemma speechTimeline_segments (env : DubVideo.Env) (fs fs' : FS) (audioPath outputDir : path)
    (timeline : DubVideo.Timeline) :
  DubVideo.speechTimeline env fs audioPath outputDir = Some (Ok timeline, fs') ->
  Transcribe.segments (DubVideo.transcription timeline) <> []
  /\ Forall2 Spec.anchoredAt (Transcribe.segments (DubVideo.transcription timeline))
       (DubVideo.translatedSegments timeline)
  /\ Forall2 (fun input output =>
                Spec.sameAnchors input output /\ Spec.keepsTranslation input output)
       (DubVideo.translatedSegments timeline) (DubVideo.syncedSegments timeline).
Proof.
  unfold DubVideo.speechTimeline.
  destruct (fst (Transcribe.transcribeAudio _ fs audioPath)) as [transcribed|e]; [|discriminate].
  destruct (Transcribe.segments transcribed) as [|s rest] eqn:Es; [discriminate|].
  unfold TranslateSegments.translateSegments, TextToSpeech.generateAllSegments.
  destruct (negb _); [discriminate|].
  destruct (negb _); [discriminate|].
  set (translated := TranslateSegments.translateLoop _ 0 (s :: rest)).
  assert (Ht : Forall2 Spec.anchoredAt (s :: rest) translated)
    by apply translateLoop_anchored.
  destruct translated as [|t0 trest] eqn:Et; [inversion Ht|].
  pose proof (generateLoop_keeps (DubVideo.speech env) (join outputDir "audio-segments")
                DubVideo.VOICE (t0 :: trest) fs 0) as Hg.
  destruct (TextToSpeech.generateLoop _ _ _ fs 0 (t0 :: trest)) as [audioSegments fs1].
  cbn [fst] in Hg.
  unfold SyncAudio.syncAudioTiming.
  destruct (SyncAudio.syncLoop _ _ fs1 0 audioSegments) as [[[synced|e] fs2]|] eqn:Ey;
    try discriminate.
  intros H. injection H as <- _. cbn [DubVideo.transcription DubVideo.translatedSegments
                                        DubVideo.syncedSegments].
  rewrite Es. split; [discriminate|]. split; [exact Ht|].
  apply (Forall2_compose _ _ _ _ _ _ (t0 :: trest)) with (2 := Hg)
    (3 := syncLoop_keeps _ _ _ _ _ _ _ Ey).
  intros a b c [A1 K1] [A2 [K2 _]].
  destruct A1 as [A1s A1e], A2 as [A2s A2e], K1 as [K1c [K1e K1d]], K2 as [K2c [K2e K2d]].
  repeat split; congruence.
Qed.

(** X4. What dubVideo returns, when it returns: the path of the dubbed
    video, always [final/dubbed-video.mp4] under the output directory, with
    the file there; the duration ffprobe reported for the video; the
    number of transcribed segments, which is never 0 (a video without
    speech is an error, not an empty result); and the background flag, set
    exactly when Demucs is installed.  The input video was on disk. *)
Theorem dubVideo_returns_the_dubbed_video (env : DubVideo.Env) (fs fs' : FS)
    (videoPath outputDir : path) (dubbed : DubVideo.Dubbed) :
  DubVideo.dubVideo env fs videoPath outputDir = Some (Ok dubbed, fs') ->
  existsSync fs videoPath = true
  /\ DubVideo.dubbedVideoPath dubbed = join (join outputDir "final") "dubbed-video.mp4"
  /\ existsSync fs' (DubVideo.dubbedVideoPath dubbed) = true
  /\ (1 <= DubVideo.segments dubbed)%nat
  /\ DubVideo.backgroundAudio dubbed = DubVideo.isDemucsInstalled env
  /\ exists metadata,
       ExtractAudio.ffprobe (DubVideo.extract env) videoPath = Ok metadata
       /\ DubVideo.duration dubbed = orZero (ExtractAudio.formatDuration metadata).
Proof.
  unfold DubVideo.dubVideo.
  destruct (existsSync fs videoPath); cbn [negb]; [|discriminate].
  destruct (ExtractAudio.extractAudio _ fs videoPath _) as [[[audioPath videoDuration]|e] fs1] eqn:Ex;
    [|discriminate].
  destruct (extractAudio_returns _ _ _ _ _ _ _ Ex) as [_ Hprobe].
  destruct (DubVideo.background env fs1 videoPath outputDir) as [[accompanimentPath|e] fs2] eqn:Eb;
    [|discriminate].
  destruct (DubVideo.speechTimeline env fs2 audioPath outputDir) as [[[timeline|e] fs3]|] eqn:Et;
    try discriminate.
  destruct (AssembleAudio.assembleAudioTrack _ fs3 _ _ _) as [[track|e] fs4]; [|discriminate].
  destruct (ReplaceAudio.replaceAudioTrack _ fs4 _ _ _ _) as [[p|e] fs5] eqn:Er; [|discriminate].
  intros H. injection H as <- <-.
  cbn [DubVideo.dubbedVideoPath DubVideo.segments DubVideo.backgroundAudio DubVideo.duration].
  destruct (replaceAudioTrack_returns _ _ _ _ _ _ _ _ Er) as [_ Hthere].
  destruct (speechTimeline_segments _ _ _ _ _ _ Et) as [Hne _].
  split; [reflexivity|]. split; [reflexivity|]. split; [exact Hthere|].
  split; [destruct (Transcribe.segments _); [contradiction|cbn [List.length]; lia]|].
  split; [exact (background_truthy _ _ _ _ _ _ Eb)|exact Hprobe].
Qed.

(** X5. The timeline survives Parts 2 to 5.  When they return, the assembler
    is handed one record per segment of the transcription, in order, each
    with the start and the end the transcription gave, its text as the
    Chinese text and [end - start] as the duration of its slot, whatever the
    translation, speech and ffmpeg services did in between. *)
Theorem speechTimeline_keeps_the_transcribed_timeline (env : DubVideo.Env) (fs fs' : FS)
    (audioPath outputDir : path) (timeline : DubVideo.Timeline) :
  DubVideo.speechTimeline env fs audioPath outputDir = Some (Ok timeline, fs') ->
  Forall2 (fun (segment : Transcribe.Segment) (synced : Segment.t) =>
             Segment.start synced = Transcribe.start segment
             /\ Segment.end_ synced = Transcribe.end_ segment
             /\ Segment.chinese synced = Transcribe.text segment
             /\ Segment.duration synced
                = (Transcribe.end_ segment - Transcribe.start segment)%float)
    (Transcribe.segments (DubVideo.transcription timeline))
    (DubVideo.syncedSegments timeline).
Proof.
  intros H. pose proof H as H0. apply speechTimeline_segments in H as [_ [Ht Hs]].
  assert (Hfull : Forall2 (fun (segment : Transcribe.Segment) (t : Segment.t) =>
                             Spec.anchoredAt segment t
                             /\ Segment.chinese t = Transcribe.text segment
                             /\ Segment.duration t
                                = (Transcribe.end_ segment - Transcribe.start segment)%float)
                    (Transcribe.segments (DubVideo.transcription timeline))
                    (DubVideo.translatedSegments timeline)).
  { clear Hs Ht. revert H0. unfold DubVideo.speechTimeline.
    destruct (fst (Transcribe.transcribeAudio _ fs audioPath)) as [transcribed|e]; [|discriminate].
    destruct (Transcribe.segments transcribed) as [|s rest] eqn:Es; [discriminate|].
    unfold TranslateSegments.translateSegments.
    destruct (negb _); [discriminate|].
    destruct (TextToSpeech.generateAllSegments _ _ _ _ _) as [[audioSegments|e] fs1];
      [|discriminate].
    destruct (SyncAudio.syncAudioTiming _ _ _ _) as [[[synced|e] fs2]|]; try discriminate.
    intros H. injection H as <- _.
    cbn [DubVideo.transcription DubVideo.translatedSegments]. rewrite Es.
    exact (translateLoop_source _ (s :: rest) 0). }
  apply (Forall2_compose _ _ _ _ _ _ _) with (2 := Hfull) (3 := Hs).
  intros a b c [[As Ae] [Hc Hd]] [[Bs Be] [Kc [_ Kd]]]. repeat split; congruence.
Qed.

End DubVideoFacts.


(** ** dub-video.mjs: a speech service that is down *)

Section SpeechOutage.

Import JS Fs.
Local Open Scope string_scope.

Let silent (s : Segment.t) : Prop :=
  Segment.audioPath s = None /\ Segment.adjustedAudioPath s = None.

Lemma translateLoop_silent (env : TranslateSegments.Env) (segments : list Transcribe.Segment) :
  forall i, Forall silent (TranslateSegments.translateLoop env i segments).
Proof.
  induction segments as [|s rest IH]; intros i; cbn [TranslateSegments.translateLoop];
    constructor; [|apply IH].
  unfold TranslateSegments.translateOne.
  destruct (TranslateSegments.translateSegment _ _ _ _); split; reflexivity.
Qed.

Lemma generateLoop_down (env : TextToSpeech.Env) (outputDir : path) (voiceId : string)
    (segments : list Segment.t) :
  (forall i text voice, exists e, TextToSpeech.speak env i text voice = Throw e) ->
  Forall silent segments ->
  forall fs i,
    snd (TextToSpeech.generateLoop env outputDir voiceId fs i segments) = fs
    /\ Forall (fun s => silent s /\ Segment.error s <> None)
         (fst (TextToSpeech.generateLoop env outputDir voiceId fs i segments)).
Proof.
  intros Hdown Hs. induction Hs as [|s rest [_ Hadj] _ IH]; intros fs i;
    cbn [TextToSpeech.generateLoop].
  - split; [reflexivity|constructor].
  - unfold TextToSpeech.generateOne.
    destruct (Hdown i (Segment.english s) voiceId) as [e ->].
    destruct (IH fs (S i)) as [Hfs Hall].
    destruct (TextToSpeech.generateLoop env outputDir voiceId fs (S i) rest) as [rs fs1].
    cbn [fst snd] in *. split; [exact Hfs|]. constructor; [|exact Hall].
    split; [split; [reflexivity|exact Hadj]|discriminate].
Qed.

Lemma syncLoop_silent (env : SyncAudio.Env) (outputDir : path) (segments : list Segment.t) :
  Forall silent segments ->
  forall fs i, SyncAudio.syncLoop env outputDir fs i segments = Some (Ok segments, fs).
Proof.
  intros Hs. induction Hs as [|s rest [Ha _] _ IH]; intros fs i; cbn [SyncAudio.syncLoop].
  - reflexivity.
  - unfold SyncAudio.syncSegment. rewrite Ha, IH. reflexivity.
Qed.

Lemma concatLoop_silent (env : AssembleAudio.Env) (tempDir : path) (segments : list Segment.t) :
  Forall silent segments ->
  forall fs i currentTime,
    AssembleAudio.concatLoop env tempDir fs i currentTime segments = (Ok ([], currentTime), fs).
Proof.
  intros Hs. induction Hs as [|s rest [_ Ha] _ IH]; intros fs i currentTime;
    cbn [AssembleAudio.concatLoop].
  - reflexivity.
  - rewrite Ha. apply IH.
Qed.

(** X6. A speech service that fails every request does not stop the
    dubbing.  Parts 2 to 5 still return, having written nothing: each
    segment is handed on without a clip and with the error recorded; the
    list the assembler builds from them holds no clip at all, only the
    final silence, as long as the video. *)
Theorem speech_outage_gives_a_silent_track (env : DubVideo.Env) (fs : FS)
    (audioPath outputDir tempDir : path) (videoDuration : number)
    (transcribed : Transcribe.Transcription) :
  Spec.hasKey (DubVideo.OPENAI_API_KEY env) ->
  Spec.hasKey (TextToSpeech.ELEVENLABS_API_KEY (DubVideo.speech env)) ->
  fst (Transcribe.transcribeAudio (DubVideo.transcriber env) fs audioPath) = Ok transcribed ->
  Transcribe.segments transcribed <> [] ->
  (forall i text voice, exists e, TextToSpeech.speak (DubVideo.speech env) i text voice = Throw e) ->
  (forall p d, AssembleAudio.anullsrc (DubVideo.assemble env) p d = None) ->
  gtb (videoDuration - 0)%float 0.01%float = true ->
  exists timeline,
    DubVideo.speechTimeline env fs audioPath outputDir = Some (Ok timeline, fs)
    /\ Forall (fun s => Segment.audioPath s = None /\ Segment.adjustedAudioPath s = None
                        /\ Segment.error s <> None)
         (DubVideo.syncedSegments timeline)
    /\ AssembleAudio.concatList (DubVideo.assemble env) tempDir fs
         (DubVideo.syncedSegments timeline) videoDuration
       = (Ok [AssembleAudio.SilenceClip (join tempDir "silence_final.mp3")
                (toFixed3 (videoDuration - 0)%float)],
          write (join tempDir "silence_final.mp3") fs).
Proof.
  intros Hk1 Hk2 Ht Hne Hdown Hsil Hlong.
  unfold DubVideo.speechTimeline. rewrite Ht.
  destruct (Transcribe.segments transcribed) as [|s rest]; [contradiction|].
  unfold TranslateSegments.translateSegments. cbn [DubVideo.translator TranslateSegments.OPENAI_API_KEY].
  rewrite (hasKey_true _ Hk1). cbn [negb].
  pose proof (translateLoop_silent (DubVideo.translator env) (s :: rest) 0) as Hsilent.
  set (translated := TranslateSegments.translateLoop (DubVideo.translator env) 0 (s :: rest)) in *.
  unfold TextToSpeech.generateAllSegments. rewrite (hasKey_true _ Hk2). cbn [negb].
  destruct (generateLoop_down (DubVideo.speech env) (join outputDir "audio-segments")
              DubVideo.VOICE translated Hdown Hsilent fs 0) as [Hfs Hall].
  assert (Hnil : translated <> []) by (unfold translated; discriminate).
  destruct translated as [|t0 trest]; [contradiction|].
  destruct (TextToSpeech.generateLoop _ _ _ fs 0 (t0 :: trest)) as [audioSegments fs1].
  cbn [fst snd] in Hfs, Hall. subst fs1.
  assert (Hs : Forall silent audioSegments)
    by (apply (Forall_impl _ (fun a H => proj1 H) Hall)).
  unfold SyncAudio.syncAudioTiming. rewrite (syncLoop_silent _ _ _ Hs).
  eexists. split; [reflexivity|]. cbn [DubVideo.syncedSegments]. split.
  - apply (Forall_impl _ (fun a H => conj (proj1 (proj1 H)) (conj (proj2 (proj1 H)) (proj2 H))) Hall).
  - unfold AssembleAudio.concatList. rewrite (concatLoop_silent _ _ _ Hs), Hlong.
    unfold AssembleAudio.generateSilence. rewrite Hsil. reflexivity.
Qed.

End SpeechOutage.

Section DubVideoScenarios.

Import JS Fs.
Local Open Scope float_scope.
Local Open Scope string_scope.

(** A run of dubVideo on a video of 8 s with two spoken segments. *)
Lemma dubVideo_returns_the_dubbed_video_witness :
  existsSync ["videos/clip.mp4"] "videos/clip.mp4" = true
  /\ "work/final/dubbed-video.mp4" = join (join "work" "final") "dubbed-video.mp4"
  /\ existsSync ["work/final/dubbed-video.mp4"; "work/dubbed-audio.mp3";
                 "work/audio-segments/segment_1.mp3"; "work/audio-segments/segment_0.mp3";
                 "work/audio-whisper.mp3"; "videos/clip.mp4"]
       "work/final/dubbed-video.mp4" = true
  /\ (1 <= 2)%nat
  /\ false = DubVideo.isDemucsInstalled (Sample.dubbing Sample.dubbingSpeaker)
  /\ exists metadata,
       ExtractAudio.ffprobe (DubVideo.extract (Sample.dubbing Sample.dubbingSpeaker))
         "videos/clip.mp4" = Ok metadata
       /\ 8 = orZero (ExtractAudio.formatDuration metadata).
Proof.
  apply (dubVideo_returns_the_dubbed_video (Sample.dubbing Sample.dubbingSpeaker)
           ["videos/clip.mp4"] _ "videos/clip.mp4" "work"
           (DubVideo.mkDubbed "work/final/dubbed-video.mp4"
              (0 + 8 / 60 * 0.006 + 13 * 0.0001) 8 2 false)).
  vm_compute. reflexivity.
Defined.

(** The same run up to the synced segments: the two slots of the
    transcription, 0.5 s to 2.5 s and 3 s to 6 s, reach the assembler. *)
Lemma speechTimeline_keeps_the_transcribed_timeline_witness :
  Forall2 (fun (segment : Transcribe.Segment) (synced : Segment.t) =>
             Segment.start synced = Transcribe.start segment
             /\ Segment.end_ synced = Transcribe.end_ segment
             /\ Segment.chinese synced = Transcribe.text segment
             /\ Segment.duration synced
                = (Transcribe.end_ segment - Transcribe.start segment)%float)
    [Transcribe.mkSegment (ofAscii "ni hao") 0.5 2.5;
     Transcribe.mkSegment (ofAscii "zai jian") 3 6]
    [Segment.mk (ofAscii "ni hao") (ofAscii "hello") 0.5 2.5 2
       (Some "work/audio-segments/segment_0.mp3") (Some 2.4) None
       (Some "work/synced-audio/adjusted_0.mp3") (Some (2.4 / 2)) (Some true) None None;
     Segment.mk (ofAscii "zai jian") (ofAscii "zai jian") 3 6 3
       None (Some 3) (Some "Could not get audio duration") None None None None None].
Proof.
  apply (speechTimeline_keeps_the_transcribed_timeline (Sample.dubbing Sample.dubbingSpeaker)
           ["work/audio-whisper.mp3"; "videos/clip.mp4"]
           ["work/synced-audio/adjusted_0.mp3"; "work/audio-segments/segment_1.mp3";
            "work/audio-segments/segment_0.mp3"; "work/audio-whisper.mp3"; "videos/clip.mp4"]
           "work/audio-whisper.mp3" "work"
           (DubVideo.mkTimeline
              (Transcribe.mkTranscription
                 [Transcribe.mkSegment (ofAscii "ni hao") 0.5 2.5;
                  Transcribe.mkSegment (ofAscii "zai jian") 3 6]
                 "chinese" 8 (8 / 60 * 0.006))
              [Segment.mk (ofAscii "ni hao") (ofAscii "hello") 0.5 2.5 2
                 None None None None None None None None;
               Segment.mk (ofAscii "zai jian") (ofAscii "zai jian") 3 6 3
                 None None None None None None None None]
              [Segment.mk (ofAscii "ni hao") (ofAscii "hello") 0.5 2.5 2
                 (Some "work/audio-segments/segment_0.mp3") (Some 2.4) None
                 (Some "work/synced-audio/adjusted_0.mp3") (Some (2.4 / 2)) (Some true) None None;
               Segment.mk (ofAscii "zai jian") (ofAscii "zai jian") 3 6 3
                 None (Some 3) (Some "Could not get audio duration") None None None None None])).
  vm_compute. reflexivity.
Defined.

(** The speech service down for the same video: the track is 8 s of
    silence. *)
Lemma speech_outage_gives_a_silent_track_witness :
  exists timeline,
    DubVideo.speechTimeline (Sample.dubbing Sample.speakerDown)
      ["work/audio-whisper.mp3"; "videos/clip.mp4"] "work/audio-whisper.mp3" "work"
    = Some (Ok timeline, ["work/audio-whisper.mp3"; "videos/clip.mp4"])
    /\ Forall (fun s => Segment.audioPath s = None /\ Segment.adjustedAudioPath s = None
                        /\ Segment.error s <> None)
         (DubVideo.syncedSegments timeline)
    /\ AssembleAudio.concatList (DubVideo.assemble (Sample.dubbing Sample.speakerDown))
         "work/temp" ["work/audio-whisper.mp3"; "videos/clip.mp4"]
         (DubVideo.syncedSegments timeline) 8
       = (Ok [AssembleAudio.SilenceClip (join "work/temp" "silence_final.mp3")
                (toFixed3 (8 - 0))],
          write (join "work/temp" "silence_final.mp3")
            ["work/audio-whisper.mp3"; "videos/clip.mp4"]).
Proof.
  apply (speech_outage_gives_a_silent_track (Sample.dubbing Sample.speakerDown)
           ["work/audio-whisper.mp3"; "videos/clip.mp4"] "work/audio-whisper.mp3" "work"
           "work/temp" 8
           (Transcribe.mkTranscription
              [Transcribe.mkSegment (ofAscii "ni hao") 0.5 2.5;
               Transcribe.mkSegment (ofAscii "zai jian") 3 6]
              "chinese" 8 (8 / 60 * 0.006))).
  - exists "sk-test". split; reflexivity.
  - exists "el-test". split; reflexivity.
  - vm_compute. reflexivity.
  - discriminate.
  - intros i text voice. eexists. reflexivity.
  - intros p d. reflexivity.
  - reflexivity.
Defined.

End DubVideoScenarios.


(** ** assemble-audio.mjs: where the clips start, and what is left on disk *)

Section ClipAlignment.

Import JS Fs AssembleAudio.
Local Open Scope Q_scope.

Variable env : Env.
Variable tempDir : path.
Variable videoDuration : number.

Hypothesis Hruns : Spec.assemblerRuns env.

(** On the list the loop builds, the entries before the clip of a segment
    last from [currentTime] to the start of that segment. *)
Lemma concatLoop_aligned (segments : list Segment.t) :
  forall (fs fs' : FS) (i : nat) (currentTime t : number) (l : list Clip),
    Spec.clipsFit env fs segments ->
    Spec.gapsExact currentTime segments videoDuration ->
    concatLoop env tempDir fs i currentTime segments = (Ok (l, t), fs') ->
    forall pre p post,
      l = (pre ++ SegmentClip p :: post)%list ->
      exists s,
        In s segments /\ Segment.adjustedAudioPath s = Some p
        /\ trackDuration env pre == Spec.seconds (Segment.start s) - Spec.seconds currentTime.
Proof.
  induction segments as [|s rest IH]; intros fs fs' i currentTime t l Hfit Hgaps;
    cbn [concatLoop Spec.gapsExact] in *.
  - intros H pre p post E. injection H as <- _ _. destruct pre; discriminate.
  - destruct (Segment.adjustedAudioPath s) as [p0|] eqn:Ep.
    2:{ intros H pre p post E.
        destruct (IH _ _ _ _ _ _ (clipsFit_tail _ _ _ _ Hfit) Hgaps H pre p post E)
          as [s' [Hin [Ha Hd]]].
        exists s'. split; [right; exact Hin|]. split; assumption. }
    destruct (Hfit s p0 (or_introl eq_refl) Ep) as [Hon Hlen]. rewrite Hon. cbn [negb].
    destruct Hgaps as [Hgap Hrest]. unfold Spec.gapExact in Hgap.
    destruct (gtb (Segment.start s - currentTime)%float 0.01%float).
    + unfold generateSilence. rewrite (proj1 Hruns).
      set (silencePath := join tempDir ("silence_" ++ natToString i ++ ".mp3")).
      destruct (concatLoop env tempDir (write silencePath fs) (S i) (Segment.end_ s) rest)
        as [[[l' t']|e] fs1] eqn:E; [|discriminate].
      intros H pre p post El. injection H as <- _ _.
      destruct pre as [|c0 [|c1 pre']]; cbn [app] in El.
      * discriminate.
      * injection El as <- <- _.
        exists s. split; [left; reflexivity|]. split; [exact Ep|].
        unfold trackDuration. cbn [fold_right clipLength].
        fold (Spec.seconds (Segment.start s - currentTime)%float). rewrite Hgap. ring.
      * injection El as <- <- El.
        destruct (IH _ _ _ _ _ _ (clipsFit_write _ _ _ _ (clipsFit_tail _ _ _ _ Hfit))
                    Hrest E pre' p post El) as [s' [Hin [Ha Hd]]].
        exists s'. split; [right; exact Hin|]. split; [exact Ha|].
        unfold trackDuration in *. cbn [fold_right clipLength].
        fold (Spec.seconds (Segment.start s - currentTime)%float).
        rewrite Hd, Hlen, Hgap. ring.
    + destruct (concatLoop env tempDir fs (S i) (Segment.end_ s) rest)
        as [[[l' t']|e] fs1] eqn:E; [|discriminate].
      intros H pre p post El. injection H as <- _ _.
      destruct pre as [|c0 pre']; cbn [app] in El.
      * injection El as <- _.
        exists s. split; [left; reflexivity|]. split; [exact Ep|].
        unfold trackDuration. cbn [fold_right]. rewrite Hgap. ring.
      * injection El as <- El.
        destruct (IH _ _ _ _ _ _ (clipsFit_tail _ _ _ _ Hfit) Hrest E pre' p post El)
          as [s' [Hin [Ha Hd]]].
        exists s'. split; [right; exact Hin|]. split; [exact Ha|].
        unfold trackDuration in *. cbn [fold_right clipLength].
        rewrite Hd, Hlen, Hgap. ring.
Qed.

End ClipAlignment.

Section ClipAlignmentTheorem.

Import JS Fs AssembleAudio.
Local Open Scope Q_scope.

Lemma clip_before_last (l pre post : list Clip) (c : Clip) (p : path) :
  (forall q, c <> SegmentClip q) ->
  (l ++ [c] = pre ++ SegmentClip p :: post)%list ->
  exists post', l = (pre ++ SegmentClip p :: post')%list.
Proof.
  intros Hc E. destruct (rev post) as [|x rpost] eqn:Er.
  - apply (f_equal (@rev Clip)) in Er. rewrite rev_involutive in Er. cbn in Er. subst post.
    change (pre ++ [SegmentClip p])%list with (pre ++ [SegmentClip p])%list in E.
    apply app_inj_tail in E as [_ E]. exfalso. exact (Hc p E).
  - apply (f_equal (@rev Clip)) in Er. rewrite rev_involutive in Er. cbn [rev] in Er. subst post.
    replace (pre ++ SegmentClip p :: rev rpost ++ [x])%list
      with ((pre ++ SegmentClip p :: rev rpost) ++ [x])%list in E
      by (rewrite <- app_assoc; reflexivity).
    apply app_inj_tail in E as [E _]. eauto.
Qed.

(** X7. Every clip starts on time.  When each adjusted clip lasts exactly
    the slot of its segment and every gap is exact, then on the track
    assembleAudioTrack returns, what comes before the clip of a segment
    lasts, to the millisecond, as long as the video runs before that
    segment starts: the dubbed speech is in step with the picture. *)
Theorem assembleAudioTrack_starts_each_clip_on_time (env : Env) (fs fs' : FS)
    (segments : list Segment.t) (outputPath : path) (videoDuration : number)
    (track : Track) (pre post : list Clip) (p : path) :
  Spec.assemblerRuns env ->
  Spec.clipsFit env fs segments ->
  Spec.gapsExact 0%float segments videoDuration ->
  assembleAudioTrack env fs segments outputPath videoDuration = (Ok track, fs') ->
  trackClips track = (pre ++ SegmentClip p :: post)%list ->
  exists s,
    In s segments /\ Segment.adjustedAudioPath s = Some p
    /\ trackDuration env pre == Spec.seconds (Segment.start s).
Proof.
  intros Hruns Hfit Hgaps. unfold assembleAudioTrack, concatList.
  set (tempDir := join (dirname outputPath) "temp").
  destruct (concatLoop env tempDir fs 0 0%float segments) as [[[l t]|e] fs1] eqn:Hloop;
    [|discriminate].
  pose proof (concatLoop_aligned env tempDir videoDuration Hruns segments _ _ _ _ _ _
                Hfit Hgaps Hloop) as Hal.
  assert (Hzero : forall pre' p' post',
            l = (pre' ++ SegmentClip p' :: post')%list ->
            exists s, In s segments /\ Segment.adjustedAudioPath s = Some p'
                      /\ trackDuration env pre' == Spec.seconds (Segment.start s)).
  { intros pre' p' post' E. destruct (Hal pre' p' post' E) as [s [Hin [Ha Hd]]].
    exists s. split; [exact Hin|]. split; [exact Ha|]. rewrite Hd, seconds_zero. ring. }
  cbv zeta. destruct (gtb (videoDuration - t)%float 0.01%float).
  - unfold generateSilence. rewrite (proj1 Hruns), (proj2 Hruns).
    destruct (existsb _ _); [discriminate|]. destruct (existsSync _ outputPath); [|discriminate].
    intros H E. injection H as <- _. cbn [trackClips] in E.
    apply clip_before_last in E as [post' E]; [|discriminate].
    exact (Hzero _ _ _ E).
  - rewrite (proj2 Hruns).
    destruct (existsb _ _); [discriminate|]. destruct (existsSync _ outputPath); [|discriminate].
    intros H E. injection H as <- _. cbn [trackClips] in E.
    exact (Hzero _ _ _ E).
Qed.

End ClipAlignmentTheorem.

Section ClipAlignmentScenario.

Import JS Fs AssembleAudio.
Local Open Scope Q_scope.
Local Open Scope string_scope.

(** On the track of the two sample clips, the second clip comes after 3 s:
    half a second of silence, 2 s of speech and half a second again. *)
Lemma assembleAudioTrack_starts_each_clip_on_time_witness :
  exists s,
    In s Sample.syncedPair
    /\ Segment.adjustedAudioPath s = Some "synced/adjusted_1.mp3"
    /\ trackDuration (Sample.assembler Sample.syncedPairLengths)
         [SilenceClip "out/temp/silence_0.mp3" (Fixed 500);
          SegmentClip "synced/adjusted_0.mp3";
          SilenceClip "out/temp/silence_1.mp3" (Fixed 500)]
       == Spec.seconds (Segment.start s).
Proof.
  apply (assembleAudioTrack_starts_each_clip_on_time
           (Sample.assembler Sample.syncedPairLengths) Sample.syncedPairFiles
           ["out/dubbed-audio.mp3"; "audio/segment_1.mp3"; "audio/segment_0.mp3"]
           Sample.syncedPair "out/dubbed-audio.mp3" 8%float
           (mkTrack "out/dubbed-audio.mp3"
              [SilenceClip "out/temp/silence_0.mp3" (Fixed 500);
               SegmentClip "synced/adjusted_0.mp3";
               SilenceClip "out/temp/silence_1.mp3" (Fixed 500);
               SegmentClip "synced/adjusted_1.mp3";
               SilenceClip "out/temp/silence_final.mp3" (Fixed 2000)])
           _ [SilenceClip "out/temp/silence_final.mp3" (Fixed 2000)]).
  - split; intros; reflexivity.
  - intros s p [<-|[<-|[]]] Hp; injection Hp as <-; split; reflexivity.
  - vm_compute. repeat split.
  - reflexivity.
  - reflexivity.
Defined.

End ClipAlignmentScenario.


(** ** assemble-audio.mjs: what STEP 4 leaves on disk *)

Section CleanUp.

Import JS Fs AssembleAudio.

(** What the loop has written is on its list, and the clip of every
    segment it did not skip is on the list too. *)
Lemma concatLoop_disk (env : Env) (tempDir : path) (segments : list Segment.t) :
  forall (fs : FS) (i : nat) (currentTime : number) l t fs',
    concatLoop env tempDir fs i currentTime segments = (Ok (l, t), fs') ->
    (forall p, In p fs' -> In p fs \/ In p (List.map clipPath l))
    /\ (forall p, In p fs -> In p fs')
    /\ (forall s p, In s segments -> Segment.adjustedAudioPath s = Some p ->
          truthyString p && existsSync fs p = true -> In p (List.map clipPath l)).
Proof.
  induction segments as [|s rest IH]; intros fs i currentTime l t fs'; cbn [concatLoop].
  - intros H. injection H as <- _ <-. split; [auto|]. split; [auto|intros s p []].
  - assert (Hskip : Segment.adjustedAudioPath s = None
                    \/ (exists p0, Segment.adjustedAudioPath s = Some p0
                                   /\ truthyString p0 && existsSync fs p0 = false) ->
              concatLoop env tempDir fs (S i) currentTime rest = (Ok (l, t), fs') ->
              (forall p, In p fs' -> In p fs \/ In p (List.map clipPath l))
              /\ (forall p, In p fs -> In p fs')
              /\ (forall s' p, In s' (s :: rest) -> Segment.adjustedAudioPath s' = Some p ->
                    truthyString p && existsSync fs p = true -> In p (List.map clipPath l))).
    { intros Hno H. destruct (IH _ _ _ _ _ _ H) as [H1 [H2 H3]].
      split; [exact H1|]. split; [exact H2|].
      intros s' p [<-|Hin] Ha Hon; [|exact (H3 s' p Hin Ha Hon)].
      destruct Hno as [Hno|[p0 [Hp0 Hoff]]]; congruence. }
    destruct (Segment.adjustedAudioPath s) as [p0|] eqn:Ep; [|apply Hskip; auto].
    destruct (truthyString p0 && existsSync fs p0) eqn:Hon; cbn [negb];
      [clear Hskip|apply Hskip; eauto].
    assert (Hgrow : forall (fs1 : FS) (q : path), truthyString q && existsSync fs q = true ->
              (forall x, In x fs -> In x fs1) -> truthyString q && existsSync fs1 q = true).
    { intros fs1 q Hq Hsub. apply andb_true_iff in Hq as [Ht He]. rewrite Ht. cbn [andb].
      apply existsSync_In, Hsub, existsSync_In, He. }
    destruct (gtb _ _).
    + unfold generateSilence.
      destruct (anullsrc env _ _); [discriminate|].
      set (silencePath := join tempDir ("silence_" ++ natToString i ++ ".mp3")).
      destruct (concatLoop env tempDir (write silencePath fs) (S i) (Segment.end_ s) rest)
        as [[[l' t']|e] fs1] eqn:E; [|discriminate].
      intros H. injection H as <- _ <-.
      destruct (IH _ _ _ _ _ _ E) as [H1 [H2 H3]]. cbn [List.map clipPath In].
      assert (Hsub : forall x, In x fs -> In x (write silencePath fs)) by (intros x Hx; right; exact Hx).
      split; [|split].
      * intros p Hp. apply H1 in Hp as [[<-|Hin]|Hin]; auto.
      * intros p Hp. apply H2, Hsub, Hp.
      * intros s' p [<-|Hin] Ha Hq.
        -- right. left. congruence.
        -- right. right. exact (H3 s' p Hin Ha (Hgrow _ _ Hq Hsub)).
    + destruct (concatLoop env tempDir fs (S i) (Segment.end_ s) rest)
        as [[[l' t']|e] fs1] eqn:E; [|discriminate].
      intros H. injection H as <- _ <-.
      destruct (IH _ _ _ _ _ _ E) as [H1 [H2 H3]]. cbn [List.map clipPath In].
      split; [|split].
      * intros p Hp. apply H1 in Hp as [Hin|Hin]; auto.
      * exact H2.
      * intros s' p [<-|Hin] Ha Hq.
        -- left. congruence.
        -- right. exact (H3 s' p Hin Ha Hq).
Qed.

(** X8. What assembleAudioTrack leaves on disk when it returns.  The track
    is there.  Every file of its concat list is gone: the silences it made,
    and also the adjusted clip of every segment it put on the track, which
    for a segment the timing sync left unchanged is the synthesized clip
    itself.  Nothing is left in its directory of temporary files, and no
    other file is touched. *)
Theorem assembleAudioTrack_removes_what_it_listed (env : Env) (fs fs' : FS)
    (segments : list Segment.t) (outputPath : path) (videoDuration : number) (track : Track) :
  assembleAudioTrack env fs segments outputPath videoDuration = (Ok track, fs') ->
  let listed := List.map clipPath (trackClips track) in
  let tempDir := join (dirname outputPath) "temp" in
  existsSync fs' outputPath = true
  /\ (forall p, In p listed -> existsSync fs' p = false)
  /\ (forall s p, In s segments -> Segment.adjustedAudioPath s = Some p ->
        truthyString p && existsSync fs p = true -> existsSync fs' p = false)
  /\ (forall p, inDirectory tempDir p = true -> existsSync fs' p = false)
  /\ (forall p, ~ In p listed -> inDirectory tempDir p = false -> p <> outputPath ->
        existsSync fs' p = existsSync fs p).
Proof.
  unfold assembleAudioTrack.
  set (tempDir := join (dirname outputPath) "temp").
  set (concatListPath := join tempDir "concat_list.txt").
  destruct (concatList env tempDir fs segments videoDuration) as [[clips|e] fs1] eqn:Ec;
    [|discriminate].
  destruct (concat env _ outputPath); [discriminate|].
  set (removed := removeFiles (List.map clipPath clips) (write outputPath (write concatListPath fs1))).
  set (left := if existsSync removed concatListPath then unlink concatListPath removed else removed).
  destruct (existsb (inDirectory tempDir) left) eqn:Hempty; [discriminate|].
  destruct (existsSync left outputPath) eqn:Hthere; [|discriminate].
  intros H. injection H as <- <-. cbn [trackClips]. cbv zeta.
  assert (Hleft : forall q, In q left <->
                    (q = outputPath \/ q = concatListPath \/ In q fs1)
                    /\ ~ In q (List.map clipPath clips) /\ q <> concatListPath).
  { intros q. unfold left. rewrite In_unlink_existing. unfold removed.
    rewrite In_removeFiles. unfold write. cbn [In]. intuition congruence. }
  assert (Hgone : forall p, In p (List.map clipPath clips) -> existsSync left p = false).
  { intros p Hp. destruct (existsSync left p) eqn:E; [|reflexivity].
    apply existsSync_In, Hleft in E. tauto. }
  (* the list and the disk after STEP 1 *)
  assert (Hloop : (forall p, In p fs1 -> In p fs \/ In p (List.map clipPath clips))
                  /\ (forall p, In p fs -> In p fs1)
                  /\ (forall s p, In s segments -> Segment.adjustedAudioPath s = Some p ->
                        truthyString p && existsSync fs p = true ->
                        In p (List.map clipPath clips))).
  { revert Ec. unfold concatList.
    destruct (concatLoop env tempDir fs 0 0%float segments) as [[[l t]|e] fs0] eqn:El;
      [|discriminate].
    destruct (concatLoop_disk _ _ _ _ _ _ _ _ _ El) as [H1 [H2 H3]].
    cbv zeta. destruct (gtb _ _).
    - unfold generateSilence. destruct (anullsrc env _ _); [discriminate|].
      intros H. injection H as <- <-. rewrite map_app. cbn [List.map clipPath].
      split; [|split].
      + intros p [<-|Hp]; [right; apply in_or_app; right; left; reflexivity|].
        apply H1 in Hp as [Hp|Hp]; [left; exact Hp|right; apply in_or_app; left; exact Hp].
      + intros p Hp. right. apply H2, Hp.
      + intros s p Hs Ha Hon. apply in_or_app. left. exact (H3 s p Hs Ha Hon).
    - intros H. injection H as <- <-. split; [|split; [exact H2|exact H3]].
      exact H1. }
  destruct Hloop as [Hnew [Hkept Haud]].
  split; [exact Hthere|]. split; [exact Hgone|]. split; [|split].
  - intros s p Hs Ha Hon. apply Hgone. exact (Haud s p Hs Ha Hon).
  - intros p Hp. destruct (existsSync left p) eqn:E; [|reflexivity].
    apply existsSync_In in E.
    assert (Hex : existsb (inDirectory tempDir) left = true)
      by (apply existsb_exists; exists p; split; assumption).
    congruence.
  - intros p Hno Hout Hne.
    destruct (existsSync fs p) eqn:E.
    + apply existsSync_In, Hleft. apply existsSync_In in E.
      split; [right; right; apply Hkept, E|]. split; [exact Hno|].
      intros ->. pose proof (inDirectory_join tempDir "concat_list.txt"%string) as Hd.
      fold concatListPath in Hd. congruence.
    + destruct (existsSync left p) eqn:E'; [|reflexivity].
      apply existsSync_In, Hleft in E' as [[->|[->|Hin]] [Hc Hl]];
        [contradiction|contradiction|].
      apply Hnew in Hin as [Hin|Hin]; [|contradiction].
      apply existsSync_In in Hin. congruence.
Qed.

End CleanUp.

Section CleanUpScenario.

Import JS Fs AssembleAudio.
Local Open Scope string_scope.

(** After the run on the two sample clips: the track is on disk, the two
    adjusted clips are not. *)
Lemma assembleAudioTrack_removes_what_it_listed_witness :
  existsSync ["out/dubbed-audio.mp3"; "audio/segment_1.mp3"; "audio/segment_0.mp3"]
    "out/dubbed-audio.mp3" = true
  /\ existsSync ["out/dubbed-audio.mp3"; "audio/segment_1.mp3"; "audio/segment_0.mp3"]
       "synced/adjusted_0.mp3" = false.
Proof.
  pose proof (assembleAudioTrack_removes_what_it_listed
                (Sample.assembler Sample.syncedPairLengths) Sample.syncedPairFiles
                ["out/dubbed-audio.mp3"; "audio/segment_1.mp3"; "audio/segment_0.mp3"]
                Sample.syncedPair "out/dubbed-audio.mp3" 8%float
                (mkTrack "out/dubbed-audio.mp3"
                   [SilenceClip "out/temp/silence_0.mp3" (Fixed 500);
                    SegmentClip "synced/adjusted_0.mp3";
                    SilenceClip "out/temp/silence_1.mp3" (Fixed 500);
                    SegmentClip "synced/adjusted_1.mp3";
                    SilenceClip "out/temp/silence_final.mp3" (Fixed 2000)])
                eq_refl) as [Hthere [Hgone _]].
  split; [exact Hthere|]. apply Hgone. right. left. reflexivity.
Defined.

End CleanUpScenario.


(** ** sync-audio.mjs: the filters and the files *)

Section AtempoChain.

Import JS Fs SyncAudio.
Local Open Scope float_scope.

Lemma atempoChain_infinity (fuel : nat) : atempoChain fuel infinity = None.
Proof.
  induction fuel as [|fuel IH]; [reflexivity|].
  cbn [atempoChain]. change (gtb infinity 2.0) with true. cbv iota.
  change (infinity / 2.0) with infinity. rewrite IH. reflexivity.
Qed.

(** X9. The chain of atempo filters speedUpAudio builds, whenever its loop
    ends: some filters at the top rate 2.0, then exactly one more, for what
    is left of the factor, and that is not above 2.0; so no filter of the
    chain asks ffmpeg for more than its atempo filter takes, and a factor
    that is not above 2.0 gives a single filter.  For the factor +Infinity
    the loop never ends. *)
Theorem speedUpAudio_chain_stays_within_atempo_range :
  (forall (fuel : nat) (speedFactor : number) (chain : list Filter),
      atempoChain fuel speedFactor = Some chain ->
      exists (k : nat) (remaining : number),
        chain = repeat (atempo (Fixed 2000)) k ++ [atempo (toFixed3 remaining)]
        /\ gtb remaining 2.0 = false
        /\ (gtb speedFactor 2.0 = false -> k = 0%nat /\ remaining = speedFactor))
  /\ (forall fuel, atempoChain fuel infinity = None).
Proof.
  split; [|exact atempoChain_infinity].
  induction fuel as [|fuel IH]; intros speedFactor chain; cbn [atempoChain]; [discriminate|].
  destruct (gtb speedFactor 2.0) eqn:E.
  - destruct (atempoChain fuel (speedFactor / 2.0)) as [rest|] eqn:Er; [|discriminate].
    cbn [option_map]. intros H. injection H as <-.
    destruct (IH _ _ Er) as [k [remaining [-> [Hr _]]]].
    exists (S k), remaining. split; [reflexivity|]. split; [exact Hr|discriminate].
  - intros H. injection H as <-. exists 0%nat, speedFactor.
    split; [reflexivity|]. split; [exact E|]. intros _. split; reflexivity.
Qed.

End AtempoChain.

Section AdjustedFiles.

Import JS Fs SyncAudio.
Local Open Scope string_scope.

Lemma append_cancel_l (a x y : string) : a ++ x = a ++ y -> x = y.
Proof.
  induction a as [|c a IH]; cbn [append]; [auto|]. intros H. injection H as H. exact (IH H).
Qed.

Lemma length_append (a b : string) : String.length (a ++ b) = (String.length a + String.length b)%nat.
Proof. induction a as [|c a IH]; cbn [append String.length]; [reflexivity|rewrite IH; reflexivity]. Qed.

Lemma append_cancel_r (x y b : string) : x ++ b = y ++ b -> x = y.
Proof.
  revert y. induction x as [|c x IH]; intros [|d y] H; cbn [append] in H.
  - reflexivity.
  - apply (f_equal String.length) in H. cbn [String.length] in H.
    rewrite length_append in H. lia.
  - apply (f_equal String.length) in H. cbn [String.length] in H.
    rewrite length_append in H. lia.
  - injection H as <- H. rewrite (IH _ H). reflexivity.
Qed.

Lemma to_uint_nonnil (n : nat) : Nat.to_uint n <> Decimal.Nil.
Proof.
  intros H. pose proof (DecimalNat.Unsigned.of_to n) as Hn. rewrite H in Hn. cbn in Hn.
  subst n. discriminate H.
Qed.

Lemma natToString_inj (n m : nat) : natToString n = natToString m -> n = m.
Proof.
  unfold natToString. intros H. apply DecimalNat.Unsigned.to_uint_inj.
  pose proof (NilZero.usu _ (to_uint_nonnil n)) as Hn.
  pose proof (NilZero.usu _ (to_uint_nonnil m)) as Hm.
  rewrite H in Hn. congruence.
Qed.

Lemma adjustedPath_inj (outputDir : path) (i j : nat) :
  Spec.adjustedPath outputDir i = Spec.adjustedPath outputDir j -> i = j.
Proof.
  unfold Spec.adjustedPath, join. intros H.
  apply append_cancel_l in H. apply (append_cancel_l "/") in H.
  apply (append_cancel_l "adjusted_") in H. apply append_cancel_r in H.
  exact (natToString_inj _ _ H).
Qed.

(** What the body of the loop pushes, by the [adjusted] flag of the record. *)
Lemma syncSegment_flags (env : Env) (outputDir : path) (fs fs' : FS) (i : nat)
    (segment out : Segment.t) :
  Segment.adjusted segment = None ->
  syncSegment env outputDir fs i segment = Some (Ok out, fs') ->
  (forall x, In x fs -> In x fs')
  /\ (Segment.adjusted out = None -> out = segment /\ fs' = fs /\ hasAudio fs segment = false)
  /\ (Segment.adjusted out = Some false ->
        fs' = fs /\ hasAudio fs segment = true
        /\ Segment.adjustedAudioPath out = Segment.audioPath segment)
  /\ (Segment.adjusted out = Some true ->
        hasAudio fs segment = true
        /\ Segment.adjustedAudioPath out = Some (Spec.adjustedPath outputDir i)
        /\ fs' = write (Spec.adjustedPath outputDir i) fs).
Proof.
  intros Hin. unfold syncSegment, hasAudio. fold (Spec.adjustedPath outputDir i).
  destruct (Segment.audioPath segment) as [audioPath|] eqn:Ea.
  2:{ intros H. injection H as <- <-. rewrite Hin.
      repeat split; auto; discriminate. }
  destruct (truthyString audioPath && existsSync fs audioPath) eqn:Hon; cbn [negb].
  2:{ intros H. injection H as <- <-. rewrite Hin.
      repeat split; auto; discriminate. }
  assert (Hw : forall x, In x fs -> In x (write (Spec.adjustedPath outputDir i) fs))
    by (intros x Hx; right; exact Hx).
  destruct (geb _ 0.95%float && _).
  { intros H. injection H as <- <-. repeat split; auto; discriminate. }
  destruct (gtb _ 1.05%float && _).
  { unfold speedUpAudio. destruct (atempoChain _ _); [|discriminate].
    destruct (ffmpeg env _); [discriminate|].
    intros H. injection H as <- <-. repeat split; auto; discriminate. }
  destruct (gtb _ 1.5%float).
  { unfold speedUpAudio. destruct (atempoChain _ _); [|discriminate].
    destruct (ffmpeg env _); [discriminate|].
    intros H. injection H as <- <-. repeat split; auto; discriminate. }
  unfold addSilence. destruct (ffmpeg env _); [discriminate|].
  intros H. injection H as <- <-. repeat split; auto; discriminate.
Qed.

Lemma syncLoop_flags (env : Env) (outputDir : path) (segments : list Segment.t) :
  Forall (fun s => Segment.adjusted s = None) segments ->
  forall fs i out fs',
    syncLoop env outputDir fs i segments = Some (Ok out, fs') ->
    (forall x, In x fs -> In x fs')
    /\ forall k o,
        nth_error out k = Some o ->
        exists segment,
          nth_error segments k = Some segment
          /\ (Segment.adjusted o = None -> o = segment)
          /\ (Segment.adjusted o = Some false ->
                Segment.adjustedAudioPath o = Segment.audioPath segment)
          /\ (Segment.adjusted o = Some true ->
                Segment.adjustedAudioPath o = Some (Spec.adjustedPath outputDir (i + k))
                /\ In (Spec.adjustedPath outputDir (i + k)) fs').
Proof.
  intros Hs. induction Hs as [|s rest Hin _ IH]; intros fs i out fs'; cbn [syncLoop].
  - intros H. injection H as <- <-. split; [auto|]. intros [|k] o; discriminate.
  - destruct (syncSegment env outputDir fs i s) as [[[r|e] fs1]|] eqn:E; try discriminate.
    destruct (syncLoop env outputDir fs1 (S i) rest) as [[[rs|e] fs2]|] eqn:L; try discriminate.
    intros H. injection H as <- <-.
    destruct (syncSegment_flags _ _ _ _ _ _ _ Hin E) as [Hsub [Hnone [Hfalse Htrue]]].
    destruct (IH _ _ _ _ L) as [Hsub' Hrest].
    split; [intros x Hx; apply Hsub', Hsub, Hx|].
    intros [|k] o; cbn [nth_error].
    + intros Ho. injection Ho as <-. exists s. split; [reflexivity|].
      split; [intros Hn; exact (proj1 (Hnone Hn))|].
      split; [intros Hf; exact (proj2 (proj2 (Hfalse Hf)))|].
      intros Ht. destruct (Htrue Ht) as [_ [Hp ->]]. rewrite Nat.add_0_r.
      split; [exact Hp|]. apply Hsub'. left. reflexivity.
    + intros Ho. destruct (Hrest k o Ho) as [segment [Hk [Hn [Hf Ht]]]].
      exists segment. split; [exact Hk|]. split; [exact Hn|]. split; [exact Hf|].
      replace (i + S k)%nat with (S i + k)%nat by lia. exact Ht.
Qed.

(** X10. The files of syncAudioTiming.  For segments that come from the
    speech stage (not synced before), the record of segment [k] says where
    its clip is: a record marked adjusted has its clip in the file
    [adjusted_k.mp3] of the output directory, which is then on disk; one
    marked not adjusted keeps the synthesized clip itself; one with no mark
    is the input record, unchanged.  No two segments share an adjusted
    file, and every file that was on disk before is still there. *)
Theorem syncAudioTiming_gives_each_segment_its_own_file (env : Env) (fs fs' : FS)
    (segments out : list Segment.t) (outputDir : path) :
  Forall (fun s => Segment.adjusted s = None) segments ->
  syncAudioTiming env fs segments outputDir = Some (Ok out, fs') ->
  (forall p, existsSync fs p = true -> existsSync fs' p = true)
  /\ (forall k o,
        nth_error out k = Some o ->
        exists segment,
          nth_error segments k = Some segment
          /\ (Segment.adjusted o = None -> o = segment)
          /\ (Segment.adjusted o = Some false ->
                Segment.adjustedAudioPath o = Segment.audioPath segment)
          /\ (Segment.adjusted o = Some true ->
                Segment.adjustedAudioPath o
                = Some (join outputDir ("adjusted_" ++ natToString k ++ ".mp3"))
                /\ existsSync fs' (join outputDir ("adjusted_" ++ natToString k ++ ".mp3")) = true))
  /\ (forall j k oj ok,
        nth_error out j = Some oj -> nth_error out k = Some ok -> j <> k ->
        Segment.adjusted oj = Some true -> Segment.adjusted ok = Some true ->
        Segment.adjustedAudioPath oj <> Segment.adjustedAudioPath ok).
Proof.
  intros Hs H. unfold syncAudioTiming in H.
  destruct (syncLoop_flags env outputDir segments Hs _ _ _ _ H) as [Hsub Hout].
  split; [intros p Hp; apply existsSync_In, Hsub, existsSync_In, Hp|]. split.
  - intros k o Ho. destruct (Hout k o Ho) as [segment [Hk [Hn [Hf Ht]]]].
    exists segment. split; [exact Hk|]. split; [exact Hn|]. split; [exact Hf|].
    intros Hadj. destruct (Ht Hadj) as [Hp Hin]. cbn [Nat.add] in *.
    split; [exact Hp|apply existsSync_In; exact Hin].
  - intros j k oj ok Hj Hk Hne Aj Ak E.
    destruct (Hout j oj Hj) as [_ [_ [_ [_ Htj]]]]. destruct (Htj Aj) as [Pj _].
    destruct (Hout k ok Hk) as [_ [_ [_ [_ Htk]]]]. destruct (Htk Ak) as [Pk _].
    rewrite Pj, Pk in E. injection E as E. apply adjustedPath_inj in E. contradiction.
Qed.

End AdjustedFiles.

Section AdjustedFilesScenario.

Import JS Fs SyncAudio.
Local Open Scope float_scope.
Local Open Scope string_scope.

(** The clip of 4.5 s for the slot of 3 s: sped up into [adjusted_0.mp3],
    the synthesized clip still on disk beside it. *)
Lemma syncAudioTiming_gives_each_segment_its_own_file_witness :
  existsSync ["synced/adjusted_0.mp3"; "audio/segment_0.mp3"] "audio/segment_0.mp3" = true.
Proof.
  refine (proj1 (syncAudioTiming_gives_each_segment_its_own_file Sample.ffmpegEnds
                   ["audio/segment_0.mp3"] ["synced/adjusted_0.mp3"; "audio/segment_0.mp3"]
                   [Sample.threeSeconds 4.5]
                   [Segment.mk (ofAscii "ni hao") (ofAscii "hello there") 0 3 3
                      (Some "audio/segment_0.mp3") (Some 4.5) None
                      (Some "synced/adjusted_0.mp3") (Some 1.5) (Some true) None None]
                   "synced" _ eq_refl) "audio/segment_0.mp3" eq_refl).
  repeat constructor.
Defined.

End AdjustedFilesScenario.

Section SingleFilterJobs.

Import JS Fs SyncAudio.
Local Open Scope float_scope.

Lemma syncSegment_single_filter (env1 env2 : Env) (outputDir : path) (fs : FS) (i : nat)
    (segment : Segment.t) :
  (forall job, List.length (filters job) = 1%nat -> ffmpeg env1 job = ffmpeg env2 job) ->
  syncSegment env1 outputDir fs i segment = syncSegment env2 outputDir fs i segment.
Proof.
  intros Hsame. unfold syncSegment.
  destruct (Segment.audioPath segment) as [audioPath|]; [|reflexivity].
  destruct (negb _); [reflexivity|].
  destruct (geb _ 0.95 && _); [reflexivity|].
  destruct (gtb _ 1.05 && (_ <=? 1.5)) eqn:E2.
  { apply andb_true_iff in E2 as [_ E2]. unfold speedUpAudio.
    rewrite (atempoChain_small _ _ E2), Hsame; reflexivity. }
  destruct (gtb _ 1.5).
  { unfold speedUpAudio. rewrite (atempoChain_small _ 1.5 eq_refl), Hsame; reflexivity. }
  unfold addSilence. rewrite Hsame; reflexivity.
Qed.

(** X11. syncAudioTiming never asks ffmpeg for a chain of filters: every
    job it runs has a single filter, one atempo at 1.5 at most or one apad.
    So what it does is the same with any two ffmpegs that agree on the jobs
    of one filter; the loop of speedUpAudio that chains filters for factors
    above 2.0 is never entered from here. *)
Theorem syncAudioTiming_runs_single_filter_jobs (env1 env2 : Env) (fs : FS)
    (segments : list Segment.t) (outputDir : path) :
  (forall job, List.length (filters job) = 1%nat -> ffmpeg env1 job = ffmpeg env2 job) ->
  syncAudioTiming env1 fs segments outputDir = syncAudioTiming env2 fs segments outputDir.
Proof.
  intros Hsame. unfold syncAudioTiming. generalize 0%nat. revert fs.
  induction segments as [|s rest IH]; intros fs i; cbn [syncLoop]; [reflexivity|].
  rewrite (syncSegment_single_filter env1 env2 _ _ _ _ Hsame).
  destruct (syncSegment env2 outputDir fs i s) as [[[r|e] fs1]|]; try reflexivity.
  rewrite IH. reflexivity.
Qed.

End SingleFilterJobs.

Section SingleFilterJobsScenario.

Import JS Fs SyncAudio.
Local Open Scope float_scope.
Local Open Scope string_scope.

(** An ffmpeg that fails on every chain of two filters or more does as well
    as one that never fails. *)
Lemma syncAudioTiming_runs_single_filter_jobs_witness :
  syncAudioTiming Sample.ffmpegEnds ["audio/segment_0.mp3"] [Sample.threeSeconds 5.0] "synced"
  = syncAudioTiming
      (mkEnv (fun job => match filters job with
                         | _ :: _ :: _ => Some "too many filters"
                         | _ => None
                         end))
      ["audio/segment_0.mp3"] [Sample.threeSeconds 5.0] "synced".
Proof.
  apply syncAudioTiming_runs_single_filter_jobs.
  intros job H. cbn [ffmpeg Sample.ffmpegEnds].
  destruct (filters job) as [|f [|g rest]]; [reflexivity|reflexivity|discriminate H].
Defined.

End SingleFilterJobsScenario.


(** ** The image that is uploaded: edit, compositor and the choice between them *)

Section ImageEditing.

Import JS Fs.
Local Open Scope string_scope.

Lemma edit_cases (env : QwenEdit.Env) (fs : FS) (imagePath outputPath : path)
    (overlays : list Overlay.t) :
  (exists r, QwenEdit.edit env fs imagePath overlays outputPath = (r, fs)
             /\ (r = Ok imagePath \/ exists e, r = Throw e))
  \/ (QwenEdit.edit env fs imagePath overlays outputPath = (Ok outputPath, write outputPath fs)
      /\ exists imageBuffer first others imageUrl imageData,
           QwenEdit.readFileSync env imagePath = Ok imageBuffer
           /\ QwenEdit.post env outputPath imageBuffer overlays = Ok first
           /\ QwenEdit.choices first = Some (Some imageUrl :: others)
           /\ truthyString imageUrl = true
           /\ QwenEdit.get env imageUrl = Ok imageData
           /\ QwenEdit.writeFileSync env outputPath imageData = Ok tt).
Proof.
  unfold QwenEdit.edit.
  assert (Hsame : forall r : result path,
             (r = Ok imagePath \/ exists e, r = Throw e) ->
             exists r', (r, fs) = (r', fs) /\ (r' = Ok imagePath \/ exists e, r' = Throw e))
    by (intros r Hr; exists r; auto).
  destruct (QwenEdit.readFileSync env imagePath) as [imageBuffer|e] eqn:Er;
    [|left; apply Hsame; eauto].
  destruct (QwenEdit.post env outputPath imageBuffer overlays) as [reply|e] eqn:Ep;
    [|left; apply Hsame; eauto].
  destruct (QwenEdit.choices reply) as [[|[imageUrl|] others]|] eqn:Ec;
    try (left; apply Hsame; auto; fail).
  destruct (truthyString imageUrl) eqn:Eu; cbn [negb]; [|left; apply Hsame; auto].
  destruct (QwenEdit.get env imageUrl) as [imageData|e] eqn:Eg; [|left; apply Hsame; eauto].
  destruct (QwenEdit.writeFileSync env outputPath imageData) as [[]|e] eqn:Ew;
    [|left; apply Hsame; eauto].
  right. split; [reflexivity|]. exists imageBuffer, reply, others, imageUrl, imageData. auto 10.
Qed.

Lemma editImageWithQwen_cases (env : QwenEdit.Env) (fs : FS) (imagePath outputPath : path)
    (overlays : list Overlay.t) :
  QwenEdit.editImageWithQwen env fs imagePath overlays outputPath = (imagePath, fs)
  \/ (QwenEdit.editImageWithQwen env fs imagePath overlays outputPath
      = (outputPath, write outputPath fs)
      /\ QwenEdit.keyMissing env = false /\ overlays <> []
      /\ QwenEdit.edit env fs imagePath overlays outputPath = (Ok outputPath, write outputPath fs)).
Proof.
  unfold QwenEdit.editImageWithQwen.
  destruct (QwenEdit.keyMissing env); [left; reflexivity|].
  destruct overlays as [|o overlays]; [left; reflexivity|].
  destruct (edit_cases env fs imagePath outputPath (o :: overlays))
    as [[r [-> [->|[e ->]]]]|[E _]]; [left; reflexivity|left; reflexivity|].
  right. rewrite E. repeat split. discriminate.
Qed.

(** X12. editImageWithQwen never raises, and it returns one of two things.
    Either the path of the original image, with the disk as it was; or the
    output path, and then that file, and no other, has been written, the key
    is set and is no placeholder, there was an overlay to translate, the
    service answered with a choice that holds an image URL and the download
    and the write went through.  So without a usable key, without overlays
    or on any failure on the way the caller gets the original image back. *)
Theorem editImageWithQwen_returns_original_or_written_file (env : QwenEdit.Env) (fs : FS)
    (imagePath outputPath : path) (overlays : list Overlay.t) :
  let (p, fs') := QwenEdit.editImageWithQwen env fs imagePath overlays outputPath in
  (p = imagePath /\ fs' = fs)
  \/ (p = outputPath /\ fs' = write outputPath fs
      /\ QwenEdit.keyMissing env = false /\ overlays <> []
      /\ exists imageBuffer first others imageUrl imageData,
           QwenEdit.readFileSync env imagePath = Ok imageBuffer
           /\ QwenEdit.post env outputPath imageBuffer overlays = Ok first
           /\ QwenEdit.choices first = Some (Some imageUrl :: others)
           /\ truthyString imageUrl = true
           /\ QwenEdit.get env imageUrl = Ok imageData
           /\ QwenEdit.writeFileSync env outputPath imageData = Ok tt).
Proof.
  destruct (editImageWithQwen_cases env fs imagePath outputPath overlays)
    as [->|[-> [Hk [Ho He]]]]; [left; auto|].
  right. repeat (split; [auto; fail|]).
  destruct (edit_cases env fs imagePath outputPath overlays) as [[r [E Hr]]|[_ H]]; [|exact H].
  exfalso. rewrite He in E. injection E as <- Hfs.
  destruct Hr as [Hr|[e Hr]]; [|discriminate Hr].
  apply (f_equal (@List.length path)) in Hfs. unfold write in Hfs. cbn [List.length] in Hfs. lia.
Qed.

Lemma composite_cases (cenv : TextOverlay.Env) (fs : FS) (imagePath outputPath : path)
    (overlays : list Overlay.t) (r : result path) (fs' : FS) :
  TextOverlay.composite cenv fs imagePath overlays outputPath = Some (r, fs') ->
  ((exists e, r = Throw e) /\ fs' = fs)
  \/ (r = Ok outputPath /\ fs' = write outputPath fs
      /\ truthyString imagePath = true /\ truthyString outputPath = true /\ overlays <> []
      /\ (exists size, TextOverlay.metadata cenv imagePath = Ok size)
      /\ TextOverlay.toFile cenv imagePath outputPath = Ok tt).
Proof.
  unfold TextOverlay.composite. intros H.
  destruct (truthyString imagePath); cbn [negb] in H;
    [|injection H as <- <-; left; eauto].
  destruct (truthyString outputPath); cbn [negb] in H;
    [|injection H as <- <-; left; eauto].
  destruct overlays as [|o overlays]; [injection H as <- <-; left; eauto|].
  destruct (TextOverlay.metadata cenv imagePath) as [[width height]|e];
    [|injection H as <- <-; left; eauto].
  destruct (TextOverlay.createCanvas cenv width height) as [[]|e];
    [|injection H as <- <-; left; eauto].
  destruct (TextOverlay.drawOverlays cenv width height 0 (o :: overlays)) as [[ops|e]|];
    [|injection H as <- <-; left; eauto|discriminate H].
  destruct (TextOverlay.toFile cenv imagePath outputPath) as [[]|e];
    injection H as <- <-; [|left; eauto].
  right. repeat split; eauto. discriminate.
Qed.

(** X13. When overlayTranslatedText returns, it returns one of two things:
    the path of the original image with the disk as it was (that is what its
    catch does with an empty path, an empty list of overlays, or any failure
    of sharp or of the canvas), or the output path, and then that file, and
    no other, has been written, from an image whose size could be read, with
    at least one overlay. *)
Theorem overlayTranslatedText_returns_original_or_written_file (cenv : TextOverlay.Env)
    (fs : FS) (imagePath outputPath : path) (overlays : list Overlay.t) (p : path) (fs' : FS) :
  TextOverlay.overlayTranslatedText cenv fs imagePath overlays outputPath = Some (p, fs') ->
  (p = imagePath /\ fs' = fs)
  \/ (p = outputPath /\ fs' = write outputPath fs
      /\ truthyString imagePath = true /\ truthyString outputPath = true /\ overlays <> []
      /\ (exists size, TextOverlay.metadata cenv imagePath = Ok size)
      /\ TextOverlay.toFile cenv imagePath outputPath = Ok tt).
Proof.
  unfold TextOverlay.overlayTranslatedText. intros H.
  destruct (TextOverlay.composite cenv fs imagePath overlays outputPath) as [[r fs1]|] eqn:E;
    [|discriminate H].
  destruct (composite_cases _ _ _ _ _ _ _ E) as [[[e ->] ->]|[-> [-> Hrest]]];
    injection H as <- <-; [left; auto|right; auto].
Qed.

Lemma overlayTranslatedText_cases (cenv : TextOverlay.Env)
    (fs : FS) (imagePath outputPath : path) (overlays : list Overlay.t) (p : path) (fs' : FS) :
  TextOverlay.overlayTranslatedText cenv fs imagePath overlays outputPath = Some (p, fs') ->
  (p = imagePath /\ fs' = fs) \/ (p = outputPath /\ fs' = write outputPath fs).
Proof.
  unfold TextOverlay.overlayTranslatedText. intros H.
  destruct (TextOverlay.composite cenv fs imagePath overlays outputPath) as [[r fs1]|] eqn:E;
    [|discriminate H].
  destruct (composite_cases _ _ _ _ _ _ _ E) as [[[e ->] ->]|[-> [-> Hrest]]];
    injection H as <- <-; [left; auto|right; auto].
Qed.

End ImageEditing.

Section ImageEditingScenario.

Import JS Fs.
Local Open Scope string_scope.
Local Open Scope float_scope.

(** The compositor at work on the caption, and with nothing to draw. *)
Lemma overlayTranslatedText_returns_original_or_written_file_witness :
  ("images/note1/overlay-1.jpg" = "images/note1/1.jpg"
   /\ ["images/note1/overlay-1.jpg"; "images/note1/1.jpg"] = ["images/note1/1.jpg"])
  \/ ("images/note1/overlay-1.jpg" = "images/note1/overlay-1.jpg"
      /\ ["images/note1/overlay-1.jpg"; "images/note1/1.jpg"]
         = write "images/note1/overlay-1.jpg" ["images/note1/1.jpg"]
      /\ truthyString "images/note1/1.jpg" = true
      /\ truthyString "images/note1/overlay-1.jpg" = true
      /\ [Sample.greetingOverlay] <> []
      /\ (exists size, TextOverlay.metadata Sample.canvas "images/note1/1.jpg" = Ok size)
      /\ TextOverlay.toFile Sample.canvas "images/note1/1.jpg" "images/note1/overlay-1.jpg"
         = Ok tt).
Proof.
  apply (overlayTranslatedText_returns_original_or_written_file Sample.canvas
           ["images/note1/1.jpg"] "images/note1/1.jpg" "images/note1/overlay-1.jpg"
           [Sample.greetingOverlay]).
  vm_compute. reflexivity.
Defined.

End ImageEditingScenario.

Section FinalImage.

Import JS Fs ProcessPosts.
Local Open Scope string_scope.

Lemma validateImageTranslation_returns (env : Validate.Env) (p : path)
    (overlays : list Overlay.t) :
  exists v, Validate.validateImageTranslation env p overlays = Ok v.
Proof.
  unfold Validate.validateImageTranslation. destruct overlays as [|o overlays]; [eauto|].
  destruct (Validate.validate env p (o :: overlays)) as [v|e]; cbn [tryCatch]; eauto.
Qed.

Lemma overlayFallback_cases (env : Env) (fs : FS) (localImagePath overlayPath : path)
    (overlays : list Overlay.t) (r : result path) (fs' : FS) :
  overlayFallback env fs localImagePath overlays overlayPath = Some (r, fs') ->
  (r = Ok localImagePath /\ fs' = fs)
  \/ (r = Ok overlayPath /\ fs' = write overlayPath fs).
Proof.
  unfold overlayFallback. intros H.
  destruct (TextOverlay.overlayTranslatedText (compositor env) fs localImagePath overlays
              overlayPath) as [[p fs1]|] eqn:E; [|discriminate H].
  injection H as <- <-.
  destruct (overlayTranslatedText_cases _ _ _ _ _ _ _ E) as [[-> ->]|[-> ->]]; auto.
Qed.

(** An image the edit has newly produced is the file asked for. *)
Lemma producedNewFile_written (qenv : QwenEdit.Env) (fs fs' : FS)
    (localImagePath outputPath translatedPath : path) (overlays : list Overlay.t) :
  QwenEdit.editImageWithQwen qenv fs localImagePath overlays outputPath = (translatedPath, fs') ->
  producedNewFile fs' translatedPath localImagePath = true ->
  translatedPath = outputPath /\ fs' = write outputPath fs.
Proof.
  intros E Hnew.
  destruct (editImageWithQwen_cases qenv fs localImagePath outputPath overlays) as [E'|[E' _]];
    rewrite E' in E; injection E as <- <-; [|auto].
  unfold producedNewFile in Hnew. rewrite String.eqb_refl in Hnew. discriminate Hnew.
Qed.

(** The disk after an edit holds what it held. *)
Lemma editImageWithQwen_keeps (qenv : QwenEdit.Env) (fs fs' : FS)
    (localImagePath outputPath translatedPath : path) (overlays : list Overlay.t) :
  QwenEdit.editImageWithQwen qenv fs localImagePath overlays outputPath = (translatedPath, fs') ->
  forall x, In x fs -> In x fs'.
Proof.
  intros E x Hx.
  destruct (editImageWithQwen_cases qenv fs localImagePath outputPath overlays) as [E'|[E' _]];
    rewrite E' in E; injection E as <- <-; [exact Hx|right; exact Hx].
Qed.

(** X14. Choosing the final image of an item never raises, deletes nothing,
    and ends on one of four files: the original image, the composite
    [overlay-<file>], the first edit [edited-<file>] or the second edit
    [retry-<file>].  Whichever it is, it is on disk when the original was.
    An edit is the final image only if there were between one and five
    overlays and validateImageTranslation reported success for that very
    file; the second edit, only after the first one was validated and
    rejected. *)
Theorem finalImagePath_is_a_validated_file_on_disk (env : Env) (fs fs' : FS)
    (imageFolderPath : path) (imageFile : string) (r : result path) :
  finalImagePath env fs imageFolderPath imageFile = Some (r, fs') ->
  let localImagePath := join imageFolderPath imageFile in
  let overlayPath := join imageFolderPath ("overlay-" ++ imageFile) in
  let editedPath := join imageFolderPath ("edited-" ++ imageFile) in
  let retryPath := join imageFolderPath ("retry-" ++ imageFile) in
  exists (p : path) (overlays : list Overlay.t),
    r = Ok p
    /\ GoogleVision.analyzeImageWithGoogle (vision env) localImagePath = Ok overlays
    /\ (forall x, In x fs -> In x fs')
    /\ (existsSync fs localImagePath = true -> existsSync fs' p = true)
    /\ (p = localImagePath
        \/ p = overlayPath
        \/ (p = editedPath
            /\ (1 <= List.length overlays <= OVERLAY_THRESHOLD)%nat
            /\ exists v, Validate.validateImageTranslation (validator env) editedPath overlays
                         = Ok v /\ Validate.success v = true)
        \/ (p = retryPath
            /\ (1 <= List.length overlays <= OVERLAY_THRESHOLD)%nat
            /\ (exists v, Validate.validateImageTranslation (validator env) editedPath overlays
                          = Ok v /\ Validate.success v = false)
            /\ exists v, Validate.validateImageTranslation (validator env) retryPath overlays
                         = Ok v /\ Validate.success v = true)).
Proof.
  intros H localImagePath overlayPath editedPath retryPath.
  unfold finalImagePath in H.
  fold localImagePath overlayPath editedPath retryPath in H.
  destruct (tryCatch_returns _ (GoogleVision.analyze (vision env) localImagePath))
    as [overlays Ea].
  fold (GoogleVision.analyzeImageWithGoogle (vision env) localImagePath) in Ea.
  rewrite Ea in H.
  assert (Hfb : forall fs0 r0 fs1,
             (forall x, In x fs -> In x fs0) ->
             overlayFallback env fs0 localImagePath overlays overlayPath = Some (r0, fs1) ->
             exists p, r0 = Ok p
               /\ (forall x, In x fs -> In x fs1)
               /\ (existsSync fs localImagePath = true -> existsSync fs1 p = true)
               /\ (p = localImagePath \/ p = overlayPath)).
  { intros fs0 r0 fs1 Hkeep E.
    destruct (overlayFallback_cases _ _ _ _ _ _ _ E) as [[-> ->]|[-> ->]].
    - exists localImagePath. repeat split; auto.
      intros Hl. apply existsSync_In, Hkeep, existsSync_In, Hl.
    - exists overlayPath. repeat split; auto.
      + intros x Hx. right. auto.
      + intros _. apply existsSync_In. left. reflexivity. }
  assert (Hwrap : forall r0 fs1 p,
             r0 = Ok p
             /\ (forall x, In x fs -> In x fs1)
             /\ (existsSync fs localImagePath = true -> existsSync fs1 p = true)
             /\ (p = localImagePath \/ p = overlayPath) ->
             r0 = r -> fs1 = fs' ->
             exists (p : path) (overlays0 : list Overlay.t),
               r = Ok p
               /\ Ok overlays = Ok overlays0
               /\ (forall x, In x fs -> In x fs')
               /\ (existsSync fs localImagePath = true -> existsSync fs' p = true)
               /\ (p = localImagePath
                   \/ p = overlayPath
                   \/ (p = editedPath
                       /\ (1 <= List.length overlays0 <= OVERLAY_THRESHOLD)%nat
                       /\ exists v, Validate.validateImageTranslation (validator env) editedPath
                                      overlays0 = Ok v /\ Validate.success v = true)
                   \/ (p = retryPath
                       /\ (1 <= List.length overlays0 <= OVERLAY_THRESHOLD)%nat
                       /\ (exists v, Validate.validateImageTranslation (validator env) editedPath
                                       overlays0 = Ok v /\ Validate.success v = false)
                       /\ exists v, Validate.validateImageTranslation (validator env) retryPath
                                      overlays0 = Ok v /\ Validate.success v = true))).
  { intros r0 fs1 p [-> [Hk [He Hp]]] <- <-. exists p, overlays.
    repeat split; auto. destruct Hp; auto. }
  rewrite Ea.
  destruct (Nat.ltb OVERLAY_THRESHOLD (List.length overlays)) eqn:Emany.
  { destruct (Hfb fs r fs' (fun x Hx => Hx) H) as [p Hp]. exact (Hwrap _ _ p Hp eq_refl eq_refl). }
  apply Nat.ltb_ge in Emany.
  destruct (Nat.ltb 0 (List.length overlays)) eqn:Esome.
  2:{ injection H as <- <-. exists localImagePath, overlays. repeat split; auto. }
  apply Nat.ltb_lt in Esome.
  destruct (QwenEdit.editImageWithQwen (qwen env) fs localImagePath overlays editedPath)
    as [translatedPath fs1] eqn:E1.
  pose proof (editImageWithQwen_keeps _ _ _ _ _ _ _ E1) as Hk1.
  destruct (producedNewFile fs1 translatedPath localImagePath) eqn:N1.
  2:{ destruct (Hfb fs1 r fs' Hk1 H) as [p Hp]. exact (Hwrap _ _ p Hp eq_refl eq_refl). }
  destruct (producedNewFile_written _ _ _ _ _ _ _ E1 N1) as [-> ->].
  destruct (validateImageTranslation_returns (validator env) editedPath overlays) as [v Ev].
  rewrite Ev in H.
  destruct (Validate.success v) eqn:Sv; cbn [negb] in H.
  { injection H as <- <-. exists editedPath, overlays. repeat split; auto.
    - intros _. apply existsSync_In. left. reflexivity.
    - right. right. left. repeat split; [lia|exact Emany|eauto]. }
  destruct (QwenEdit.editImageWithQwen (qwen env) (write editedPath fs) localImagePath overlays
              retryPath) as [translatedPath fs2] eqn:E2.
  pose proof (editImageWithQwen_keeps _ _ _ _ _ _ _ E2) as Hk2.
  assert (Hk : forall x, In x fs -> In x fs2) by (intros x Hx; apply Hk2, Hk1, Hx).
  destruct (producedNewFile fs2 translatedPath localImagePath) eqn:N2.
  2:{ destruct (Hfb fs2 r fs' Hk H) as [p Hp]. exact (Hwrap _ _ p Hp eq_refl eq_refl). }
  destruct (producedNewFile_written _ _ _ _ _ _ _ E2 N2) as [-> ->].
  destruct (validateImageTranslation_returns (validator env) retryPath overlays) as [v2 Ev2].
  rewrite Ev2 in H.
  destruct (Validate.success v2) eqn:Sv2; cbn [negb] in H.
  2:{ destruct (Hfb _ r fs' Hk H) as [p Hp]. exact (Hwrap _ _ p Hp eq_refl eq_refl). }
  injection H as <- <-. exists retryPath, overlays. repeat split; auto.
  - intros _. apply existsSync_In. left. reflexivity.
  - right. right. right. repeat split; [lia|exact Emany|eauto|eauto].
Qed.

End FinalImage.

Section FinalImageScenario.

Import JS Fs ProcessPosts.
Local Open Scope string_scope.

(** The item whose two edits are rejected ends on the composite, with the
    original and both edits still on disk. *)
Lemma finalImagePath_is_a_validated_file_on_disk_witness :
  exists (p : path) (overlays : list Overlay.t),
    Ok "images/note1/overlay-1.jpg" = Ok p
    /\ GoogleVision.analyzeImageWithGoogle (vision (Sample.rejectingPipeline Sample.canvas))
         "images/note1/1.jpg" = Ok overlays
    /\ In "images/note1/1.jpg"
         ["images/note1/overlay-1.jpg"; "images/note1/retry-1.jpg";
          "images/note1/edited-1.jpg"; "images/note1/1.jpg"].
Proof.
  destruct (finalImagePath_is_a_validated_file_on_disk (Sample.rejectingPipeline Sample.canvas)
              ["images/note1/1.jpg"]
              ["images/note1/overlay-1.jpg"; "images/note1/retry-1.jpg";
               "images/note1/edited-1.jpg"; "images/note1/1.jpg"]
              "images/note1" "1.jpg" (Ok "images/note1/overlay-1.jpg"))
    as [p [overlays [Hr [Ha [Hkeep _]]]]].
  - vm_compute. reflexivity.
  - exists p, overlays. split; [exact Hr|]. split; [exact Ha|].
    apply Hkeep. left. reflexivity.
Defined.

End FinalImageScenario.


(** ** simple-text-overlay.mjs: the words of a wrapped text *)

Section WordsKept.

Import JS Fs TextOverlay.
Local Open Scope float_scope.

Let noSpace (w : jsstring) : Prop := Forall (fun c => N.eqb c Repair.SPACE = false) w.

Let words (s : jsstring) : list jsstring := List.filter truthyText (split Repair.SPACE s).

Lemma splitOn_noSpace (w : jsstring) :
  noSpace w -> forall cur, splitOn Repair.SPACE cur w = [cur ++ w].
Proof.
  induction 1 as [|c w Hc Hw IH]; intros cur; cbn [splitOn].
  - rewrite app_nil_r. reflexivity.
  - rewrite Hc, IH, <- app_assoc. reflexivity.
Qed.

Lemma splitOn_words (s : jsstring) :
  forall cur, noSpace cur -> Forall noSpace (splitOn Repair.SPACE cur s).
Proof.
  induction s as [|c s IH]; intros cur Hcur; cbn [splitOn].
  - constructor; [exact Hcur|constructor].
  - destruct (N.eqb c Repair.SPACE) eqn:Ec.
    + constructor; [exact Hcur|]. apply IH. constructor.
    + apply IH. apply Forall_app. split; [exact Hcur|]. constructor; [exact Ec|constructor].
Qed.

Lemma splitOn_join (a w : jsstring) :
  noSpace w ->
  forall cur, splitOn Repair.SPACE cur (a ++ [Repair.SPACE] ++ w)
              = splitOn Repair.SPACE cur a ++ [w].
Proof.
  intros Hw. induction a as [|c a IH]; intros cur; cbn [app splitOn].
  - rewrite N.eqb_refl. rewrite (splitOn_noSpace w Hw []). reflexivity.
  - destruct (N.eqb c Repair.SPACE); [|apply IH].
    cbn [app] in IH. rewrite IH. reflexivity.
Qed.

Lemma words_word (w : jsstring) : noSpace w -> words w = List.filter truthyText [w].
Proof. intros Hw. unfold words, split. rewrite (splitOn_noSpace w Hw []). reflexivity. Qed.

Lemma wrapWords_words (measure : jsstring -> number) (maxWidth : number) (ws : list jsstring) :
  Forall noSpace ws ->
  forall cur wrapped,
    List.filter truthyText
      (flat_map (split Repair.SPACE) (wrapWords measure maxWidth ws cur wrapped))
    = List.filter truthyText (flat_map (split Repair.SPACE) wrapped)
      ++ words cur ++ List.filter truthyText ws.
Proof.
  induction 1 as [|w rest Hw Hrest IH]; intros cur wrapped; cbn [wrapWords].
  - rewrite app_nil_r. destruct cur as [|c cur]; cbn [truthyText].
    + rewrite app_nil_r. reflexivity.
    + rewrite flat_map_app, filter_app. cbn [flat_map]. rewrite app_nil_r. reflexivity.
  - assert (Hcons : List.filter truthyText (w :: rest)
                    = List.filter truthyText [w] ++ List.filter truthyText rest)
      by (cbn [List.filter]; destruct (truthyText w); reflexivity).
    destruct cur as [|c cur]; cbn [truthyText].
    + rewrite andb_false_r, IH, (words_word w Hw), Hcons. reflexivity.
    + destruct (gtb _ maxWidth); cbn [andb]; rewrite IH.
      * rewrite flat_map_app, filter_app. cbn [flat_map]. rewrite app_nil_r.
        rewrite (words_word w Hw), Hcons, <- !app_assoc. reflexivity.
      * unfold words at 1, split. rewrite (splitOn_join (c :: cur) w Hw []).
        rewrite filter_app, Hcons, <- !app_assoc. reflexivity.
Qed.

Lemma wordWrap_words (env : Env) (text : jsstring) (maxWidth size : number) :
  List.filter truthyText (flat_map (split Repair.SPACE) (wordWrap env text maxWidth size))
  = words text.
Proof.
  unfold wordWrap. rewrite wrapWords_words.
  - cbn [flat_map List.filter app]. unfold words at 1, split. cbn [splitOn List.filter truthyText app].
    assert (Hid : forall l : list jsstring,
               List.filter truthyText (List.filter truthyText l) = List.filter truthyText l).
    { induction l as [|a l IHl]; cbn [List.filter]; [reflexivity|].
      destruct (truthyText a) eqn:Ea; cbn [List.filter]; [rewrite Ea, IHl|]; auto. }
    reflexivity.
  - apply splitOn_words. constructor.
Qed.

(** X15. wordWrap loses no word and invents none: the words of its lines,
    read from the first line to the last, are the words of the text in their
    order (a word being what stands between two spaces; runs of spaces hold
    none).  The same holds of the lines the auto-shrink loop ends with, so a
    text that is cut into lines is drawn whole, however often the font had to
    shrink. *)
Theorem wordWrap_keeps_every_word (env : Env) (text : jsstring) :
  (forall (maxWidth size : number),
      List.filter truthyText (flat_map (split Repair.SPACE) (wordWrap env text maxWidth size))
      = List.filter truthyText (split Repair.SPACE text))
  /\ (forall (boxWidth boxHeight fontSize : number) (lines : list jsstring),
      fitText env text boxWidth boxHeight = Some (fontSize, lines) ->
      List.filter truthyText (flat_map (split Repair.SPACE) lines)
      = List.filter truthyText (split Repair.SPACE text)).
Proof.
  split; [intros; apply wordWrap_words|].
  intros boxWidth boxHeight fontSize lines. unfold fitText.
  set (maxWidth := boxWidth - padding * 2).
  set (start := max MIN_FONT (floor (boxHeight * 0.5))).
  assert (Hinv : forall n st,
             (exists f, st = (f, wordWrap env text maxWidth f)) ->
             exists f, N.iter n (shrink env text maxWidth boxHeight) st
                       = (f, wordWrap env text maxWidth f)).
  { intros n st Hst.
    apply (N.iter_invariant n _ _ (fun st => exists f, st = (f, wordWrap env text maxWidth f)));
      [|exact Hst].
    intros st' [f ->]. unfold shrink. destruct (overflows boxHeight _); eauto. }
  destruct (Hinv (Z.to_N (floorZ start - 10)) (start, wordWrap env text maxWidth start))
    as [f ->]; [eauto|].
  destruct (overflows boxHeight _); [discriminate|].
  intros H. injection H as <- <-. apply wordWrap_words.
Qed.

End WordsKept.

(** ** analyze-with-google-vision.mjs: the batches and the overlays *)

Section Batches.

Import JS Fs GoogleVision.

Lemma batches_cover (fuel : nat) :
  forall textBlocks : list TextBlock,
    (List.length textBlocks <= fuel)%nat ->
    List.concat (batches fuel textBlocks) = textBlocks
    /\ Forall (fun batch => (1 <= List.length batch <= BATCH_SIZE)%nat) (batches fuel textBlocks)
    /\ (List.length textBlocks <= BATCH_SIZE * List.length (batches fuel textBlocks))%nat
    /\ (BATCH_SIZE * List.length (batches fuel textBlocks)
        < List.length textBlocks + BATCH_SIZE)%nat.
Proof.
  unfold BATCH_SIZE.
  induction fuel as [|fuel IH]; intros textBlocks Hlen; cbn [batches].
  - destruct textBlocks; [|cbn [List.length] in Hlen; lia].
    cbn [List.concat List.length]. repeat split; [constructor|lia|lia].
  - destruct textBlocks as [|b rest] eqn:E.
    + cbn [List.concat List.length]. repeat split; [constructor|lia|lia].
    + rewrite <- E in *.
      assert (Hpos : (1 <= List.length textBlocks)%nat) by (rewrite E; cbn [List.length]; lia).
      clear E b rest.
      unfold BATCH_SIZE.
      destruct (IH (skipn 15 textBlocks)) as [Hc [Hf [Hlo Hhi]]];
        [rewrite length_skipn; lia|].
      cbn [List.concat List.length]. rewrite Hc, firstn_skipn.
      rewrite length_skipn in Hlo, Hhi.
      split; [reflexivity|]. split; [|lia].
      constructor; [rewrite length_firstn; lia|exact Hf].
Qed.

(** X16. When the single request fails and the classifier is asked again by
    batches, every text block is shown to it once and once only, in the
    order of the blocks: the batches, put end to end, are the list of
    blocks.  No batch is empty, none has more than 15 blocks, and their
    number is the number of blocks over 15, rounded up. *)
Theorem batches_partition_the_text_blocks (textBlocks : list TextBlock) :
  let bs := batches (List.length textBlocks) textBlocks in
  List.concat bs = textBlocks
  /\ Forall (fun batch => (1 <= List.length batch <= BATCH_SIZE)%nat) bs
  /\ List.length bs = ((List.length textBlocks + BATCH_SIZE - 1) / BATCH_SIZE)%nat.
Proof.
  destruct (batches_cover (List.length textBlocks) textBlocks (le_n _)) as [Hc [Hf [Hlo Hhi]]].
  cbv zeta. split; [exact Hc|]. split; [exact Hf|].
  unfold BATCH_SIZE in *. apply Nat.div_unique with
    (r := (List.length textBlocks + 15 - 1
           - 15 * List.length (batches (List.length textBlocks) textBlocks))%nat); lia.
Qed.

End Batches.


Section OverlayBoxes.

Import JS Fs GoogleVision.
Local Open Scope float_scope.











End OverlayBoxes.

Section OverlayBoxesScenario.

Import JS Fs GoogleVision.
Local Open Scope string_scope.


End OverlayBoxesScenario.


(** ** analyze-with-claude.mjs: the overlays that are returned *)

Section AuthorOverlays.

Import JS Fs ClaudeVision.

Let marked (o : Json.t) : Prop :=
  exists fields, o = Json.JObj fields
                 /\ Json.truthy (Json.lookup (ofAscii "isAuthorOverlay") fields) = true.

Lemma authorOverlays_marked (items : list Json.t) :
  forall kept, authorOverlays items = Ok kept ->
               Forall marked kept /\ kept = List.filter (fun o => match o with
                                                                   | Json.JObj fields =>
                                                                       Json.truthy (Json.lookup (ofAscii "isAuthorOverlay") fields)
                                                                   | _ => false
                                                                   end) items.
Proof.
  induction items as [|o rest IH]; intros kept; cbn [authorOverlays List.filter].
  - intros H. injection H as <-. split; [constructor|reflexivity].
  - destruct (Json.getProp (Some o) "isAuthorOverlay") as [flag|e] eqn:Ef; cbn [bind];
      [|discriminate].
    destruct (authorOverlays rest) as [os|e]; cbn [bind]; [|discriminate].
    destruct (IH os eq_refl) as [Hm Hf]. intros H. injection H as <-.
    unfold Json.getProp in Ef.
    destruct o as [| b | n | s | l | fields]; try discriminate Ef;
      injection Ef as <-; cbn [Json.truthy]; try (split; [exact Hm|exact Hf]).
    destruct (Json.truthy (Json.lookup (ofAscii "isAuthorOverlay") fields)) eqn:Et.
    + split; [|rewrite Hf; reflexivity].
      constructor; [|exact Hm]. exists fields. auto.
    + split; [exact Hm|exact Hf].
Qed.

(** X18. analyzeImageText returns author overlays only: every item it
    returns is an object of the reply whose isAuthorOverlay is set to
    something true.  What the model marked as a sign, a label or part of the
    scene never reaches the caller. *)
Theorem analyzeImageText_returns_author_overlays_only (env : Env) (imagePath : path)
    (overlays : list Json.t) :
  analyzeImageText env imagePath = Ok overlays ->
  Forall (fun o => exists fields,
              o = Json.JObj fields
              /\ Json.truthy (Json.lookup (ofAscii "isAuthorOverlay") fields) = true)
         overlays.
Proof.
  unfold analyzeImageText.
  destruct (analyze env imagePath) as [os|e] eqn:Ea; cbn [tryCatch];
    intros H; injection H as <-; [|constructor].
  unfold analyze in Ea.
  destruct (readFileSync env imagePath) as [imageBuffer|e]; cbn [bind] in Ea; [|discriminate].
  destruct (messagesCreate env imageBuffer _) as [reply|e]; cbn [bind] in Ea; [|discriminate].
  destruct (matchBraced "overlays" _) as [jsonMatch|]; [|injection Ea as <-; constructor].
  destruct (Repair.parseLeniently (parse env) jsonMatch) as [[analysis|]|e]; cbn [bind] in Ea;
    [|injection Ea as <-; constructor|discriminate].
  destruct (Json.getProp (Some analysis) "overlays") as [ov|e]; cbn [bind] in Ea; [|discriminate].
  destruct (GoogleVision.arrayOf ov) as [items|e]; cbn [bind] in Ea; [|discriminate].
  exact (proj1 (authorOverlays_marked items os Ea)).
Qed.

End AuthorOverlays.

Section AuthorOverlaysScenario.

Import JS Fs ClaudeVision.
Local Open Scope string_scope.

(** Of the caption and the shop sign, the caption alone is returned. *)
Lemma analyzeImageText_returns_author_overlays_only_witness :
  Forall (fun o => exists fields,
              o = Json.JObj fields
              /\ Json.truthy (Json.lookup (ofAscii "isAuthorOverlay") fields) = true)
         [Json.JObj [(ofAscii "chinese", Json.JStr Sample.greeting);
                     (ofAscii "english", Json.JStr (ofAscii "Hello"));
                     (ofAscii "isAuthorOverlay", Json.JBool true)]].
Proof.
  apply (analyzeImageText_returns_author_overlays_only (Sample.claude Sample.fencedReply)
           "images/note1/1.jpg").
  vm_compute. reflexivity.
Defined.

End AuthorOverlaysScenario.


(** ** process-xhs-posts.mjs: the URLs of the images of a post *)

Section UploadedImages.

Import JS Fs UploadImages.
Local Open Scope string_scope.

Lemma In_insert (name x : string) (sorted : list string) :
  In x (insert name sorted) <-> x = name \/ In x sorted.
Proof.
  induction sorted as [|other rest IH]; cbn [insert In].
  - intuition auto.
  - destruct (String.leb name other); cbn [In]; [intuition auto|].
    rewrite IH. intuition auto.
Qed.

Lemma In_sort (x : string) (names : list string) : In x (sort names) <-> In x names.
Proof.
  unfold sort. induction names as [|name rest IH]; cbn [fold_right In]; [tauto|].
  rewrite In_insert, IH. intuition auto.
Qed.

Lemma In_selectImageFiles (entries : list string) (file : string) :
  In file (selectImageFiles entries) <->
  In file entries /\ hasImageExtension file = true /\ notDerived file = true.
Proof.
  unfold selectImageFiles. rewrite In_sort, !filter_In. tauto.
Qed.

(** Choosing the final image removes no file, however it ends. *)
Lemma finalImagePath_keeps (env : ProcessPosts.Env) (fs fs' : FS) (imageFolderPath : path)
    (imageFile : string) (r : result path) :
  ProcessPosts.finalImagePath env fs imageFolderPath imageFile = Some (r, fs') ->
  forall x, In x fs -> In x fs'.
Proof.
  unfold ProcessPosts.finalImagePath.
  set (localImagePath := join imageFolderPath imageFile).
  set (overlayPath := join imageFolderPath ("overlay-" ++ imageFile)).
  assert (Hfb : forall overlays fs0 r0 fs1,
             ProcessPosts.overlayFallback env fs0 localImagePath overlays overlayPath
             = Some (r0, fs1) ->
             forall x, In x fs0 -> In x fs1).
  { intros overlays fs0 r0 fs1 E x Hx.
    destruct (overlayFallback_cases _ _ _ _ _ _ _ E) as [[_ ->]|[_ ->]];
      [exact Hx|right; exact Hx]. }
  destruct (GoogleVision.analyzeImageWithGoogle (ProcessPosts.vision env) localImagePath)
    as [overlays|e]; [|intros H; injection H as _ <-; auto].
  destruct (Nat.ltb ProcessPosts.OVERLAY_THRESHOLD (List.length overlays)); [apply Hfb|].
  destruct (Nat.ltb 0 (List.length overlays)); [|intros H; injection H as _ <-; auto].
  destruct (QwenEdit.editImageWithQwen (ProcessPosts.qwen env) fs localImagePath overlays _)
    as [translatedPath fs1] eqn:E1.
  pose proof (editImageWithQwen_keeps _ _ _ _ _ _ _ E1) as Hk1.
  destruct (ProcessPosts.producedNewFile fs1 translatedPath localImagePath);
    [|intros H x Hx; exact (Hfb _ _ _ _ H x (Hk1 x Hx))].
  destruct (Validate.validateImageTranslation (ProcessPosts.validator env) translatedPath overlays)
    as [validation|e]; [|intros H; injection H as _ <-; exact Hk1].
  destruct (negb (Validate.success validation)); [|intros H; injection H as _ <-; exact Hk1].
  destruct (QwenEdit.editImageWithQwen (ProcessPosts.qwen env) fs1 localImagePath overlays _)
    as [retriedPath fs2] eqn:E2.
  pose proof (editImageWithQwen_keeps _ _ _ _ _ _ _ E2) as Hk2.
  destruct (ProcessPosts.producedNewFile fs2 retriedPath localImagePath);
    [|intros H x Hx; exact (Hfb _ _ _ _ H x (Hk2 x (Hk1 x Hx)))].
  destruct (Validate.validateImageTranslation (ProcessPosts.validator env) retriedPath overlays)
    as [retryValidation|e]; [|intros H x Hx; injection H as _ <-; exact (Hk2 x (Hk1 x Hx))].
  destruct (negb (Validate.success retryValidation));
    [intros H x Hx; exact (Hfb _ _ _ _ H x (Hk2 x (Hk1 x Hx)))|].
  intros H x Hx. injection H as _ <-. exact (Hk2 x (Hk1 x Hx)).
Qed.

Lemma uploadLoop_keeps (env : Env) (noteId : string) (imageFolderPath : path)
    (imageFiles : list string) :
  forall (fs : FS) (i : nat) (uploadedUrls : list string) (r : result (list string)) (fs' : FS),
    uploadLoop env fs noteId imageFolderPath i imageFiles uploadedUrls = Some (r, fs') ->
    forall x, In x fs -> In x fs'.
Proof.
  induction imageFiles as [|imageFile rest IH]; intros fs i uploadedUrls r fs'; cbn [uploadLoop].
  - intros H. injection H as _ <-. auto.
  - destruct (ProcessPosts.finalImagePath (pipeline env) fs imageFolderPath imageFile)
      as [[[finalImagePath|e] fs1]|] eqn:Ef; [| |discriminate].
    + pose proof (finalImagePath_keeps _ _ _ _ _ _ Ef) as Hk.
      destruct (readFileSync env finalImagePath) as [buffer|e];
        [|intros H; injection H as _ <-; exact Hk].
      destruct (upload env _ buffer _) as [[error|]|e];
        [| |intros H; injection H as _ <-; exact Hk].
      * intros H x Hx. exact (IH _ _ _ _ _ H x (Hk x Hx)).
      * destruct (getPublicUrl env _) as [publicUrl|e];
          [|intros H; injection H as _ <-; exact Hk].
        intros H x Hx. exact (IH _ _ _ _ _ H x (Hk x Hx)).
    + intros H. injection H as _ <-. exact (finalImagePath_keeps _ _ _ _ _ _ Ef).
Qed.

Lemma uploadLoop_urls (env : Env) (noteId : string) (imageFolderPath : path)
    (imageFiles : list string) :
  forall (fs : FS) (i : nat) (uploadedUrls urls : list string) (fs' : FS),
    uploadLoop env fs noteId imageFolderPath i imageFiles uploadedUrls = Some (Ok urls, fs') ->
    exists kept new,
      urls = (uploadedUrls ++ new)%list
      /\ Spec.subsequence kept (Spec.indexed i imageFiles)
      /\ Forall2 (Spec.uploadedAs env noteId) kept new.
Proof.
  induction imageFiles as [|imageFile rest IH]; intros fs i uploadedUrls urls fs';
    cbn [uploadLoop Spec.indexed].
  - intros H. injection H as <- _. exists [], []. rewrite app_nil_r.
    repeat split; constructor.
  - destruct (ProcessPosts.finalImagePath (pipeline env) fs imageFolderPath imageFile)
      as [[[finalImagePath|e] fs1]|]; [|discriminate|discriminate].
    destruct (readFileSync env finalImagePath) as [buffer|e]; [|discriminate].
    destruct (upload env _ buffer _) as [[error|]|e] eqn:Eu; [| |discriminate].
    + intros H. destruct (IH _ _ _ _ _ H) as [kept [new [-> [Hs Hf]]]].
      exists kept, new. repeat split; [constructor; exact Hs|exact Hf].
    + destruct (getPublicUrl env _) as [publicUrl|e] eqn:Eg; [|discriminate].
      intros H. destruct (IH _ _ _ _ _ H) as [kept [new [-> [Hs Hf]]]].
      exists ((i, imageFile) :: kept), (publicUrl :: new).
      rewrite <- app_assoc. repeat split; [constructor; exact Hs|].
      constructor; [|exact Hf]. split; [exists buffer; exact Eu|exact Eg].
Qed.

Lemma subsequence_In {A : Type} (l1 l2 : list A) :
  Spec.subsequence l1 l2 -> forall a, In a l1 -> In a l2.
Proof.
  induction 1 as [|a l1 l2 _ IH|a l1 l2 _ IH]; intros b; cbn [In]; [tauto| |]; intuition auto.
Qed.

Lemma In_indexed {A : Type} (l : list A) :
  forall (i j : nat) (a : A), In (j, a) (Spec.indexed i l) -> In a l.
Proof.
  induction l as [|b l IH]; intros i j a; cbn [Spec.indexed In]; [tauto|].
  intros [E|H]; [injection E as _ <-; auto|right; exact (IH _ _ _ H)].
Qed.

(** X19. uploadAllImagesToSupabase never raises and removes no file.  It
    returns no URL at all, or the public URLs of images that did go up to the
    bucket, one for each, in the order of the sorted file names: the images
    whose upload reported an error are left out and the others kept.  Every
    image behind a returned URL is an entry of the post's folder with one of
    the four image extensions whose name starts with none of [edited-],
    [retry-] and [overlay-], so what an earlier run wrote there is not
    translated and uploaded again. *)
Theorem uploadAllImagesToSupabase_returns_urls_of_uploaded_images (env : Env) (fs fs' : FS)
    (noteId : string) (scraperImagesDir : path) (urls : list string) :
  uploadAllImagesToSupabase env fs noteId scraperImagesDir = Some (urls, fs') ->
  (forall x, In x fs -> In x fs')
  /\ (urls = []
      \/ exists entries kept,
           existsSync fs (join scraperImagesDir noteId) = true
           /\ readdirSync env (join scraperImagesDir noteId) = Ok entries
           /\ Spec.subsequence kept (Spec.indexed 0 (selectImageFiles entries))
           /\ Forall2 (Spec.uploadedAs env noteId) kept urls
           /\ Forall (fun entry => In (snd entry) entries
                                   /\ hasImageExtension (snd entry) = true
                                   /\ notDerived (snd entry) = true) kept).
Proof.
  unfold uploadAllImagesToSupabase, uploadAll.
  destruct (existsSync fs (join scraperImagesDir noteId)) eqn:Ex; cbn [negb];
    [|intros H; injection H as <- <-; auto].
  destruct (readdirSync env (join scraperImagesDir noteId)) as [entries|e];
    [|intros H; injection H as <- <-; auto].
  destruct (selectImageFiles entries) as [|f files] eqn:Es;
    [intros H; injection H as <- <-; auto|].
  rewrite <- Es.
  destruct (uploadLoop env fs noteId (join scraperImagesDir noteId) 0
              (selectImageFiles entries) []) as [[[uploadedUrls|e] fs1]|] eqn:El;
    [| |discriminate].
  - pose proof (uploadLoop_keeps _ _ _ _ _ _ _ _ _ El) as Hk.
    destruct uploadedUrls as [|u us]; intros H; injection H as <- <-; [auto|].
    split; [exact Hk|]. right.
    destruct (uploadLoop_urls _ _ _ _ _ _ _ _ _ El) as [kept [new [E [Hs Hf]]]].
    cbn [app] in E. subst new. exists entries, kept. repeat split; auto.
    apply Forall_forall. intros [j file] Hin. cbn [snd].
    apply In_selectImageFiles. exact (In_indexed _ _ _ _ (subsequence_In _ _ Hs _ Hin)).
  - intros H. injection H as <- <-. split; [|auto].
    exact (uploadLoop_keeps _ _ _ _ _ _ _ _ _ El).
Qed.

End UploadedImages.

Section UploadedImagesScenario.

Import JS Fs UploadImages.
Local Open Scope string_scope.

(** A second run over the folder of a post: of [a.jpg], [b.PNG] and [c.jpeg]
    the second is refused by the bucket; the composite of the first run and
    the text file are not looked at. *)
Lemma uploadAllImagesToSupabase_returns_urls_of_uploaded_images_witness :
  In "images/note1/a.jpg"
     ["images/note1/overlay-c.jpeg"; "images/note1/retry-c.jpeg";
      "images/note1/edited-c.jpeg"; "images/note1/overlay-b.PNG";
      "images/note1/retry-b.PNG"; "images/note1/edited-b.PNG";
      "images/note1/overlay-a.jpg"; "images/note1/retry-a.jpg";
      "images/note1/edited-a.jpg"; "images/note1/a.jpg"; "images/note1"].
Proof.
  refine (proj1 (uploadAllImagesToSupabase_returns_urls_of_uploaded_images Sample.bucket
                   ["images/note1/a.jpg"; "images/note1"] _ "note1" "images"
                   ["https://cdn.invalid/post-images/note1-0-1700.jpg";
                    "https://cdn.invalid/post-images/note1-2-1702.jpeg"] _)
                "images/note1/a.jpg" _).
  - vm_compute. reflexivity.
  - left. reflexivity.
Defined.

End UploadedImagesScenario.


(** ** The code fence around a reply *)

Section CodeFences.

Import JS ClaudeVision.

Let plain (body : jsstring) : Prop := Forall (fun c => N.eqb c BACKQUOTE = false) body.

Lemma isFenceTail_plain (c : jschar) (s : jsstring) :
  N.eqb c BACKQUOTE = false -> isFenceTail (c :: s) = false.
Proof.
  intros H. unfold isFenceTail, fence. cbn [startsWith].
  rewrite N.eqb_sym, H. reflexivity.
Qed.

Lemma stripClosingFence_plain (body pad : jsstring) :
  plain body -> forallb isWhitespace pad = true ->
  stripClosingFence (body ++ NEWLINE :: fence ++ pad) = body.
Proof.
  intros Hbody Hpad. induction Hbody as [|c body Hc Hbody IH].
  - cbn [app stripClosingFence]. rewrite (isFenceTail_plain NEWLINE _ eq_refl).
    assert (Ht : isFenceTail (fence ++ pad) = true).
    { unfold isFenceTail, fence. cbn [app startsWith skipn]. rewrite !N.eqb_refl. exact Hpad. }
    cbn [orb]. rewrite N.eqb_refl, Ht. reflexivity.
  - cbn [app stripClosingFence]. rewrite (isFenceTail_plain c _ Hc). cbn [orb].
    assert (Hr : isFenceTail (body ++ NEWLINE :: fence ++ pad) = false).
    { destruct Hbody as [|d body Hd _]; cbn [app]; apply isFenceTail_plain; auto. }
    match goal with
    | |- context [isFenceTail ?x] => replace (isFenceTail x) with false by (symmetry; exact Hr)
    end.
    rewrite andb_false_r, IH. reflexivity.
Qed.

Lemma stripOpeningFence_tagged (tagged : bool) (c : jschar) (s : jsstring) :
  isWhitespace c = false ->
  stripOpeningFence (fence ++ (if tagged then ofAscii "json" else []) ++ [NEWLINE] ++ c :: s)
  = c :: s.
Proof.
  intros Hc. unfold stripOpeningFence, fence. cbn [app startsWith]. rewrite !N.eqb_refl.
  cbn [andb skipn]. destruct tagged.
  - change (ofAscii "json") with [106; 115; 111; 110]%N.
    cbn [app startsWith]. rewrite !N.eqb_refl. cbn [andb skipn trimStart].
    change (isWhitespace NEWLINE) with true. cbv iota. rewrite Hc. reflexivity.
  - change (ofAscii "json") with [106; 115; 111; 110]%N.
    cbn [app startsWith]. change (N.eqb 106 NEWLINE) with false. cbn [andb trimStart].
    change (isWhitespace NEWLINE) with true. cbv iota. rewrite Hc. reflexivity.
Qed.

(** X20. parseJsonResponse reads a fenced reply like the bare JSON.  For a
    body that holds no backquote and starts with something that is no white
    space, the reply made of three backquotes, [json] or not, a newline, the
    body, a newline and three backquotes, with any white space before and
    after, is parsed as the body alone.  A reply that does not start with a
    backquote, such as the one translatePost completes from an opening
    brace, is parsed as it stands once trimmed, fences inside it or not. *)
Theorem parseJsonResponse_unwraps_a_fenced_reply (parse : Json.parser)
    (pad1 pad2 : jsstring) :
  forallb isWhitespace pad1 = true ->
  forallb isWhitespace pad2 = true ->
  (forall (tagged : bool) (c : jschar) (rest : jsstring),
      isWhitespace c = false ->
      Forall (fun c => N.eqb c BACKQUOTE = false) (c :: rest) ->
      ParseJson.parseJsonResponse parse
        (pad1 ++ fence ++ (if tagged then ofAscii "json" else []) ++ [NEWLINE]
           ++ (c :: rest) ++ [NEWLINE] ++ fence ++ pad2)
      = Json.JSON_parse parse (c :: rest))
  /\ (forall (c1 c2 : jschar) (mid : jsstring),
      isWhitespace c1 = false -> isWhitespace c2 = false -> N.eqb c1 BACKQUOTE = false ->
      ParseJson.parseJsonResponse parse (pad1 ++ c1 :: mid ++ c2 :: pad2)
      = Json.JSON_parse parse (c1 :: mid ++ [c2])).
Proof.
  intros H1 H2. split.
  - intros tagged c rest Hc Hplain. unfold ParseJson.parseJsonResponse.
    set (tag := if tagged then ofAscii "json" else []).
    assert (Et : trim (pad1 ++ fence ++ tag ++ [NEWLINE] ++ (c :: rest) ++ [NEWLINE]
                         ++ fence ++ pad2)
                 = fence ++ tag ++ [NEWLINE] ++ (c :: rest) ++ [NEWLINE] ++ fence).
    { unfold fence.
      replace (pad1 ++ [BACKQUOTE; BACKQUOTE; BACKQUOTE] ++ tag ++ [NEWLINE] ++ (c :: rest)
                 ++ [NEWLINE] ++ [BACKQUOTE; BACKQUOTE; BACKQUOTE] ++ pad2)
        with (pad1 ++ BACKQUOTE
                :: ([BACKQUOTE; BACKQUOTE] ++ tag ++ [NEWLINE] ++ (c :: rest)
                      ++ [NEWLINE] ++ [BACKQUOTE; BACKQUOTE])
                ++ BACKQUOTE :: pad2)
        by (cbn [app]; rewrite <- !app_assoc; cbn [app]; rewrite <- !app_assoc; reflexivity).
      rewrite (trim_padding pad1 pad2 _ BACKQUOTE BACKQUOTE H1 H2 eq_refl eq_refl).
      cbn [app]. rewrite <- !app_assoc. cbn [app]. rewrite <- !app_assoc. reflexivity. }
    match goal with
    | |- context [trim ?x] =>
        replace (trim x)
          with (fence ++ tag ++ [NEWLINE] ++ (c :: rest) ++ [NEWLINE] ++ fence)
          by (symmetry; exact Et)
    end.
    assert (Es : startsWith fence (fence ++ tag ++ [NEWLINE] ++ (c :: rest) ++ [NEWLINE] ++ fence)
                 = true)
      by (unfold fence; cbn [app startsWith]; rewrite !N.eqb_refl; reflexivity).
    rewrite Es.
    replace (fence ++ tag ++ [NEWLINE] ++ (c :: rest) ++ [NEWLINE] ++ fence)
      with (fence ++ tag ++ [NEWLINE] ++ c :: (rest ++ [NEWLINE] ++ fence))
      by reflexivity.
    unfold tag. rewrite (stripOpeningFence_tagged tagged c _ Hc).
    replace (c :: rest ++ [NEWLINE] ++ fence)
      with ((c :: rest) ++ NEWLINE :: fence ++ []) by (rewrite app_nil_r; reflexivity).
    rewrite (stripClosingFence_plain (c :: rest) [] Hplain eq_refl). reflexivity.
  - intros c1 c2 mid N1 N2 Hb. unfold ParseJson.parseJsonResponse.
    rewrite (trim_padding _ _ _ _ _ H1 H2 N1 N2).
    unfold fence. cbn [app startsWith]. rewrite N.eqb_sym, Hb. reflexivity.
Qed.

End CodeFences.

Section CodeFencesScenario.

Import JS ClaudeVision.

(** The verdict of the filter in a fence, after a blank line. *)
Lemma parseJsonResponse_unwraps_a_fenced_reply_witness :
  ParseJson.parseJsonResponse JsonRef.parse
    ([NEWLINE] ++ fence ++ ofAscii "json" ++ [NEWLINE]
       ++ quoted "{`relevant`: true, `score`: 72}" ++ [NEWLINE] ++ fence ++ [])
  = Json.JSON_parse JsonRef.parse (quoted "{`relevant`: true, `score`: 72}").
Proof.
  refine (proj1 (parseJsonResponse_unwraps_a_fenced_reply JsonRef.parse [NEWLINE] [] _ _)
                true 123%N (List.tl (quoted "{`relevant`: true, `score`: 72}")) _ _).
  - reflexivity.
  - reflexivity.
  - reflexivity.
  - vm_compute. repeat constructor.
Defined.

End CodeFencesScenario.


(** ** dub-video.mjs: what is refused at the door *)

Section DubVideoRefusals.

Import JS Fs.
Local Open Scope string_scope.

Lemma find_no_audio (streams : list ExtractAudio.Stream) :
  Forall (fun s => ExtractAudio.codec_type s <> "audio") streams ->
  List.find (fun s => String.eqb (ExtractAudio.codec_type s) "audio") streams = None.
Proof.
  induction 1 as [|s streams Hs _ IH]; cbn [List.find]; [reflexivity|].
  destruct (String.eqb_spec (ExtractAudio.codec_type s) "audio"); [contradiction|exact IH].
Qed.

(** X21. dubVideo refuses a video it cannot dub before it asks any of the
    services it pays for.  A path at which there is no file raises [Video not
    found], with nothing written; a file ffprobe cannot read, or in which it
    finds no audio stream, raises the error of getVideoInfo.  This holds
    whatever the transcription, translation and speech services would have
    answered: none of them is asked. *)
Theorem dubVideo_refuses_a_video_without_audio (env : DubVideo.Env) (fs : FS)
    (videoPath outputDir : path) :
  (existsSync fs videoPath = false ->
   DubVideo.dubVideo env fs videoPath outputDir
   = Some (Throw (newError ("Video not found: " ++ videoPath)), fs))
  /\ (existsSync fs videoPath = true ->
      forall metadata,
        ExtractAudio.ffprobe (DubVideo.extract env) videoPath = Ok metadata ->
        Forall (fun s => ExtractAudio.codec_type s <> "audio") (ExtractAudio.streams metadata) ->
        option_map fst (DubVideo.dubVideo env fs videoPath outputDir)
        = Some (Throw (newError "No audio stream found in video — is this a silent video?")))
  /\ (existsSync fs videoPath = true ->
      forall err,
        ExtractAudio.ffprobe (DubVideo.extract env) videoPath = Throw err ->
        option_map fst (DubVideo.dubVideo env fs videoPath outputDir)
        = Some (Throw (newError ("Could not read video info: " ++ message err)))).
Proof.
  unfold DubVideo.dubVideo, ExtractAudio.extractAudio, ExtractAudio.getVideoInfo.
  repeat split.
  - intros ->. reflexivity.
  - intros -> metadata -> Hno. cbn [negb]. rewrite (find_no_audio _ Hno). reflexivity.
  - intros -> err ->. reflexivity.
Qed.

End DubVideoRefusals.


(** ** process-xhs-posts.mjs: what the loops of main let through *)

Section MainLoops.

Import JS Fs Main.
Local Open Scope string_scope.

Variable env : Env.

Lemma getProp_defined (v : Json.t) (k k' : string) (x : Json.value) :
  Json.getProp (Some v) k = Ok x -> exists x', Json.getProp (Some v) k' = Ok x'.
Proof. unfold Json.getProp. destruct v; try discriminate; eauto. Qed.

(** Where the filter result and the translation could be read, the record
    is built. *)
Lemma buildSupabaseRecord_built (post : Post) (filterResult translation : Json.t)
    (hostedImageUrls : list string) (dubbedVideoUrl : option string) (x y : Json.value) :
  Json.getProp (Some filterResult) "score" = Ok x ->
  Json.getProp (Some translation) "title_en" = Ok y ->
  exists r,
    buildSupabaseRecord post filterResult translation hostedImageUrls dubbedVideoUrl = Ok r
    /\ platform r = (if truthyString (_platform post) then _platform post else "xiaohongshu")
    /\ type r = (if isVideo post then "video" else "image")
    /\ image_url r = orNoUrl (List.hd_error hostedImageUrls)
    /\ all_images r = match hostedImageUrls with [] => None | _ => Some hostedImageUrls end
    /\ video_url r = orNoUrl dubbedVideoUrl.
Proof.
  intros Hf Ht. unfold buildSupabaseRecord.
  destruct (getProp_defined _ _ "title_en" _ Ht) as [a ->].
  destruct (getProp_defined _ _ "description_en" _ Ht) as [b ->].
  destruct (getProp_defined _ _ "extracted_address" _ Hf) as [c ->].
  destruct (getProp_defined _ _ "extracted_district" _ Hf) as [d ->].
  destruct (getProp_defined _ _ "category" _ Hf) as [e ->].
  destruct (getProp_defined _ _ "practical_tips" _ Ht) as [f ->].
  cbn [bind]. eexists. split; [reflexivity|]. cbn. auto.
Qed.

(** [processPost], as the branch it ends in. *)
Lemma processPost_branches (srcIdx i : nat) (post : Post) (run run' : Run)
    (r : result Outcome) :
  processPost env srcIdx i post run = Some (r, run') ->
  (run' = run /\ forall item, r <> Ok (Accept item))
  \/ exists filterResult translation score,
       Spec.Screened env srcIdx i post filterResult translation score
       /\ ((isVideo post && negb (String.eqb (_platform post) "weibo") = true
            /\ videoPost env srcIdx i post filterResult translation score run = Some (r, run'))
           \/ (isVideo post && negb (String.eqb (_platform post) "weibo") = false
               /\ imagePost env post filterResult translation score run = Some (r, run'))).
Proof.
  unfold processPost. intros H.
  assert (Hstop : forall (r0 : result Outcome),
             (forall item, r0 <> Ok (Accept item)) ->
             Some (r0, run) = Some (r, run') ->
             run' = run /\ forall item, r <> Ok (Accept item)).
  { intros r0 Hr0 E. injection E as <- <-. auto. }
  destruct (titleShown (get post "title")) as [[]|e];
    [|left; eapply Hstop; [|exact H]; intros item; discriminate].
  destruct (maybeSingle env srcIdx i (get post "note_id")) as [existingPost|e] eqn:Em;
    [|left; eapply Hstop; [|exact H]; intros item; discriminate].
  destruct (Json.truthy existingPost) eqn:Ee;
    [left; eapply Hstop; [|exact H]; intros item; discriminate|].
  destruct (filterPost env srcIdx i post) as [filterResult|e] eqn:Ef;
    [|left; eapply Hstop; [|exact H]; intros item; discriminate].
  destruct (Json.getProp (Some filterResult) "score") as [score|e] eqn:Es;
    [|left; eapply Hstop; [|exact H]; intros item; discriminate].
  destruct (Json.getProp (Some filterResult) "relevant") as [relevant|e] eqn:Er;
    [|left; eapply Hstop; [|exact H]; intros item; discriminate].
  destruct (belowTheBar env relevant score) eqn:Eb;
    [left; eapply Hstop; [|exact H]; intros item; discriminate|].
  destruct (translatePost env srcIdx i post filterResult) as [translation|e] eqn:Et;
    [|left; eapply Hstop; [|exact H]; intros item; discriminate].
  destruct (Json.getProp (Some translation) "title_en") as [title_en|e] eqn:Ett;
    [|left; eapply Hstop; [|exact H]; intros item; discriminate].
  right. exists filterResult, translation, score. split.
  - constructor; eauto.
  - destruct (isVideo post && negb (String.eqb (_platform post) "weibo")); auto.
Qed.

Lemma accept_item (post : Post) (filterResult : Json.t) (score : Json.value)
    (r : SupabaseRecord) :
  accept post filterResult score (Ok r)
  = Ok (Accept (mkAccepted r score filterResult (get post "note_id") (get post "title"))).
Proof. reflexivity. Qed.

(** The video branch: the count goes up by one with a dubbed video accepted,
    and only then; never beyond the cap. *)
Lemma videoPost_count (srcIdx i : nat) (post : Post) (filterResult translation : Json.t)
    (score : Json.value) (run run' : Run) (r : result Outcome) :
  Spec.Screened env srcIdx i post filterResult translation score ->
  isVideo post && negb (String.eqb (_platform post) "weibo") = true ->
  videoPost env srcIdx i post filterResult translation score run = Some (r, run') ->
  (videoCount run' = videoCount run /\ forall item, r <> Ok (Accept item))
  \/ (videoCount run' = S (videoCount run)
      /\ capReached env (videoCount run) = false
      /\ exists item, r = Ok (Accept item)
                      /\ Main.filter item = filterResult /\ Main.score item = score
                      /\ Spec.dubbed item = true).
Proof.
  intros Hs Hv. unfold videoPost.
  destruct (capReached env (videoCount run)) eqn:Ec;
    [intros H; injection H as <- <-; left; split; [reflexivity|discriminate]|].
  destruct (negb (Json.truthy (get post "video_url")));
    [intros H; injection H as <- <-; left; split; [reflexivity|discriminate]|].
  destruct (downloadVideo env (disk run) _ _) as [[[[]|e] fs1]|]; [| |discriminate];
    [|intros H; injection H as <- <-; left; split; [reflexivity|discriminate]].
  destruct (getVideoDuration env _) as [videoDuration|e];
    [|intros H; injection H as <- <-; left; split; [reflexivity|discriminate]].
  destruct (gtb videoDuration 60%float).
  { destruct (unlinkSync fs1 _) as [[[]|e] fs2];
      intros H; injection H as <- <-; left; split; try reflexivity; discriminate. }
  destruct (get post "note_id") as [[| | | s | |]|];
    try (intros H; injection H as <- <-; left; split; [reflexivity|discriminate]).
  destruct (DubVideo.dubVideo (dub env) fs1 _ _) as [[[dubbed|e] fs2]|]; [| |discriminate];
    [|intros H; injection H as <- <-; left; split; [reflexivity|discriminate]].
  destruct (uploadVideoToSupabase env srcIdx i _ _) as [dubbedVideoUrl|e];
    [|intros H; injection H as <- <-; left; split; [reflexivity|discriminate]].
  destruct (unlinkSync fs2 _) as [[[]|e] fs3];
    [|intros H; injection H as <- <-; left; split; [reflexivity|discriminate]].
  destruct Hs as [_ _ Hscore _ _ [title_en Htitle]].
  destruct (buildSupabaseRecord_built post filterResult translation [] (Some dubbedVideoUrl)
              _ _ Hscore Htitle) as [rec [-> [Hp [Hty _]]]].
  rewrite accept_item. intros H. injection H as <- <-. right.
  split; [reflexivity|]. split; [reflexivity|].
  eexists. split; [reflexivity|]. split; [reflexivity|]. split; [reflexivity|].
  unfold Spec.dubbed. cbn [record]. rewrite Hp, Hty.
  apply andb_true_iff in Hv as [-> Hw]. rewrite String.eqb_refl. cbn [andb].
  destruct (truthyString (_platform post)); [exact Hw|reflexivity].
Qed.

(** The other branch: the count stays, and what is accepted is no dubbed
    video; a post from Weibo leaves the run as it was and has no media. *)
Lemma imagePost_count (srcIdx i : nat) (post : Post) (filterResult translation : Json.t)
    (score : Json.value) (run run' : Run) (r : result Outcome) :
  Spec.Screened env srcIdx i post filterResult translation score ->
  isVideo post && negb (String.eqb (_platform post) "weibo") = false ->
  imagePost env post filterResult translation score run = Some (r, run') ->
  videoCount run' = videoCount run
  /\ totalCost run' = totalCost run
  /\ (forall x, In x (disk run) -> In x (disk run'))
  /\ (forall item, r = Ok (Accept item) ->
        Main.filter item = filterResult /\ Main.score item = score /\ Spec.dubbed item = false
        /\ video_url (record item) = None)
  /\ (String.eqb (_platform post) "weibo" = true ->
      run' = run /\ forall item, r = Ok (Accept item) -> Spec.withoutMedia item).
Proof.
  intros Hs Hv. unfold imagePost.
  destruct Hs as [_ _ Hscore _ _ [title_en Htitle]].
  assert (Hacc : forall urls item,
             accept post filterResult score
               (buildSupabaseRecord post filterResult translation urls None) = Ok (Accept item) ->
             Main.filter item = filterResult /\ Main.score item = score /\ Spec.dubbed item = false
             /\ video_url (record item) = None
             /\ image_url (record item) = orNoUrl (List.hd_error urls)
             /\ all_images (record item) = match urls with [] => None | _ => Some urls end).
  { intros urls item.
    destruct (buildSupabaseRecord_built post filterResult translation urls None
                _ _ Hscore Htitle) as [rec [-> [Hp [Hty [Hi [Ha Hu]]]]]].
    rewrite accept_item. intros H. injection H as <-. cbn [Main.filter Main.score record].
    repeat split; auto. unfold Spec.dubbed. cbn [record]. rewrite Hp, Hty.
    destruct (isVideo post); [|reflexivity]. cbn [andb negb] in Hv.
    apply negb_false_iff in Hv. apply String.eqb_eq in Hv. rewrite Hv. reflexivity. }
  assert (Hplain : forall r0 run0,
             r0 = accept post filterResult score
                    (buildSupabaseRecord post filterResult translation [] None) ->
             Some (r0, run) = Some (r, run0) ->
             videoCount run0 = videoCount run
             /\ totalCost run0 = totalCost run
             /\ (forall x, In x (disk run) -> In x (disk run0))
             /\ (forall item, r = Ok (Accept item) ->
                   Main.filter item = filterResult /\ Main.score item = score /\ Spec.dubbed item = false
                   /\ video_url (record item) = None)
             /\ (String.eqb (_platform post) "weibo" = true ->
                 run0 = run /\ forall item, r = Ok (Accept item) -> Spec.withoutMedia item)).
  { intros r0 run0 -> E. injection E as <- <-.
    split; [reflexivity|]. split; [reflexivity|]. split; [auto|]. split.
    - intros item Hi. destruct (Hacc _ _ Hi) as [Hf [Hsc [Hd [Hvu _]]]]. auto.
    - intros _. split; [reflexivity|]. intros item Hi.
      destruct (Hacc _ _ Hi) as [_ [_ [_ [Hvu [Hiu Hai]]]]].
      unfold Spec.withoutMedia. auto. }
  destruct (imagesOf (get post "image_list")) as [images|e].
  2:{ intros H. injection H as <- <-. repeat split; auto; discriminate. }
  destruct (Nat.ltb 0 (List.length images) && negb (String.eqb (_platform post) "weibo")) eqn:Eb;
    [|apply Hplain; reflexivity].
  destruct (get post "note_id") as [[| | | s | |]|]; try (apply Hplain; reflexivity).
  destruct (UploadImages.uploadAllImagesToSupabase _ _ _ _) as [[hostedImageUrls fs1]|] eqn:Eu;
    [|discriminate].
  intros H. injection H as <- <-. cbn [videoCount totalCost disk].
  split; [reflexivity|]. split; [reflexivity|]. split.
  { unfold UploadImages.uploadAllImagesToSupabase in Eu.
    destruct (UploadImages.uploadAll _ _ _ _) as [[[urls|e] fs2]|] eqn:Ea; [| |discriminate];
      injection Eu as _ <-; intros x Hx.
    - unfold UploadImages.uploadAll in Ea.
      destruct (negb (existsSync _ _)); [discriminate|].
      destruct (UploadImages.readdirSync _ _) as [entries|e]; [|discriminate].
      destruct (UploadImages.selectImageFiles entries) as [|f files] eqn:Es; [discriminate|].
      rewrite <- Es in Ea.
      destruct (UploadImages.uploadLoop _ _ _ _ _ _ _) as [[[us|e] fs3]|] eqn:El;
        [|discriminate|discriminate].
      pose proof (uploadLoop_keeps _ _ _ _ _ _ _ _ _ El x Hx) as Hk.
      destruct us; [discriminate|]. injection Ea as _ <-. exact Hk.
    - unfold UploadImages.uploadAll in Ea.
      destruct (negb (existsSync _ _)); [injection Ea as _ <-; exact Hx|].
      destruct (UploadImages.readdirSync _ _) as [entries|e']; [|injection Ea as _ <-; exact Hx].
      destruct (UploadImages.selectImageFiles entries) as [|f files] eqn:Es;
        [injection Ea as _ <-; exact Hx|].
      rewrite <- Es in Ea.
      destruct (UploadImages.uploadLoop _ _ _ _ _ _ _) as [[[us|e'] fs3]|] eqn:El;
        [| |discriminate].
      + pose proof (uploadLoop_keeps _ _ _ _ _ _ _ _ _ El x Hx) as Hk.
        destruct us; injection Ea as _ <-; exact Hk.
      + pose proof (uploadLoop_keeps _ _ _ _ _ _ _ _ _ El x Hx) as Hk.
        injection Ea as _ <-. exact Hk. }
  split.
  { intros item Hi. destruct (Hacc _ _ Hi) as [? [? [? [? [? ?]]]]]. auto. }
  intros Hw. rewrite Hw, andb_false_r in Eb. discriminate Eb.
Qed.

(** [processPost] and the count of dubbed videos. *)
Lemma processPost_count (srcIdx i : nat) (post : Post) (run run' : Run)
    (r : result Outcome) :
  processPost env srcIdx i post run = Some (r, run') ->
  (forall item, r = Ok (Accept item) -> Spec.passedTheBar env item)
  /\ ((videoCount run' = videoCount run
       /\ forall item, r = Ok (Accept item) -> Spec.dubbed item = false)
      \/ (videoCount run' = S (videoCount run)
          /\ capReached env (videoCount run) = false
          /\ exists item, r = Ok (Accept item) /\ Spec.dubbed item = true)).
Proof.
  intros H.
  destruct (processPost_branches _ _ _ _ _ _ H)
    as [[-> Hno]|[filterResult [translation [score [Hs [[Hv Hb]|[Hv Hb]]]]]]].
  - split; [intros item Hi; destruct (Hno item Hi)|].
    left. split; [reflexivity|]. intros item Hi. destruct (Hno item Hi).
  - pose proof Hs as [_ _ Hscore [relevant [Hrel Hbar]] _ _].
    apply orb_false_iff in Hbar as [Ht Hlt]. apply negb_false_iff in Ht.
    destruct (videoPost_count _ _ _ _ _ _ _ _ _ Hs Hv Hb)
      as [[Hc Hno]|[Hc [Hcap [item [-> [Hf [Hsc Hd]]]]]]].
    + split; [intros item Hi; destruct (Hno item Hi)|].
      left. split; [exact Hc|]. intros item Hi. destruct (Hno item Hi).
    + split.
      * intros item' Hi. injection Hi as <-. exists relevant.
        rewrite Hf, Hsc. auto.
      * right. split; [exact Hc|]. split; [exact Hcap|]. exists item. auto.
  - pose proof Hs as [_ _ Hscore [relevant [Hrel Hbar]] _ _].
    apply orb_false_iff in Hbar as [Ht Hlt]. apply negb_false_iff in Ht.
    destruct (imagePost_count _ _ _ _ _ _ _ _ _ Hs Hv Hb) as [Hc [_ [_ [Hacc _]]]].
    split.
    + intros item Hi. destruct (Hacc item Hi) as [Hf [Hsc _]]. exists relevant.
      rewrite Hf, Hsc. auto.
    + left. split; [exact Hc|]. intros item Hi. destruct (Hacc item Hi) as [_ [_ [Hd _]]].
      exact Hd.
Qed.

(** A post from Weibo leaves the run as it was, and is accepted without
    media. *)
Lemma processPost_weibo (srcIdx i : nat) (post : Post) (run run' : Run)
    (r : result Outcome) :
  _platform post = "weibo" ->
  processPost env srcIdx i post run = Some (r, run') ->
  run' = run /\ forall item, r = Ok (Accept item) -> Spec.withoutMedia item.
Proof.
  intros Hw H.
  destruct (processPost_branches _ _ _ _ _ _ H)
    as [[-> Hno]|[filterResult [translation [score [Hs [[Hv Hb]|[Hv Hb]]]]]]].
  - split; [reflexivity|]. intros item Hi. destruct (Hno item Hi).
  - rewrite Hw in Hv. rewrite andb_false_r in Hv. discriminate Hv.
  - destruct (imagePost_count _ _ _ _ _ _ _ _ _ Hs Hv Hb) as [_ [_ [_ [_ Hweibo]]]].
    apply Hweibo. rewrite Hw. reflexivity.
Qed.

Lemma limitReached_positive (n : Z) (c : nat) :
  (0 < n)%Z -> limitReached (Some (Int n)) c = false -> (c < Z.to_nat n)%nat.
Proof.
  intros Hn. unfold limitReached. destruct (Z.eqb_spec n 0); [lia|]. cbn [negb andb].
  intros H. apply Z.leb_gt in H. lia.
Qed.

Lemma capReached_below (cap count : nat) :
  MAX_VIDEOS env = Some cap -> capReached env count = false -> (count < cap)%nat.
Proof. unfold capReached. intros ->. apply Nat.leb_gt. Qed.

Lemma sourceLoop_added (srcIdx : nat) (sourceLimit : option Limit) (posts : list Post) :
  forall (i sourceAccepted k : nat) (results results' : Results) (run run' : Run),
    sourceLoop env srcIdx sourceLimit i posts sourceAccepted results run
    = Some (k, results', run') ->
    Spec.Added env sourceLimit posts sourceAccepted k results results' run run'.
Proof.
  induction posts as [|post rest IH]; intros i a k results results' run run'; cbn [sourceLoop].
  - intros H. injection H as <- <- <-. constructor.
    + exists [], [], []. rewrite !app_nil_r, Nat.add_0_r. cbn [List.length List.filter].
      repeat split; auto.
    + intros; lia.
    + auto.
  - destruct (limitReached sourceLimit a) eqn:El.
    { intros H. injection H as <- <- <-. constructor.
      - exists [], [], []. rewrite !app_nil_r, Nat.add_0_r. cbn [List.length List.filter].
        repeat split; auto; try lia.
        intros Hnever. rewrite Hnever in El. discriminate El.
      - intros; lia.
      - auto. }
    destruct (processPost env srcIdx i post run) as [[[[item|item]|err] run1]|] eqn:Ep;
      [| | |discriminate].
    + (* accepted *)
      intros H. apply IH in H as [[new [newRejected [newErrors Hl]]] Hlim Hcap].
      cbn [accepted rejected errors] in Hl.
      destruct Hl as [Ha [Hr [He [Hk [Hle [Hall [Hbar [Hv Hw]]]]]]]].
      destruct (processPost_count _ _ _ _ _ _ Ep) as [Hpass Hcount].
      constructor.
      * exists (item :: new), newRejected, newErrors.
        split. { rewrite Ha, <- app_assoc. reflexivity. }
        split. { exact Hr. }
        split. { exact He. }
        split. { cbn [List.length]. lia. }
        split. { cbn [List.length]. lia. }
        split. { intros Hnever. specialize (Hall Hnever). cbn [List.length]. lia. }
        split. { constructor; [apply Hpass; reflexivity|exact Hbar]. }
        split.
        { rewrite Hv. cbn [List.filter].
          destruct Hcount as [[Hc Hd]|[Hc [_ [item' [Ei Hd]]]]].
          - rewrite (Hd item eq_refl), Hc. reflexivity.
          - injection Ei as <-. rewrite Hd, Hc. cbn [List.length]. lia. }
        intros Hweibo. inversion Hweibo as [|p l Hp Hrest]; subst.
        destruct (processPost_weibo _ _ _ _ _ _ Hp Ep) as [E Hm].
        destruct (Hw Hrest) as [E' Hf].
        split; [congruence|]. constructor; [apply Hm; reflexivity|exact Hf].
      * intros n En Hn. specialize (Hlim n En Hn). subst sourceLimit.
        pose proof (limitReached_positive n a Hn El). lia.
      * intros cap Ec Hle'. apply (Hcap cap Ec).
        destruct Hcount as [[Hc _]|[Hc [Hcr _]]]; [lia|].
        pose proof (capReached_below _ _ Ec Hcr). lia.
    + (* rejected *)
      intros H. apply IH in H as [[new [newRejected [newErrors Hl]]] Hlim Hcap].
      cbn [accepted rejected errors] in Hl.
      destruct Hl as [Ha [Hr [He [Hk [Hle [Hall [Hbar [Hv Hw]]]]]]]].
      destruct (processPost_count _ _ _ _ _ _ Ep) as [_ Hcount].
      assert (Hc : videoCount run1 = videoCount run).
      { destruct Hcount as [[Hc _]|[_ [_ [item' [Ei _]]]]]; [exact Hc|discriminate Ei]. }
      constructor.
      * exists new, (item :: newRejected), newErrors.
        split. { exact Ha. }
        split. { rewrite Hr, <- app_assoc. reflexivity. }
        split. { exact He. }
        split. { exact Hk. }
        split. { cbn [List.length]. lia. }
        split. { intros Hnever. specialize (Hall Hnever). cbn [List.length]. lia. }
        split. { exact Hbar. }
        split. { rewrite Hv, Hc. reflexivity. }
        intros Hweibo. inversion Hweibo as [|p l Hp Hrest]; subst.
        destruct (processPost_weibo _ _ _ _ _ _ Hp Ep) as [E _].
        destruct (Hw Hrest) as [E' Hf].
        split; [congruence|exact Hf].
      * intros n En Hn. specialize (Hlim n En Hn). subst sourceLimit.
        pose proof (limitReached_positive n a Hn El). lia.
      * intros cap Ec Hle'. apply (Hcap cap Ec). lia.
    + (* an error *)
      intros H. apply IH in H as [[new [newRejected [newErrors Hl]]] Hlim Hcap].
      cbn [accepted rejected errors] in Hl.
      destruct Hl as [Ha [Hr [He [Hk [Hle [Hall [Hbar [Hv Hw]]]]]]]].
      destruct (processPost_count _ _ _ _ _ _ Ep) as [_ Hcount].
      assert (Hc : videoCount run1 = videoCount run).
      { destruct Hcount as [[Hc _]|[_ [_ [item' [Ei _]]]]]; [exact Hc|discriminate Ei]. }
      constructor.
      * exists new, newRejected,
          (mkFailure (get post "note_id") (get post "title") (message err) :: newErrors).
        split. { exact Ha. }
        split. { exact Hr. }
        split. { rewrite He, <- app_assoc. reflexivity. }
        split. { exact Hk. }
        split. { cbn [List.length]. lia. }
        split. { intros Hnever. specialize (Hall Hnever). cbn [List.length]. lia. }
        split. { exact Hbar. }
        split. { rewrite Hv, Hc. reflexivity. }
        intros Hweibo. inversion Hweibo as [|p l Hp Hrest]; subst.
        destruct (processPost_weibo _ _ _ _ _ _ Hp Ep) as [E _].
        destruct (Hw Hrest) as [E' Hf].
        split; [congruence|exact Hf].
      * intros n En Hn. specialize (Hlim n En Hn). subst sourceLimit.
        pose proof (limitReached_positive n a Hn El). lia.
      * intros cap Ec Hle'. apply (Hcap cap Ec). lia.
Qed.

End MainLoops.

Section MainResults.

Import JS Fs Main.
Local Open Scope string_scope.

Lemma sourcesLoop_added (env : Env) (perSourceLimits : list Limit) (globalLimit : option Limit)
    (sources : list (list Post)) :
  forall (srcIdx : nat) (results results' : Results) (run run' : Run),
    sourcesLoop env perSourceLimits globalLimit srcIdx sources results run
    = Some (results', run') ->
    (exists new,
        accepted results' = (accepted results ++ new)%list
        /\ Forall (Spec.passedTheBar env) new
        /\ videoCount run' = (videoCount run + List.length (List.filter Spec.dubbed new))%nat)
    /\ (forall cap, MAX_VIDEOS env = Some cap ->
                    (videoCount run <= cap)%nat -> (videoCount run' <= cap)%nat).
Proof.
  induction sources as [|posts rest IH]; intros srcIdx results results' run run';
    cbn [sourcesLoop].
  - intros H. injection H as <- <-. split; [|auto].
    exists []. rewrite app_nil_r. cbn [List.filter List.length]. repeat split; auto.
  - destruct (sourceLoop env srcIdx _ 0 posts 0 results run) as [[[k results1] run1]|] eqn:Es;
      [|discriminate].
    apply sourceLoop_added in Es
      as [[new1 [nr1 [ne1 [Ha1 [_ [_ [_ [_ [_ [Hbar1 [Hv1 _]]]]]]]]]]] _ Hcap1].
    intros H. apply IH in H as [[new2 [Ha2 [Hbar2 Hv2]]] Hcap2]. split.
    + exists (new1 ++ new2)%list. rewrite Ha2, Ha1, <- app_assoc. split; [reflexivity|].
      split; [apply Forall_app; auto|].
      rewrite Hv2, Hv1, filter_app, length_app. lia.
    + intros cap Ec Hle. apply (Hcap2 cap Ec), (Hcap1 cap Ec), Hle.
Qed.

(** X22. With a limit of [n] accepted posts for a source, [n] positive, the
    loop over the posts of that source accepts [n] posts at most: it stops
    before the next post once [n] are accepted, whatever is left. *)
Theorem sourceLoop_stops_at_the_limit (env : Env) (srcIdx i : nat) (n : Z)
    (posts : list Post) (results results' : Results) (run run' : Run) (k : nat) :
  (0 < n)%Z ->
  sourceLoop env srcIdx (Some (Int n)) i posts 0 results run = Some (k, results', run') ->
  (Z.of_nat k <= n)%Z
  /\ exists new, accepted results' = (accepted results ++ new)%list /\ List.length new = k.
Proof.
  intros Hn H. apply sourceLoop_added in H as [[new [nr [ne [Ha [_ [_ [Hk _]]]]]]] Hlim _].
  specialize (Hlim n eq_refl Hn). split; [lia|]. exists new. split; [exact Ha|]. lia.
Qed.

(** X23. Nothing is accepted that did not pass the filter: for every item
    the loops of main add to the accepted posts, the filter's [relevant] is
    true and its [score] is not below 40, as JavaScript compares it with 40;
    the score kept with the item is that score. *)
Theorem main_accepts_only_what_passed_the_filter (env : Env) (perSourceLimits : list Limit)
    (globalLimit : option Limit) (srcIdx : nat) (sources : list (list Post))
    (results results' : Results) (run run' : Run) :
  sourcesLoop env perSourceLimits globalLimit srcIdx sources results run
  = Some (results', run') ->
  exists new,
    accepted results' = (accepted results ++ new)%list
    /\ Forall (fun item =>
                 exists relevant,
                   Json.getProp (Some (Main.filter item)) "relevant" = Ok relevant
                   /\ Json.truthy relevant = true
                   /\ Json.getProp (Some (Main.filter item)) "score" = Ok (Main.score item)
                   /\ (Json.toNumber (convert env) (Main.score item) <? 40)%float = false)
         new.
Proof.
  intros H. apply sourcesLoop_added in H as [[new [Ha [Hbar _]]] _].
  exists new. split; [exact Ha|exact Hbar].
Qed.

(** X24. The loop over the posts of a source files a post once at most:
    the three lists of the results only grow at their ends, by no more
    entries than there are posts, all lists together; and by one entry for
    each post when the source has no limit that can be reached (none, NaN or
    0).  An exception in the processing of a post costs that post only: it is
    filed under the errors and the loop goes on. *)
Theorem sourceLoop_files_every_post_once (env : Env) (srcIdx i : nat)
    (sourceLimit : option Limit) (posts : list Post) (sourceAccepted k : nat)
    (results results' : Results) (run run' : Run) :
  sourceLoop env srcIdx sourceLimit i posts sourceAccepted results run
  = Some (k, results', run') ->
  exists new newRejected newErrors,
    accepted results' = (accepted results ++ new)%list
    /\ rejected results' = (rejected results ++ newRejected)%list
    /\ errors results' = (errors results ++ newErrors)%list
    /\ (List.length new + List.length newRejected + List.length newErrors
        <= List.length posts)%nat
    /\ (match sourceLimit with
        | Some (Int n) => n = 0%Z
        | _ => True
        end ->
        (List.length new + List.length newRejected + List.length newErrors)%nat
        = List.length posts).
Proof.
  intros H. apply sourceLoop_added in H
    as [[new [newRejected [newErrors [Ha [Hr [He [_ [Hle [Hall _]]]]]]]]] _ _].
  exists new, newRejected, newErrors. repeat split; auto.
  intros Hl. apply Hall. intros c. unfold limitReached.
  destruct sourceLimit as [[|n]|]; try reflexivity. subst n. reflexivity.
Qed.

(** X25. The posts of a Weibo source cost nothing and carry no media:
    nothing is downloaded, dubbed or uploaded for them, so the cost, the
    count of videos and the disk are after the loop what they were before,
    and every record accepted has neither an image nor a video. *)
Theorem weibo_posts_carry_no_media (env : Env) (srcIdx i : nat)
    (sourceLimit : option Limit) (posts : list Post) (sourceAccepted k : nat)
    (results results' : Results) (run run' : Run) :
  Forall (fun post => _platform post = "weibo") posts ->
  sourceLoop env srcIdx sourceLimit i posts sourceAccepted results run
  = Some (k, results', run') ->
  run' = run
  /\ exists new,
       accepted results' = (accepted results ++ new)%list
       /\ Forall (fun item =>
                    image_url (record item) = None
                    /\ all_images (record item) = None
                    /\ video_url (record item) = None) new.
Proof.
  intros Hw H. apply sourceLoop_added in H
    as [[new [nr [ne [Ha [_ [_ [_ [_ [_ [_ [_ Hweibo]]]]]]]]]]] _ _].
  destruct (Hweibo Hw) as [E Hm]. split; [exact E|]. exists new. split; [exact Ha|exact Hm].
Qed.


End MainResults.

Section MainScenarios.

Import JS Fs Main.
Local Open Scope string_scope.

(** Three posts, scored 72, 35 and 90, and a limit of one: the first is
    accepted and the loop stops there. *)
Lemma sourceLoop_stops_at_the_limit_witness :
  match sourceLoop Sample.newsroom 0 (Some (Int 1)) 0 Sample.threePosts 0
          Sample.emptyResults Sample.freshRun with
  | Some (k, _, _) => (Z.of_nat k <= 1)%Z
  | None => False
  end.
Proof.
  destruct (sourceLoop Sample.newsroom 0 (Some (Int 1)) 0 Sample.threePosts 0
              Sample.emptyResults Sample.freshRun) as [[[k results'] run']|] eqn:E.
  - exact (proj1 (sourceLoop_stops_at_the_limit Sample.newsroom 0 0 1 Sample.threePosts
                    Sample.emptyResults results' Sample.freshRun run' k eq_refl E)).
  - vm_compute in E. discriminate E.
Defined.

(** The same posts without a limit: the second, scored 35, is not among the
    accepted. *)
Lemma main_accepts_only_what_passed_the_filter_witness :
  match sourcesLoop Sample.newsroom [] None 0 [Sample.threePosts]
          Sample.emptyResults Sample.freshRun with
  | Some (results', _) =>
      exists new, accepted results' = (accepted Sample.emptyResults ++ new)%list
  | None => False
  end.
Proof.
  destruct (sourcesLoop Sample.newsroom [] None 0 [Sample.threePosts]
              Sample.emptyResults Sample.freshRun) as [[results' run']|] eqn:E.
  - destruct (main_accepts_only_what_passed_the_filter Sample.newsroom [] None 0
                [Sample.threePosts] Sample.emptyResults results' Sample.freshRun run' E)
      as [new [Ha _]].
    exists new. exact Ha.
  - vm_compute in E. discriminate E.
Defined.

Lemma sourceLoop_files_every_post_once_witness :
  match sourceLoop Sample.newsroom 0 None 0 Sample.threePosts 0
          Sample.emptyResults Sample.freshRun with
  | Some (_, results', _) => Spec.entries results' = 3%nat
  | None => False
  end.
Proof.
  destruct (sourceLoop Sample.newsroom 0 None 0 Sample.threePosts 0
              Sample.emptyResults Sample.freshRun) as [[[k results'] run']|] eqn:E.
  - destruct (sourceLoop_files_every_post_once Sample.newsroom 0 0 None Sample.threePosts
                0 k Sample.emptyResults results' Sample.freshRun run' E)
      as [new [newRejected [newErrors [Ha [Hr [He [_ Hall]]]]]]].
    unfold Spec.entries. rewrite Ha, Hr, He. exact (Hall I).
  - vm_compute in E. discriminate E.
Defined.

(** The same posts as a Weibo source. *)
Lemma weibo_posts_carry_no_media_witness :
  match sourceLoop Sample.newsroom 1 None 0
          (List.map (fun post => mkPost (fields post) "weibo" (_scraperImagesDir post))
             Sample.threePosts)
          0 Sample.emptyResults Sample.freshRun with
  | Some (_, _, run') => run' = Sample.freshRun
  | None => False
  end.
Proof.
  destruct (sourceLoop Sample.newsroom 1 None 0
              (List.map (fun post => mkPost (fields post) "weibo" (_scraperImagesDir post))
                 Sample.threePosts)
              0 Sample.emptyResults Sample.freshRun) as [[[k results'] run']|] eqn:E.
  - refine (proj1 (weibo_posts_carry_no_media Sample.newsroom 1 0 None _ 0 k
                     Sample.emptyResults results' Sample.freshRun run' _ E)).
    repeat constructor.
  - vm_compute in E. discriminate E.
Defined.


End MainScenarios.


(** ** process-xhs-posts.mjs: the posts of a source *)

Section LoadedPosts.

Import JS Fs Main.
Local Open Scope string_scope.

(** A key written again later in an object literal wins. *)
Lemma lookup_app (k : jsstring) (l1 l2 : list (jsstring * Json.t)) :
  Json.lookup k (l1 ++ l2)
  = match Json.lookup k l2 with
    | Some v => Some v
    | None => Json.lookup k l1
    end.
Proof.
  induction l1 as [|[k' v] l1 IH]; cbn [app Json.lookup].
  - destruct (Json.lookup k l2); reflexivity.
  - rewrite IH. destruct (Json.lookup k l2); reflexivity.
Qed.

Lemma normalizePost_weibo (convert : Json.t -> number) (p normalized : Json.t) :
  normalizePost convert p "weibo" = Ok normalized ->
  Json.lookup (ofAscii "type") (spread normalized) = Some (Json.JStr (ofAscii "normal"))
  /\ Json.lookup (ofAscii "image_list") (spread normalized) = Some (Json.JStr [])
  /\ Json.lookup (ofAscii "video_url") (spread normalized) = Some Json.JNull.
Proof.
  unfold normalizePost. cbn [String.eqb Ascii.eqb Bool.eqb negb].
  change (negb ("weibo" =? "weibo")) with false. cbv iota.
  destruct (Json.getProp (Some p) "content") as [content|e]; cbn [bind]; [|discriminate].
  destruct (substring50 content) as [title|e]; cbn [bind]; [|discriminate].
  destruct (Json.getProp (Some p) "create_time") as [create_time|e]; cbn [bind]; [|discriminate].
  destruct (Json.getProp (Some p) "comments_count") as [cc|e]; cbn [bind]; [|discriminate].
  destruct (Json.getProp (Some p) "shared_count") as [sc|e]; cbn [bind]; [|discriminate].
  intros H. injection H as <-. cbn [spread]. rewrite !lookup_app.
  repeat split; vm_compute; reflexivity.
Qed.

Lemma loadAll_weibo (convert : Json.t -> number) (dir : path) (items : list Json.t) :
  forall posts,
    loadAll convert "weibo" dir items = Ok posts ->
    List.length posts = List.length items
    /\ Forall (fun post =>
                 _platform post = "weibo"
                 /\ get post "type" = Some (Json.JStr (ofAscii "normal"))
                 /\ get post "image_list" = Some (Json.JStr [])
                 /\ get post "video_url" = Some Json.JNull) posts.
Proof.
  induction items as [|p rest IH]; intros posts; cbn [loadAll].
  - intros H. injection H as <-. split; [reflexivity|constructor].
  - destruct (normalizePost convert p "weibo") as [normalized|e] eqn:En; cbn [bind];
      [|discriminate].
    destruct (loadAll convert "weibo" dir rest) as [others|e]; cbn [bind]; [|discriminate].
    intros H. injection H as <-. destruct (IH others eq_refl) as [Hlen Hall].
    split; [cbn [List.length]; rewrite Hlen; reflexivity|].
    constructor; [|exact Hall].
    destruct (normalizePost_weibo _ _ _ En) as [Ht [Hi Hv]].
    unfold get. cbn [fields _platform]. auto.
Qed.

Lemma loadAll_other (convert : Json.t -> number) (platform : string) (dir : path)
    (items : list Json.t) :
  platform <> "weibo" ->
  loadAll convert platform dir items
  = Ok (List.map (fun p => mkPost (spread p) platform dir) items).
Proof.
  intros Hp. induction items as [|p rest IH]; cbn [loadAll List.map]; [reflexivity|].
  unfold normalizePost. destruct (String.eqb_spec platform "weibo"); [contradiction|].
  cbn [negb bind]. rewrite IH. reflexivity.
Qed.

(** X27. What the loader makes of a source.  The posts of a Weibo source
    are text posts whatever was scraped: there is one post for each scraped
    object, and each has the type [normal], an empty list of images and no
    video URL, even when the scraped object holds other values under these
    names; so none is taken for a video and none has images to upload.  The
    posts of any other source are the scraped objects as they are, and
    loading them never raises. *)
Theorem loadPosts_makes_weibo_posts_text_only (convert : Json.t -> number) (raw : Json.t)
    (scraperImagesDir : path) :
  let items := match raw with Json.JArr items => items | _ => [raw] end in
  (forall posts,
      loadPosts convert raw "weibo" scraperImagesDir = Ok posts ->
      List.length posts = List.length items
      /\ Forall (fun post =>
                   _platform post = "weibo"
                   /\ get post "type" = Some (Json.JStr (ofAscii "normal"))
                   /\ get post "video_url" = Some Json.JNull
                   /\ isVideo post = false
                   /\ imagesOf (get post "image_list") = Ok []) posts)
  /\ (forall platform,
      platform <> "weibo" ->
      loadPosts convert raw platform scraperImagesDir
      = Ok (List.map (fun p => mkPost (spread p) platform scraperImagesDir) items)).
Proof.
  cbv zeta. split.
  - intros posts H. apply loadAll_weibo in H as [Hlen Hall]. split; [exact Hlen|].
    eapply Forall_impl; [|exact Hall].
    intros post [Hp [Ht [Hi Hv]]]. repeat split; auto.
    + unfold isVideo. rewrite Ht. reflexivity.
    + rewrite Hi. reflexivity.
  - intros platform Hp. apply loadAll_other. exact Hp.
Qed.

End LoadedPosts.
